(** * HierDiff: hierarchical grouped differential bitmap versioning

    A shallow embedding of [HierDiffController.h] (the [BitmapController]
    class with its [CompressedBitmap] and [BitmapRef] nodes) and the
    properties of its codec, its sorted-array union and its version chain.

    Conventions of the embedding.
    - [uint8_t], [uint16_t] and [int] values are [Z]; a store into a
      [uint8_t] or [uint16_t] slot is written with [wrap8] / [wrap16].
    - A C array is a [list Z]; [rd a i] is the read [a[i]] and
      [<[i:=v]> a] the write [a[i] = v].  Reading or writing past the end
      of an array is undefined behaviour in C++: the codec functions below
      are total (a read past the end yields 0, a write past the end does
      nothing) and the callers in the controller check the bounds and
      report [Fault OutOfBounds] instead of calling them out of bounds.
    - [for] loops over a fixed index range are folds over [seq]; [while]
      loops over indices or pointers take fuel.
    - Heap objects ([new BitmapRef], [new CompressedBitmap]) live in two
      lists indexed by address; [nullptr] is [None].
    - Mutexes are not modelled: every public member function runs
      atomically, calls interleave at call granularity. *)

From stdpp Require Import list.
From Stdlib Require Import ZArith Lia Sorted.

Local Open Scope Z_scope.

(** ** Constants *)

Definition BITMAP_SIZE : nat := Z.to_nat 7500.
Definition MAX_COMPRESS_NUM : Z := 9.

(** ** Machine integers and arrays *)

Definition wrap8 (z : Z) : Z := z mod 256.
Definition wrap16 (z : Z) : Z := z mod 65536.

(** [int] increment: two's complement wrap-around at 32 bits. *)
Definition wrap_int (z : Z) : Z := (z + 2147483648) mod 4294967296 - 2147483648.

(** [a[i]] *)
Definition rd (a : list Z) (i : nat) : Z := nth i a 0.

(** [memcpy(dst, src, n)] *)
Definition memcpy (dst src : list Z) (n : nat) : list Z :=
  take n src ++ drop n dst.

(** [temp[i] & (1 << (7 - j))] is non-zero *)
Definition bit_set (t : Z) (j : nat) : bool :=
  negb (Z.land t (Z.shiftl 1 (7 - Z.of_nat j)) =? 0).

(** ** The bitmap codec *)

(** [xor_function(a, b, result)]: the contents of [result] afterwards. *)
Definition xor_function (a b : list Z) : list Z :=
  map (fun i => Z.lxor (rd a i) (rd b i)) (seq 0 BITMAP_SIZE).

(** The body of the counting loop of [compress_bitmap] for byte [t]. *)
Definition count_byte (t : Z) (total_cnt : Z) : Z :=
  if t =? 0 then total_cnt
  else fold_left (fun c j => if bit_set t j then c + 1 else c) (seq 0 8) total_cnt.

Definition count_bits (temp : list Z) : Z :=
  fold_left (fun c i => count_byte (rd temp i) c) (seq 0 BITMAP_SIZE) 0.

(** The body of the emitting loop of [compress_bitmap] for byte [i]:
    [compressed_bitmap[pos++] = i * 8 + j]. *)
Definition emit_byte (i : nat) (t : Z) (out : list Z) : list Z :=
  if t =? 0 then out
  else fold_left
         (fun o j => if bit_set t j
                     then o ++ [wrap16 (Z.of_nat i * 8 + Z.of_nat j)] else o)
         (seq 0 8) out.

Definition emit_positions (temp : list Z) (out : list Z) : list Z :=
  fold_left (fun o i => emit_byte i (rd temp i) o) (seq 0 BITMAP_SIZE) out.

(** The dense payload: [BITMAP_SIZE / 2] words packing the original. *)
Definition pack_dense (original_bitmap : list Z) : list Z :=
  map (fun i => wrap16 (Z.lor (rd original_bitmap (2 * i))
                              (Z.shiftl (rd original_bitmap (2 * i + 1)) 8)))
      (seq 0 (BITMAP_SIZE / 2)).

(** [compress_bitmap(original_bitmap, complete_bitmap, is_compressed)]
    returns the payload and the value stored through [is_compressed]. *)
Definition compress_bitmap (original_bitmap complete_bitmap : list Z)
  : list Z * bool :=
  let temp := xor_function original_bitmap complete_bitmap in
  let total_cnt := count_bits temp in
  if total_cnt >=? Z.quot (Z.of_nat BITMAP_SIZE) 16 then
    (pack_dense original_bitmap, false)
  else
    (emit_positions temp [wrap16 total_cnt], true).

(** One iteration of the dense loop of [decompress_bitmap]. *)
Definition undense_step (compressed_bitmap : list Z) (r : list Z) (i : nat)
  : list Z :=
  let r1 := <[(2 * i)%nat :=
               wrap8 (Z.lxor (rd r (2 * i)) (Z.land (rd compressed_bitmap i) 255))]> r in
  <[(2 * i + 1)%nat :=
     wrap8 (Z.lxor (rd r1 (2 * i + 1))
                   (Z.land (Z.shiftr (rd compressed_bitmap i) 8) 255))]> r1.

(** [bitmap_result[byte_index] ^= 1 << (7 - bit_index)] for the position
    [pos]. *)
Definition toggle_pos (r : list Z) (pos : Z) : list Z :=
  let byte_index := Z.to_nat (Z.quot pos 8) in
  let bit_index := Z.rem pos 8 in
  <[byte_index := wrap8 (Z.lxor (rd r byte_index) (Z.shiftl 1 (7 - bit_index)))]> r.

(** One iteration of the sparse loop of [decompress_bitmap]:
    [pos = compressed_bitmap[i]], then the toggle. *)
Definition toggle_step (compressed_bitmap : list Z) (r : list Z) (i : nat)
  : list Z :=
  toggle_pos r (rd compressed_bitmap i).

(** [decompress_bitmap(bitmap_result, complete_bitmap, compressed_bitmap,
    is_compressed)]: the contents of [bitmap_result] afterwards. *)
Definition decompress_bitmap (bitmap_result complete_bitmap compressed_bitmap : list Z)
    (is_compressed : bool) : list Z :=
  let r0 := memcpy bitmap_result complete_bitmap BITMAP_SIZE in
  if negb is_compressed then
    fold_left (undense_step compressed_bitmap) (seq 0 (BITMAP_SIZE / 2)) r0
  else
    let total_cnt := rd compressed_bitmap 0 in
    fold_left (toggle_step compressed_bitmap) (seq 1 (Z.to_nat total_cnt)) r0.

(** ** Sorted-array union *)

(** The first [while] loop of [union_sorted_array]; [temp] holds the slots
    [temp[1..k-1]] written so far.  Every iteration advances [i] or [j],
    so [a_size + b_size] iterations always reach the exit test. *)
Fixpoint union_loop (fuel : nat) (a b : list Z) (a_size b_size : nat)
    (i j : nat) (temp : list Z) : nat * nat * list Z :=
  match fuel with
  | O => (i, j, temp)
  | S fuel' =>
      if (i <? a_size)%nat && (j <? b_size)%nat then
        let x := rd a (S i) in
        let y := rd b (S j) in
        if x <? y then union_loop fuel' a b a_size b_size (S i) j (temp ++ [x])
        else if x >? y then union_loop fuel' a b a_size b_size i (S j) (temp ++ [y])
        else union_loop fuel' a b a_size b_size (S i) (S j) (temp ++ [x])
      else (i, j, temp)
  end.

(** [union_sorted_array(a, b)]: the arrays [a] and [b] point to afterwards. *)
Definition union_sorted_array (a b : list Z) : list Z * list Z :=
  let a_size := Z.to_nat (rd a 0) in
  let b_size := Z.to_nat (rd b 0) in
  let '(i, j, temp) := union_loop (a_size + b_size) a b a_size b_size 0 0 [] in
  let temp := temp ++ map (fun i => rd a (S i)) (seq i (a_size - i)) in
  let temp := temp ++ map (fun j => rd b (S j)) (seq j (b_size - j)) in
  (wrap16 (Z.of_nat (length temp)) :: temp, b).

(** ** Faults and the result of a call *)

(** What C++ leaves undefined is a [Fault]; [Timeout] is the model's own:
    a pointer loop that used up its fuel (shown not to happen in the
    states the controller reaches). *)
Inductive fault := NullDeref | BadPointer | OutOfBounds.

Inductive outcome (A : Type) : Type :=
| Ret (a : A)
| Fault (f : fault)
| Timeout.
Arguments Ret {A} a.
Arguments Fault {A} f.
Arguments Timeout {A}.

#[export] Instance outcome_ret : MRet outcome := fun _ a => Ret a.
#[export] Instance outcome_bind : MBind outcome := fun _ _ k m =>
  match m with
  | Ret a => k a
  | Fault f => Fault f
  | Timeout => Timeout
  end.

(** ** Heap objects *)

(** [struct CompressedBitmap]; a pointer is an address in the heap list of
    its target type, [nullptr] is [None].  The array behind
    [compressed_bitmap] is owned by its node and never shared. *)
Record CompressedBitmap := mkCompressedBitmap {
  bitmap_csn : Z;
  next_bitmap : option nat;
  compressed_bitmap : option (list Z);
  is_compressed : bool
}.

(** [struct BitmapRef]; [complete_bitmap] is allocated and filled by the
    call that creates the node, before the node is linked. *)
Record BitmapRef := mkBitmapRef {
  bitmap_cnt : Z;
  csn_range : Z * Z;
  next_ref : option nat;
  first_compressed_bitmap : option nat;
  complete_bitmap : list Z
}.

(** [class BitmapController]: the two heaps and the members the modelled
    functions use ([tsn_list], [worker], [stop_flag] are never touched). *)
Record BitmapController := mkBitmapController {
  ref_heap : list BitmapRef;
  bmp_heap : list CompressedBitmap;
  first_ref : option nat;
  head_bitmap_cnt : Z
}.

(** The constructor: [first_ref = nullptr], [head_bitmap_cnt = 9]. *)
Definition init : BitmapController :=
  {| ref_heap := []; bmp_heap := []; first_ref := None; head_bitmap_cnt := 9 |}.

(** [*p] *)
Definition deref {A} (h : list A) (p : option nat) : outcome A :=
  match p with
  | None => Fault NullDeref
  | Some a => match h !! a with
              | Some x => Ret x
              | None => Fault BadPointer
              end
  end.

Definition ptr_eqb (p q : option nat) : bool :=
  match p, q with
  | None, None => true
  | Some a, Some b => (a =? b)%nat
  | _, _ => false
  end.

Arguments ptr_eqb : simpl never.

Definition set_payload (nd : CompressedBitmap) (w : list Z) (c : bool)
  : CompressedBitmap :=
  {| bitmap_csn := bitmap_csn nd; next_bitmap := next_bitmap nd;
     compressed_bitmap := Some w; is_compressed := c |}.

Definition set_first (r : BitmapRef) (b : option nat) : BitmapRef :=
  {| bitmap_cnt := bitmap_cnt r; csn_range := csn_range r;
     next_ref := next_ref r; first_compressed_bitmap := b;
     complete_bitmap := complete_bitmap r |}.

Definition set_cnt_range (r : BitmapRef) (cnt : Z) (rg : Z * Z) : BitmapRef :=
  {| bitmap_cnt := cnt; csn_range := rg;
     next_ref := next_ref r; first_compressed_bitmap := first_compressed_bitmap r;
     complete_bitmap := complete_bitmap r |}.

(** ** Bounds of the array accesses *)

(** [decompress_bitmap] stays inside its arrays. *)
Definition decompress_in_bounds (bitmap_result complete_bitmap compressed_bitmap : list Z)
    (is_compressed : bool) : bool :=
  (BITMAP_SIZE <=? length bitmap_result)%nat
  && (BITMAP_SIZE <=? length complete_bitmap)%nat
  && (if negb is_compressed then
        (BITMAP_SIZE / 2 <=? length compressed_bitmap)%nat
      else
        (0 <? length compressed_bitmap)%nat
        && (Z.to_nat (rd compressed_bitmap 0) <? length compressed_bitmap)%nat
        && forallb (fun i => (Z.to_nat (Z.quot (rd compressed_bitmap i) 8)
                                <? length bitmap_result)%nat)
                   (seq 1 (Z.to_nat (rd compressed_bitmap 0)))).

(** [union_sorted_array] reads [a[0..a_size]] and [b[0..b_size]]. *)
Definition union_in_bounds (a b : list Z) : bool :=
  (Z.to_nat (rd a 0) <? length a)%nat && (Z.to_nat (rd b 0) <? length b)%nat.

(** ** get_bitmap *)

(** How the first loop of [get_bitmap] ends. *)
Inductive scan :=
| ScanReturnFalse              (* [return false] inside the loop *)
| ScanStop (temp_refp : option nat).  (* loop left, by [break] or at [nullptr] *)

Fixpoint scan_refs (fuel : nat) (refs : list BitmapRef) (temp_refp : option nat)
    (require_csn : Z) : outcome scan :=
  match temp_refp with
  | None => Ret (ScanStop None)
  | Some g =>
      match refs !! g with
      | None => Fault BadPointer
      | Some r =>
          match fuel with
          | O => Timeout
          | S fuel' =>
              if require_csn <? fst (csn_range r) then
                scan_refs fuel' refs (next_ref r) require_csn
              else if require_csn >? snd (csn_range r) then
                Ret ScanReturnFalse
              else Ret (ScanStop (Some g))
          end
      end
  end.

(** The call of [decompress_bitmap] made by [get_bitmap]. *)
Definition decompress_call (bitmap_result complete_bitmap : list Z)
    (nd : CompressedBitmap) : outcome (list Z) :=
  match compressed_bitmap nd with
  | None => Fault NullDeref
  | Some w =>
      if decompress_in_bounds bitmap_result complete_bitmap w (is_compressed nd)
      then Ret (decompress_bitmap bitmap_result complete_bitmap w (is_compressed nd))
      else Fault OutOfBounds
  end.

(** The second loop of [get_bitmap], with its two [return]s. *)
Fixpoint scan_bitmaps (fuel : nat) (bmps : list CompressedBitmap)
    (temp_compressed_bitmap : option nat) (require_csn : Z)
    (bitmap_result complete_bitmap : list Z) : outcome (bool * list Z) :=
  match temp_compressed_bitmap with
  | None => Ret (false, bitmap_result)
  | Some b =>
      match bmps !! b with
      | None => Fault BadPointer
      | Some nd =>
          match fuel with
          | O => Timeout
          | S fuel' =>
              if require_csn =? bitmap_csn nd then
                out ← decompress_call bitmap_result complete_bitmap nd;
                Ret (true, out)
              else
                scan_bitmaps fuel' bmps (next_bitmap nd) require_csn
                             bitmap_result complete_bitmap
          end
      end
  end.

(** [get_bitmap(require_csn, bitmap_result)]: the returned [bool] and the
    contents of [bitmap_result] afterwards. *)
Definition get_bitmap (s : BitmapController) (require_csn : Z)
    (bitmap_result : list Z) : outcome (bool * list Z) :=
  sc ← scan_refs (length (ref_heap s)) (ref_heap s) (first_ref s) require_csn;
  match sc with
  | ScanReturnFalse => Ret (false, bitmap_result)
  | ScanStop None => Ret (false, bitmap_result)
  | ScanStop (Some g) =>
      r ← deref (ref_heap s) (Some g);
      scan_bitmaps (length (bmp_heap s)) (bmp_heap s) (first_compressed_bitmap r)
                   require_csn bitmap_result (complete_bitmap r)
  end.

(** ** insert_null *)

(** [insert_null(new_csn, original_bitmap, ref, bitmap)]: the new state,
    the values of the reference parameters [ref] and [bitmap] afterwards,
    and the returned [bool]. *)
Definition insert_null (s : BitmapController) (new_csn : Z)
    (original_bitmap : list Z) (ref bitmap : option nat)
  : outcome (BitmapController * option nat * option nat * bool) :=
  if head_bitmap_cnt s =? MAX_COMPRESS_NUM then
    (* head_bitmap_cnt = 1; create_ref = true *)
    if (BITMAP_SIZE <=? length original_bitmap)%nat then
      let new_compressed_bitmap :=
        {| bitmap_csn := new_csn; next_bitmap := None;
           compressed_bitmap := Some [0]; is_compressed := true |} in
      let new_ref :=
        {| bitmap_cnt := wrap_int (0 + 1);
           csn_range := (new_csn, new_csn);
           next_ref := first_ref s;
           first_compressed_bitmap := Some (length (bmp_heap s));
           complete_bitmap := take BITMAP_SIZE original_bitmap |} in
      Ret ({| ref_heap := ref_heap s ++ [new_ref];
              bmp_heap := bmp_heap s ++ [new_compressed_bitmap];
              first_ref := Some (length (ref_heap s));
              head_bitmap_cnt := 1 |}, ref, bitmap, true)
    else Fault OutOfBounds
  else
    (* head_bitmap_cnt++; now_first_ref = first_ref.load() *)
    let now_first_ref := first_ref s in
    match now_first_ref with
    | None => Fault NullDeref
    | Some g =>
        match ref_heap s !! g with
        | None => Fault BadPointer
        | Some r =>
            let new_compressed_bitmap :=
              {| bitmap_csn := new_csn; next_bitmap := first_compressed_bitmap r;
                 compressed_bitmap := None; is_compressed := false |} in
            let new_addr := length (bmp_heap s) in
            Ret ({| ref_heap := <[g := set_first r (Some new_addr)]> (ref_heap s);
                    bmp_heap := bmp_heap s ++ [new_compressed_bitmap];
                    first_ref := first_ref s;
                    head_bitmap_cnt := wrap_int (head_bitmap_cnt s + 1) |},
                 now_first_ref, Some new_addr, true)
        end
    end.

(** ** insert_bitmap_content *)

(** The first loop of [insert_bitmap_content]: the final values of
    [start_compress_point] and [temp_csn]. *)
Fixpoint walk_to (fuel : nat) (bmps : list CompressedBitmap)
    (temp_bmp bitmap : option nat) (start_compress_point : option nat)
    (temp_csn : Z) : outcome (option nat * Z) :=
  match temp_bmp with
  | None => Ret (start_compress_point, temp_csn)
  | Some a =>
      if ptr_eqb temp_bmp bitmap then Ret (start_compress_point, temp_csn)
      else
        match bmps !! a with
        | None => Fault BadPointer
        | Some nd =>
            match fuel with
            | O => Timeout
            | S fuel' =>
                match compressed_bitmap nd with
                | None => walk_to fuel' bmps (next_bitmap nd) bitmap None (-1)
                | Some _ =>
                    walk_to fuel' bmps (next_bitmap nd) bitmap (Some a) (bitmap_csn nd)
                end
            end
        end
  end.

(** The second loop: [union_sorted_array] into every node from
    [temp_bmp] up to, not including, [bitmap]. *)
Fixpoint propagate (fuel : nat) (bmps : list CompressedBitmap)
    (temp_bmp bitmap : option nat) : outcome (list CompressedBitmap) :=
  match temp_bmp with
  | None => Ret bmps
  | Some a =>
      if ptr_eqb temp_bmp bitmap then Ret bmps
      else
        match bmps !! a with
        | None => Fault BadPointer
        | Some nd =>
            match fuel with
            | O => Timeout
            | S fuel' =>
                p ← deref bmps bitmap;
                match compressed_bitmap nd, compressed_bitmap p with
                | Some wa, Some wb =>
                    if union_in_bounds wa wb then
                      let nd' := set_payload nd (fst (union_sorted_array wa wb))
                                             (is_compressed nd) in
                      propagate fuel' (<[a := nd']> bmps) (next_bitmap nd) bitmap
                    else Fault OutOfBounds
                | _, _ => Fault NullDeref
                end
            end
        end
  end.

(** The part of [insert_bitmap_content] under [ref->ref_lock]: the two
    loops and the range update, for node [nd] at [b] in group [r] at [g]
    and the payload [w] and flag [c] that [compress_bitmap] returned. *)
Definition insert_locked (s : BitmapController) (g b : nat) (r : BitmapRef)
    (nd : CompressedBitmap) (w : list Z) (c : bool)
  : outcome (BitmapController * bool) :=
  let bmps1 := <[b := set_payload nd w c]> (bmp_heap s) in
  let cnt := wrap_int (bitmap_cnt r + 1) in
  '(start_compress_point, temp_csn) ←
    walk_to (length bmps1) bmps1 (first_compressed_bitmap r) (Some b) None (-1);
  bmps2 ← match start_compress_point with
          | Some _ => propagate (length bmps1) bmps1 start_compress_point (Some b)
          | None => Ret bmps1
          end;
  let temp_csn := if temp_csn =? -1 then bitmap_csn nd else temp_csn in
  let r' := set_cnt_range r cnt
              (fst (csn_range r), Z.max (snd (csn_range r)) temp_csn) in
  Ret ({| ref_heap := <[g := r']> (ref_heap s);
          bmp_heap := bmps2;
          first_ref := first_ref s;
          head_bitmap_cnt := head_bitmap_cnt s |}, true).

(** [insert_bitmap_content(ref, bitmap, original_bitmap)]: the new state
    and the returned [bool]. *)
Definition insert_bitmap_content (s : BitmapController) (ref bitmap : option nat)
    (original_bitmap : list Z) : outcome (BitmapController * bool) :=
  match ref, bitmap with
  | Some g, Some b =>
      match ref_heap s !! g, bmp_heap s !! b with
      | Some r, Some nd =>
          if (BITMAP_SIZE <=? length original_bitmap)%nat
             && (BITMAP_SIZE <=? length (complete_bitmap r))%nat then
            let '(w, c) := compress_bitmap original_bitmap (complete_bitmap r) in
            insert_locked s g b r nd w c
          else Fault OutOfBounds
      | _, _ => Fault BadPointer
      end
  | _, _ => Fault NullDeref
  end.

(** ** Calls and reachable states *)

(** The argument types: a bitmap is an array of [BITMAP_SIZE] bytes, a
    CSN is an [int]. *)
Definition is_bitmap (b : list Z) : bool :=
  (length b =? BITMAP_SIZE)%nat && forallb (fun x => (0 <=? x) && (x <? 256)) b.

Definition is_int (z : Z) : bool := (-2147483648 <=? z) && (z <=? 2147483647).

Inductive call :=
| InsertNull (new_csn : Z) (original_bitmap : list Z) (ref bitmap : option nat)
| InsertBitmapContent (ref bitmap : option nat) (original_bitmap : list Z).

Definition call_ok (c : call) : bool :=
  match c with
  | InsertNull new_csn original_bitmap _ _ => is_int new_csn && is_bitmap original_bitmap
  | InsertBitmapContent _ _ original_bitmap => is_bitmap original_bitmap
  end.

Definition run_call (s : BitmapController) (c : call) : outcome BitmapController :=
  match c with
  | InsertNull new_csn original_bitmap ref bitmap =>
      '(s', _, _, _) ← insert_null s new_csn original_bitmap ref bitmap; Ret s'
  | InsertBitmapContent ref bitmap original_bitmap =>
      '(s', _) ← insert_bitmap_content s ref bitmap original_bitmap; Ret s'
  end.

Fixpoint run_calls (s : BitmapController) (cs : list call) : outcome BitmapController :=
  match cs with
  | [] => Ret s
  | c :: cs' => s' ← run_call s c; run_calls s' cs'
  end.

(** The states the controller reaches from its constructor by calls that
    return. *)
Inductive reachable : BitmapController -> Prop :=
| reachable_init : reachable init
| reachable_call s c s' :
    reachable s -> call_ok c = true -> run_call s c = Ret s' -> reachable s'.

(** The delta nodes of a group: the addresses met from
    [first_compressed_bitmap] along [next_bitmap]. *)
Fixpoint chain (fuel : nat) (bmps : list CompressedBitmap) (p : option nat)
  : list nat :=
  match p, fuel with
  | Some a, S fuel' =>
      match bmps !! a with
      | Some nd => a :: chain fuel' bmps (next_bitmap nd)
      | None => []
      end
  | _, _ => []
  end.

Definition group_chain (s : BitmapController) (r : BitmapRef) : list nat :=
  chain (length (bmp_heap s)) (bmp_heap s) (first_compressed_bitmap r).

(** ** Vocabulary of the statements *)

(** Strictly ascending, hence duplicate-free. *)
Fixpoint ascending (l : list Z) : bool :=
  match l with
  | x :: (y :: _) as t => (x <? y) && ascending t
  | _ => true
  end.

(** A sparse payload: the count in slot 0, then that many strictly
    ascending bit positions below [8 * BITMAP_SIZE]. *)
Definition sparse_payload (a : list Z) : bool :=
  match a with
  | [] => false
  | c :: ps =>
      (c =? Z.of_nat (length ps)) && ascending ps
      && forallb (fun p => (0 <=? p) && (p <? 8 * Z.of_nat BITMAP_SIZE)) ps
  end.

(** The set union of two ascending lists, as a list merge. *)
Fixpoint merge_set (l1 : list Z) : list Z -> list Z :=
  fix go (l2 : list Z) : list Z :=
    match l1, l2 with
    | [], _ => l2
    | _, [] => l1
    | x :: t1, y :: t2 =>
        if x <? y then x :: merge_set t1 l2
        else if x >? y then y :: go t2
        else x :: merge_set t1 t2
    end.

(** Bit position [p = 8 * byte + j] of a bitmap is the bit with mask
    [1 << (7 - j)] of that byte. *)
Definition bit_at (bm : list Z) (p : nat) : bool :=
  Z.testbit (rd bm (p / 8)) (7 - Z.of_nat (p mod 8)).

(** The bit positions at which two bitmaps differ, in ascending order;
    its length is the number of set bits of their XOR. *)
Definition diff_positions (B R : list Z) : list nat :=
  List.filter (fun p => xorb (bit_at B p) (bit_at R p)) (seq 0 (8 * BITMAP_SIZE)).

(** Word [i] of a bitmap packed in little-endian byte pairs. *)
Definition packed_word (B : list Z) (i : nat) : Z :=
  rd B (2 * i) + 256 * rd B (2 * i + 1).

(** ** Bitmaps used in the examples *)

Definition bitmap_zero : list Z := repeat 0 BITMAP_SIZE.
Definition bitmap_ff : list Z := repeat 255 BITMAP_SIZE.

(** Bit positions 10 and 20 (bytes 1 and 2). *)
Definition bitmap_bit10 : list Z := <[1%nat := 32]> bitmap_zero.
Definition bitmap_bit20 : list Z := <[2%nat := 8]> bitmap_zero.

(** Exactly 468 set bits: 58 bytes [0xFF] and one byte [0xF0]. *)
Definition bitmap_468 : list Z :=
  repeat 255 58 ++ [240] ++ repeat 0 (BITMAP_SIZE - 59).

(** ** Invariants of the reachable states *)

(** What the links of a delta node are made of; payloads change, this
    does not. *)
Definition shape (nd : CompressedBitmap) : Z * option nat :=
  (bitmap_csn nd, next_bitmap nd).

(** Links point to older allocations: a node is linked in front of nodes
    that exist already. *)
Definition bmp_ordered (bmps : list CompressedBitmap) : Prop :=
  forall a nd b, bmps !! a = Some nd -> next_bitmap nd = Some b -> (b < a)%nat.

Definition ref_ordered (refs : list BitmapRef) : Prop :=
  forall g r g', refs !! g = Some r -> next_ref r = Some g' -> (g' < g)%nat.

Record group_ok (s : BitmapController) (r : BitmapRef) : Prop := {
  gk_first : exists b, first_compressed_bitmap r = Some b
                       /\ (b < length (bmp_heap s))%nat;
  gk_cap : Z.of_nat (length (group_chain s r)) <= MAX_COMPRESS_NUM;
  gk_range : fst (csn_range r) <= snd (csn_range r);
  gk_creator : exists b0 nd0,
      last (group_chain s r) = Some b0 /\ bmp_heap s !! b0 = Some nd0
      /\ next_bitmap nd0 = None /\ bitmap_csn nd0 = fst (csn_range r)
}.

Definition head_ok (s : BitmapController) : Prop :=
  match first_ref s with
  | None => head_bitmap_cnt s = MAX_COMPRESS_NUM
  | Some g => exists r, ref_heap s !! g = Some r
                        /\ Z.of_nat (length (group_chain s r)) = head_bitmap_cnt s
  end.

Record inv (s : BitmapController) : Prop := {
  inv_bmp : bmp_ordered (bmp_heap s);
  inv_ref : ref_ordered (ref_heap s);
  inv_group : forall g r, ref_heap s !! g = Some r -> group_ok s r;
  inv_head : head_ok s
}.

(** A delta node is materialized once it has a payload. *)
Definition materialized (nd : CompressedBitmap) : bool :=
  match compressed_bitmap nd with
  | Some _ => true
  | None => false
  end.

(** The CSN [insert_bitmap_content] offers to [csn_range.second] when it
    materializes node [p]: that of [pred], the node just before [p] on the
    way from the head of the chain (the next newer one), if there is one,
    it is materialized and its CSN is not the sentinel -1; else that of
    [p] itself. *)
Definition hi_candidate (s : BitmapController) (p : CompressedBitmap)
    (pred : option nat) : Z :=
  match pred with
  | None => bitmap_csn p
  | Some d =>
      match bmp_heap s !! d with
      | Some nd =>
          if materialized nd && negb (bitmap_csn nd =? -1)
          then bitmap_csn nd else bitmap_csn p
      | None => bitmap_csn p
      end
  end.

(** The reading of the claim: the newest materialized delta older than
    [p], that is the first materialized node after [p] in the chain. *)
Definition newest_materialized_older (s : BitmapController) (back : list nat)
  : option CompressedBitmap :=
  head (omap (fun a => match bmp_heap s !! a with
                       | Some nd => if materialized nd then Some nd else None
                       | None => None
                       end) back).

Definition hi_as_claimed (s : BitmapController) (r : BitmapRef)
    (p : CompressedBitmap) (back : list nat) : Z :=
  Z.max (snd (csn_range r))
        (match newest_materialized_older s back with
         | Some nd => bitmap_csn nd
         | None => bitmap_csn p
         end).

(** ** Linear-time forms of the codec loops

    The loops of the codec index their arrays; on lists an index costs a
    walk, which makes evaluating them on 7500-byte bitmaps slow.  These
    are the same loops as traversals; they are proved equal to the loops
    above on arrays of the right length and serve to evaluate the
    examples. *)

(** A loop [for (i = i0; ...; i++)] over the elements [l[i]]. *)
Fixpoint fold_idx {A} (f : nat -> Z -> A -> A) (i : nat) (l : list Z) (acc : A) : A :=
  match l with
  | [] => acc
  | t :: l' => fold_idx f (S i) l' (f i t acc)
  end.

Fixpoint pack_fast (b : list Z) : list Z :=
  match b with
  | x :: y :: b' => wrap16 (Z.lor x (Z.shiftl y 8)) :: pack_fast b'
  | _ => []
  end.

Definition compress_fast (original_bitmap complete_bitmap : list Z)
  : list Z * bool :=
  let temp := zip_with Z.lxor original_bitmap complete_bitmap in
  let total_cnt := fold_idx (fun _ t c => count_byte t c) 0 temp 0 in
  if total_cnt >=? Z.quot (Z.of_nat BITMAP_SIZE) 16 then
    (pack_fast original_bitmap, false)
  else
    (fold_idx emit_byte 0 temp [wrap16 total_cnt], true).

Fixpoint undense_fast (r w : list Z) : list Z :=
  match r, w with
  | x :: y :: r', c :: w' =>
      wrap8 (Z.lxor x (Z.land c 255))
      :: wrap8 (Z.lxor y (Z.land (Z.shiftr c 8) 255))
      :: undense_fast r' w'
  | _, _ => r
  end.

(** ** States used in the examples *)

(** The node [insert_null] allocates when it opens a group, and the
    placeholder it allocates otherwise. *)
Definition opener_node (csn : Z) : CompressedBitmap :=
  {| bitmap_csn := csn; next_bitmap := None;
     compressed_bitmap := Some [0]; is_compressed := true |}.

Definition placeholder_node (csn : Z) (next : nat) : CompressedBitmap :=
  {| bitmap_csn := csn; next_bitmap := Some next;
     compressed_bitmap := None; is_compressed := false |}.

Definition sparse_node (csn : Z) (next : nat) (w : list Z) : CompressedBitmap :=
  {| bitmap_csn := csn; next_bitmap := Some next;
     compressed_bitmap := Some w; is_compressed := true |}.

(** The one group of the examples on the all-zero reference: opened by
    CSN 0, with [cnt] materialized nodes, range [(0, hi)] and head node
    [first]. *)
Definition group_zero (cnt hi : Z) (first : nat) : BitmapRef :=
  {| bitmap_cnt := cnt; csn_range := (0, hi); next_ref := None;
     first_compressed_bitmap := Some first; complete_bitmap := bitmap_zero |}.

(** CSNs 0..8 inserted with [insert_null] only: one group, filled to the
    cap, node [i] holding CSN [i]. *)
Definition calls_full_group : list call :=
  map (fun c => InsertNull (Z.of_nat c) bitmap_zero None None) (seq 0 9).

Definition st_full_group : BitmapController :=
  {| ref_heap := [group_zero 1 0 8];
     bmp_heap := opener_node 0
                 :: map (fun i => placeholder_node (Z.of_nat i) (i - 1)) (seq 1 8);
     first_ref := Some 0%nat;
     head_bitmap_cnt := 9 |}.

(** CSN 0 opens the group; placeholders for CSNs 1 and 2 are pending. *)
Definition calls_two_pending : list call :=
  [InsertNull 0 bitmap_zero None None;
   InsertNull 1 bitmap_bit10 None None;
   InsertNull 2 bitmap_bit20 None None].

Definition st_two_pending : BitmapController :=
  {| ref_heap := [group_zero 1 0 2];
     bmp_heap := [ opener_node 0; placeholder_node 1 0; placeholder_node 2 1 ];
     first_ref := Some 0%nat;
     head_bitmap_cnt := 3 |}.

(** Then the content of CSN 2 arrives, before that of CSN 1. *)
Definition call_content_2 : call :=
  InsertBitmapContent (Some 0%nat) (Some 2%nat) bitmap_bit20.

Definition st_newer_first : BitmapController :=
  {| ref_heap := [group_zero 2 2 2];
     bmp_heap := [ opener_node 0; placeholder_node 1 0; sparse_node 2 1 [1; 20] ];
     first_ref := Some 0%nat;
     head_bitmap_cnt := 3 |}.

(** Then the content of CSN 1. *)
Definition call_content_1 : call :=
  InsertBitmapContent (Some 0%nat) (Some 1%nat) bitmap_bit10.

Definition st_both : BitmapController :=
  {| ref_heap := [group_zero 3 2 2];
     bmp_heap := [ opener_node 0; sparse_node 1 0 [1; 10];
                   sparse_node 2 1 [2; 10; 20] ];
     first_ref := Some 0%nat;
     head_bitmap_cnt := 3 |}.

(** A group on the all-ones reference with a placeholder for CSN 1, then
    the content of CSN 1, the all-zero bitmap: all 60000 bits differ, the
    encoding is dense. *)
Definition group_ff (cnt hi : Z) (first : nat) : BitmapRef :=
  {| bitmap_cnt := cnt; csn_range := (0, hi); next_ref := None;
     first_compressed_bitmap := Some first; complete_bitmap := bitmap_ff |}.

Definition calls_dense_pending : list call :=
  [InsertNull 0 bitmap_ff None None;
   InsertNull 1 bitmap_zero None None].

Definition st_dense_pending : BitmapController :=
  {| ref_heap := [group_ff 1 0 1];
     bmp_heap := [ opener_node 0; placeholder_node 1 0 ];
     first_ref := Some 0%nat;
     head_bitmap_cnt := 2 |}.

Definition call_dense_content : call :=
  InsertBitmapContent (Some 0%nat) (Some 1%nat) bitmap_zero.

Definition dense_node (csn : Z) (next : nat) (w : list Z) : CompressedBitmap :=
  {| bitmap_csn := csn; next_bitmap := Some next;
     compressed_bitmap := Some w; is_compressed := false |}.

Definition st_dense : BitmapController :=
  {| ref_heap := [group_ff 2 1 1];
     bmp_heap := [ opener_node 0; dense_node 1 0 (repeat 0 (BITMAP_SIZE / 2)) ];
     first_ref := Some 0%nat;
     head_bitmap_cnt := 2 |}.

(** ** The insert workers of the benchmark driver *)

(** [struct InputBitmap] of [main.cpp]: a CSN and the bitmap of that
    version. *)
Module InputBitmap.
Record t := mk { bitmap_csn : Z; input_bitmap : list Z }.
End InputBitmap.

(** The body of the insert worker of [main] has two parts.  The first runs
    under [csn_lock]: it takes the version at [pos], calls [insert_null]
    with [ref] and [bitmap] initialised to [nullptr], and advances [pos].
    The second runs after the unlock: if [ref] is not null it calls
    [insert_bitmap_content] with the handles and the bitmap of the
    version.  Workers interleave between the two parts. *)
Definition worker_reserve (s : BitmapController) (v : InputBitmap.t)
  : outcome (BitmapController * option nat * option nat) :=
  '(s', ref, bitmap, _) ←
    insert_null s (InputBitmap.bitmap_csn v) (InputBitmap.input_bitmap v) None None;
  Ret (s', ref, bitmap).

Definition worker_fill (s : BitmapController) (ref bitmap : option nat)
    (v : InputBitmap.t) : outcome BitmapController :=
  match ref with
  | Some _ =>
      '(s', _) ← insert_bitmap_content s ref bitmap (InputBitmap.input_bitmap v);
      Ret s'
  | None => Ret s
  end.

(** A worker between its two parts: its [local_pos] and the handles
    [insert_null] gave it. *)
Record worker := mkWorker {
  local_pos : nat;
  w_ref : option nat;
  w_bitmap : option nat
}.

(** The states of the controller, the position [pos] and the workers
    between their two parts, under any interleaving of the workers.
    [versions] is [bitmap_list] in the order of [pos], oldest first. *)
Inductive driver (versions : list InputBitmap.t)
  : BitmapController -> nat -> list worker -> Prop :=
| driver_start : driver versions init 0 []
| driver_reserve s pos ws v s' ref bitmap :
    driver versions s pos ws ->
    versions !! pos = Some v ->
    worker_reserve s v = Ret (s', ref, bitmap) ->
    driver versions s' (S pos)
           (ws ++ [{| local_pos := pos; w_ref := ref; w_bitmap := bitmap |}])
| driver_fill s pos ws1 w ws2 v s' :
    driver versions s pos (ws1 ++ w :: ws2) ->
    versions !! local_pos w = Some v ->
    worker_fill s (w_ref w) (w_bitmap w) v = Ret s' ->
    driver versions s' pos (ws1 ++ ws2).

(** One worker alone, as with a single insert thread: both parts of each
    version in turn. *)
Definition insert_one (s : BitmapController) (v : InputBitmap.t)
  : outcome BitmapController :=
  '(s1, ref, bitmap) ← worker_reserve s v;
  worker_fill s1 ref bitmap v.

Fixpoint insert_all (s : BitmapController) (versions : list InputBitmap.t)
  : outcome BitmapController :=
  match versions with
  | [] => Ret s
  | v :: versions' => s' ← insert_one s v; insert_all s' versions'
  end.

(** Every bit set in [a] is set in [b]. *)
Definition bits_subset (a b : list Z) : Prop :=
  forall p, bit_at a p = true -> bit_at b p = true.

(** The workloads of the benchmark: CSNs that are [int]s and increase
    along the versions, bitmaps of [BITMAP_SIZE] bytes, any two of which
    differ in fewer bits than the dense threshold. *)
Record workload_ok (versions : list InputBitmap.t) : Prop := {
  wl_int : forall v, v ∈ versions -> is_int (InputBitmap.bitmap_csn v) = true;
  wl_bitmap : forall v, v ∈ versions -> is_bitmap (InputBitmap.input_bitmap v) = true;
  wl_csn : forall i i' v v',
      (i < i')%nat -> versions !! i = Some v -> versions !! i' = Some v' ->
      InputBitmap.bitmap_csn v < InputBitmap.bitmap_csn v';
  wl_sparse : forall v v',
      v ∈ versions -> v' ∈ versions ->
      Z.of_nat (length (diff_positions (InputBitmap.input_bitmap v)
                                       (InputBitmap.input_bitmap v'))) < 468
}.

(** Each version keeps the bits of the versions before it (they are made
    by setting bits in a copy of the previous one). *)
Definition workload_grows (versions : list InputBitmap.t) : Prop :=
  forall i i' v v',
    (i <= i')%nat -> versions !! i = Some v -> versions !! i' = Some v' ->
    bits_subset (InputBitmap.input_bitmap v) (InputBitmap.input_bitmap v').

(** ** The heaps under the insert workers

    Every [insert_null] allocates one delta node, so the node at address
    [i] belongs to the version at position [i]; nine nodes make a group,
    so the group at address [j] holds the nodes [9 * j .. 9 * j + 8] and
    its reference is the bitmap of version [9 * j]. *)

Definition ver_csn (versions : list InputBitmap.t) (i : nat) : Z :=
  match versions !! i with
  | Some v => InputBitmap.bitmap_csn v
  | None => 0
  end.

Definition ver_img (versions : list InputBitmap.t) (i : nat) : list Z :=
  match versions !! i with
  | Some v => InputBitmap.input_bitmap v
  | None => []
  end.

(** Node [i] waits for its payload: a worker holds it and it does not open
    a group. *)
Definition pending (pend : list nat) (i : nat) : bool :=
  bool_decide (i ∈ pend) && negb (i mod 9 =? 0)%nat.

Definition expected_node (versions : list InputBitmap.t) (pend : list nat)
    (i : nat) : CompressedBitmap :=
  {| bitmap_csn := ver_csn versions i;
     next_bitmap := if (i mod 9 =? 0)%nat then None else Some (i - 1)%nat;
     compressed_bitmap :=
       if pending pend i then None
       else Some (fst (compress_bitmap (ver_img versions i)
                                       (ver_img versions (9 * (i / 9)))));
     is_compressed := negb (pending pend i) |}.

Definition expected_ref (versions : list InputBitmap.t) (n : nat)
    (cnt hi : nat -> Z) (j : nat) : BitmapRef :=
  {| bitmap_cnt := cnt j;
     csn_range := (ver_csn versions (9 * j), hi j);
     next_ref := if (j =? 0)%nat then None else Some (j - 1)%nat;
     first_compressed_bitmap := Some (Nat.min (9 * j + 8) (n - 1));
     complete_bitmap := ver_img versions (9 * j) |}.

Definition expected_worker (i : nat) : worker :=
  {| local_pos := i;
     w_ref := if (i mod 9 =? 0)%nat then None else Some (i / 9)%nat;
     w_bitmap := if (i mod 9 =? 0)%nat then None else Some i |}.

(** The state after [n] versions were reserved, the workers of the
    positions [pend] being between their two parts. *)
Record layout (versions : list InputBitmap.t) (s : BitmapController) (n : nat)
    (pend : list nat) : Prop := {
  lay_n : (n <= length versions)%nat;
  lay_pend : NoDup pend /\ forall i, i ∈ pend -> (i < n)%nat;
  lay_bmps : bmp_heap s = map (expected_node versions pend) (seq 0 n);
  lay_refs : exists cnt hi,
      ref_heap s = map (expected_ref versions n cnt hi) (seq 0 ((n + 8) / 9))
      /\ forall i, (i < n)%nat -> pending pend i = false ->
                   ver_csn versions i <= hi (i / 9)%nat;
  lay_first : first_ref s = if (n =? 0)%nat then None else Some ((n - 1) / 9)%nat;
  lay_cnt : head_bitmap_cnt s
            = if (n =? 0)%nat then 9 else Z.of_nat ((n - 1) mod 9) + 1
}.

(** ** A workload that grows, and the states its workers reach *)

(** Bits 10 and 20. *)
Definition bitmap_bits_10_20 : list Z := <[1%nat := 32]> bitmap_bit20.

(** Three versions, each made by setting one bit in a copy of the one
    before it, as the benchmark makes them. *)
Definition versions_grow : list InputBitmap.t :=
  [ InputBitmap.mk 0 bitmap_zero;
    InputBitmap.mk 1 bitmap_bit10;
    InputBitmap.mk 2 bitmap_bits_10_20 ].

(** Version 0 inserted. *)
Definition st_one : BitmapController :=
  {| ref_heap := [group_zero 1 0 0];
     bmp_heap := [ opener_node 0 ];
     first_ref := Some 0%nat;
     head_bitmap_cnt := 1 |}.

(** Then the placeholder of version 1. *)
Definition st_one_pending : BitmapController :=
  {| ref_heap := [group_zero 1 0 1];
     bmp_heap := [ opener_node 0; placeholder_node 1 0 ];
     first_ref := Some 0%nat;
     head_bitmap_cnt := 2 |}.

(** With the placeholders of versions 1 and 2 pending (the state
    [st_two_pending]), the content of version 2 arrives first. *)
Definition st_grow_newer : BitmapController :=
  {| ref_heap := [group_zero 2 2 2];
     bmp_heap := [ opener_node 0; placeholder_node 1 0;
                   sparse_node 2 1 [2; 10; 20] ];
     first_ref := Some 0%nat;
     head_bitmap_cnt := 3 |}.

(** A third placeholder in front of [st_two_pending]. *)
Definition st_three_pending : BitmapController :=
  {| ref_heap := [group_zero 1 0 3];
     bmp_heap := [ opener_node 0; placeholder_node 1 0; placeholder_node 2 1;
                   placeholder_node 3 2 ];
     first_ref := Some 0%nat;
     head_bitmap_cnt := 4 |}.

(** ** The version generator of the benchmark (main.cpp) *)

(** [bitset_vector]: the masks of the eight bits of a byte. *)
Definition bitset_vector : list Z := [1; 2; 4; 8; 16; 32; 64; 128].

Definition max_insert : nat := 20.
Definition haimin_distence : nat := 1.

(** The random draws of [RandomSet]: draw [k] is the pair
    [(bitmap_dist(gen), bitset_dist(gen))] of one pass of the inner
    loop. *)
Definition generator : Type := nat -> nat * nat.

(** [bitmap_dist] draws in [0, BITMAP_SIZE - 1], [bitset_dist] in
    [0, 7]. *)
Definition draws_in_range (gen : generator) : Prop :=
  forall k, (fst (gen k) < BITMAP_SIZE)%nat /\ (snd (gen k) < 8)%nat.

(** The inner loop of [RandomSet], [max_tryTimes] passes at most: the
    bitmap after the first pass that sets a bit that was clear, and the
    draws used; [None] when no pass did ([set_success] stays false). *)
Fixpoint RandomSet_try (gen : generator) (tries : nat) (k : nat) (bitmap : list Z)
  : option (list Z * nat) :=
  match tries with
  | O => None
  | S tries' =>
      let '(bitmap_pos, bitset_pos) := gen k in
      let result := wrap8 (Z.lor (rd bitmap bitmap_pos) (rd bitset_vector bitset_pos)) in
      if negb (result =? rd bitmap bitmap_pos)
      then Some (<[bitmap_pos := result]> bitmap, S k)
      else RandomSet_try gen tries' (S k) bitmap
  end.

(** [RandomSet(bitmap, num)] from draw [k] on: the bitmap afterwards and
    the next draw; [None] when it throws [std::runtime_error]. *)
Fixpoint RandomSet (gen : generator) (num : nat) (k : nat) (bitmap : list Z)
  : option (list Z * nat) :=
  match num with
  | O => Some (bitmap, k)
  | S num' =>
      match RandomSet_try gen 200 k bitmap with
      | Some (bitmap', k') => RandomSet gen num' k' bitmap'
      | None => None
      end
  end.

(** ** The baseline controller (OriginalHexaDBController.h)

    One chain of full bitmaps, newest first.  [main.cpp] is compiled
    against this class instead when [Original_HexaDB] is defined. *)

Module OriginalHexaDB.

(** [struct OneBitmap]; its constructor zeroes [bitmap_content]. *)
Record OneBitmap := mkOneBitmap {
  next_bitmap : option nat;
  bitmap_csn : Z;
  bitmap_content : list Z
}.

(** [class BitmapController]: the heap of [OneBitmap] nodes and
    [first_bitmap] ([delete_bitmap] is private and [worker] never started,
    so no node is freed). *)
Record BitmapController := mkBitmapController {
  heap : list OneBitmap;
  first_bitmap : option nat
}.

Definition init : BitmapController := {| heap := []; first_bitmap := None |}.

(** [insert_null(new_csn, bitmap)]: the new state and [bitmap] afterwards;
    it always returns [true]. *)
Definition insert_null (s : BitmapController) (new_csn : Z)
  : BitmapController * option nat :=
  let new_bitmap := length (heap s) in
  ({| heap := heap s ++ [{| next_bitmap := first_bitmap s;
                            bitmap_csn := new_csn;
                            bitmap_content := repeat 0 BITMAP_SIZE |}];
      first_bitmap := Some new_bitmap |},
   Some new_bitmap).

(** [insert_bitmap_content(new_content, bitmap)]: [memcpy] of
    [BITMAP_SIZE] bytes into the node; it always returns [true]. *)
Definition insert_bitmap_content (s : BitmapController) (new_content : list Z)
    (bitmap : option nat) : outcome BitmapController :=
  nd ← deref (heap s) bitmap;
  match bitmap with
  | Some b =>
      if (BITMAP_SIZE <=? length new_content)%nat then
        Ret {| heap := <[b := {| next_bitmap := next_bitmap nd;
                                 bitmap_csn := bitmap_csn nd;
                                 bitmap_content :=
                                   memcpy (bitmap_content nd) new_content BITMAP_SIZE |}]>
                         (heap s);
               first_bitmap := first_bitmap s |}
      else Fault OutOfBounds
  | None => Fault NullDeref
  end.

(** The loop of [get_bitmap]: the first node of the chain whose CSN is
    not greater than [require_csn], or [nullptr]. *)
Fixpoint find_visible (fuel : nat) (h : list OneBitmap) (tempp : option nat)
    (require_csn : Z) : outcome (option nat) :=
  match tempp with
  | None => Ret None
  | Some b =>
      match h !! b with
      | None => Fault BadPointer
      | Some nd =>
          match fuel with
          | O => Timeout
          | S fuel' =>
              if bitmap_csn nd <=? require_csn then Ret (Some b)
              else find_visible fuel' h (next_bitmap nd) require_csn
          end
      end
  end.

(** [get_bitmap(require_csn, require_content)]: the returned [bool] and
    the contents of [require_content] afterwards. *)
Definition get_bitmap (s : BitmapController) (require_csn : Z)
    (require_content : list Z) : outcome (bool * list Z) :=
  tempp ← find_visible (length (heap s)) (heap s) (first_bitmap s) require_csn;
  match tempp with
  | Some b =>
      nd ← deref (heap s) (Some b);
      if (BITMAP_SIZE <=? length require_content)%nat
      then Ret (true, memcpy require_content (bitmap_content nd) BITMAP_SIZE)
      else Fault OutOfBounds
  | None => Ret (false, require_content)
  end.

(** The insert worker of [main] for this controller: [insert_null] and
    [pos++] under [csn_lock], [insert_bitmap_content] after the unlock.
    A worker between the two holds its [local_pos] and [bitmap]. *)
Record worker := mkWorker {
  local_pos : nat;
  w_bitmap : option nat
}.

(** The states under any interleaving of the workers; [versions] is
    [bitmap_list] in the order of [pos], oldest first. *)
Inductive driver (versions : list InputBitmap.t)
  : BitmapController -> nat -> list worker -> Prop :=
| driver_start : driver versions init 0 []
| driver_reserve s pos ws v :
    driver versions s pos ws ->
    versions !! pos = Some v ->
    driver versions (fst (insert_null s (InputBitmap.bitmap_csn v))) (S pos)
           (ws ++ [{| local_pos := pos;
                      w_bitmap := snd (insert_null s (InputBitmap.bitmap_csn v)) |}])
| driver_fill s pos ws1 w ws2 v s' :
    driver versions s pos (ws1 ++ w :: ws2) ->
    versions !! local_pos w = Some v ->
    insert_bitmap_content s (InputBitmap.input_bitmap v) (w_bitmap w) = Ret s' ->
    driver versions s' pos (ws1 ++ ws2).

(** One worker alone: both parts of each version in turn. *)
Definition insert_one (s : BitmapController) (v : InputBitmap.t)
  : outcome BitmapController :=
  let '(s', bitmap) := insert_null s (InputBitmap.bitmap_csn v) in
  insert_bitmap_content s' (InputBitmap.input_bitmap v) bitmap.

(** The heap after [n] versions were reserved, the workers of the
    positions [pend] being between their two parts: node [i] belongs to
    version [i] and points to node [i - 1]. *)
Definition expected_node (versions : list InputBitmap.t) (pend : list nat)
    (i : nat) : OneBitmap :=
  {| next_bitmap := if (i =? 0)%nat then None else Some (i - 1)%nat;
     bitmap_csn := ver_csn versions i;
     bitmap_content := if bool_decide (i ∈ pend) then repeat 0 BITMAP_SIZE
                       else ver_img versions i |}.

Record layout (versions : list InputBitmap.t) (s : BitmapController) (n : nat)
    (pend : list nat) : Prop := {
  lay_n : (n <= length versions)%nat;
  lay_pend : NoDup pend /\ forall i, i ∈ pend -> (i < n)%nat;
  lay_heap : heap s = map (expected_node versions pend) (seq 0 n);
  lay_first : first_bitmap s = if (n =? 0)%nat then None else Some (n - 1)%nat
}.

End OriginalHexaDB.

(** ** The benchmark run with one insert and one query thread (main.cpp)

    With [numThreads == 1] [ParallelForStable] calls [fn(i, 0)] for each
    row in turn, so the whole of [main] is sequential; this is the run
    [./main 1 1] of the test script. *)

(** How a part of [main] ends: it returns, an exception leaves it (the
    [runtime_error] of [RandomSet], which [main] does not catch, or the
    [throw;] of [Test_bitmap_controller]), or a call into the controller
    ends in a [Fault] or a [Timeout]. *)
Inductive ending (A : Type) : Type :=
| Returns (a : A)
| Throws
| Faults (f : fault)
| TimesOut.
Arguments Returns {A} a.
Arguments Throws {A}.
Arguments Faults {A} f.
Arguments TimesOut {A}.

#[export] Instance ending_ret : MRet ending := fun _ a => Returns a.
#[export] Instance ending_bind : MBind ending := fun _ _ k m =>
  match m with
  | Returns a => k a
  | Throws => Throws
  | Faults f => Faults f
  | TimesOut => TimesOut
  end.

(** A call into the controller inside [main]. *)
Definition lift {A} (o : outcome A) : ending A :=
  match o with
  | Ret a => Returns a
  | Fault f => Faults f
  | Timeout => TimesOut
  end.

(** [class Curr_TSN_List]: [max_size] and [delete_size] (without
    [Rubbish_Delete]). *)
Definition max_size : nat := max_insert + 100.
Definition delete_size : nat := 10.

(** The erase loop of [insert_new_tsn]: [delete_size] times
    [tsn_list.erase(tsn_list.begin() + erase_pos)] with [erase_pos] drawn
    in [0, max_size - 1]; erasing at or past the end is undefined. *)
Fixpoint erase_random (tsn_draw : nat -> nat) (j : nat) (k : nat) (tsn_list : list Z)
  : outcome (list Z * nat) :=
  match j with
  | O => Ret (tsn_list, k)
  | S j' =>
      let erase_pos := tsn_draw k in
      if (erase_pos <? length tsn_list)%nat
      then erase_random tsn_draw j' (S k) (delete erase_pos tsn_list)
      else Fault OutOfBounds
  end.

(** [Curr_TSN_List::insert_new_tsn(new_tsn)]: the list afterwards and the
    next draw. *)
Definition insert_new_tsn (tsn_draw : nat -> nat) (k : nat) (tsn_list : list Z)
    (new_tsn : Z) : outcome (list Z * nat) :=
  '(l, k') ← (if (max_size <=? length tsn_list)%nat
              then erase_random tsn_draw delete_size k tsn_list
              else Ret (tsn_list, k));
  Ret (new_tsn :: l, k').

(** The variables of [main] in its first loop; [bitmap_list] has the
    newest version in front. *)
Record main_vars := mkVars {
  bitmap_list : list InputBitmap.t;
  tsn_list : list Z;
  now_csn : Z;
  first_flag : bool;
  gen_next : nat;
  tsn_next : nat
}.

(** One pass of the first loop of [main]: a version with the next CSN,
    all zero the first time, afterwards a copy of the newest version with
    [haimin_distence] more bits set; it goes in front of [bitmap_list]
    and its CSN into [tsn_list]. *)
Definition main_make_version (gen : generator) (tsn_draw : nat -> nat)
    (m : main_vars) : ending main_vars :=
  let csn := now_csn m in
  '(input_bitmap, k) ←
    (if first_flag m then Returns (bitmap_zero, gen_next m)
     else
       match bitmap_list m with
       | front :: _ =>
           match RandomSet gen haimin_distence (gen_next m)
                   (memcpy bitmap_zero (InputBitmap.input_bitmap front) BITMAP_SIZE)
           with
           | Some r => Returns r
           | None => Throws
           end
       | [] => Faults NullDeref
       end);
  '(tsn_list', kt) ← lift (insert_new_tsn tsn_draw (tsn_next m) (tsn_list m) csn);
  Returns {| bitmap_list := InputBitmap.mk csn input_bitmap :: bitmap_list m;
             tsn_list := tsn_list';
             now_csn := wrap_int (csn + 1);
             first_flag := false;
             gen_next := k;
             tsn_next := kt |}.

Fixpoint main_prepare (gen : generator) (tsn_draw : nat -> nat) (passes : nat)
    (m : main_vars) : ending main_vars :=
  match passes with
  | O => Returns m
  | S passes' =>
      m' ← main_make_version gen tsn_draw m;
      main_prepare gen tsn_draw passes' m'
  end.

(** [pos] walks [bitmap_list] from [rbegin()]: position [pos] counts from
    the oldest version. *)
Definition at_pos (bitmap_list : list InputBitmap.t) (pos : nat)
  : option InputBitmap.t :=
  reverse bitmap_list !! pos.

(** The rows of an insert loop run by one thread; [insert_one] is the
    body of the worker for the controller in use. *)
Fixpoint insert_rows {C : Type} (insert_one : C -> InputBitmap.t -> outcome C)
    (bitmap_list : list InputBitmap.t) (rows : nat) (pos : nat) (s : C)
  : outcome C :=
  match rows with
  | O => Ret s
  | S rows' =>
      match at_pos bitmap_list pos with
      | Some v => s' ← insert_one s v;
                  insert_rows insert_one bitmap_list rows' (S pos) s'
      | None => Fault BadPointer
      end
  end.

(** The first version is inserted by [main] itself, the other
    [max_insert - 1] by the insert loop. *)
Definition main_insert (bitmap_list : list InputBitmap.t) : outcome BitmapController :=
  match at_pos bitmap_list 0 with
  | Some v => s ← insert_one init v;
              insert_rows insert_one bitmap_list (max_insert - 1) 1 s
  | None => Fault BadPointer
  end.


(** The query loop of [Test_bitmap_controller]: one zeroed buffer per
    TSN; the value [get_bitmap] returns is not looked at.  [get_bitmap]
    is the one of the controller in use. *)
Fixpoint query_rows {C : Type} (get_bitmap : C -> Z -> list Z -> outcome (bool * list Z))
    (s : C) (curr_tsn : list Z) : outcome (list (list Z)) :=
  match curr_tsn with
  | [] => Ret []
  | tsn :: curr_tsn' =>
      '(_, query_result) ← get_bitmap s tsn (repeat 0 BITMAP_SIZE);
      rest ← query_rows get_bitmap s curr_tsn';
      Ret (query_result :: rest)
  end.

(** What the check loop of [Test_bitmap_controller] writes for a row. *)
Inductive verdict := ReadOver | ReadError.

(** [memcmp(a, b, n) != 0] *)
Definition memcmp_differs (a b : list Z) (n : nat) : bool :=
  negb (bool_decide (take n a = take n b)).

(** The check loop: [find] looks the version up by its CSN
    ([InputBitmap::operator==]); a TSN without version ends in [throw]. *)
Fixpoint check_rows (bitmap_list : list InputBitmap.t) (curr_tsn : list Z)
    (query_result : list (list Z)) : ending (list verdict) :=
  match curr_tsn, query_result with
  | tsn :: curr_tsn', row :: query_result' =>
      match List.find (fun b => InputBitmap.bitmap_csn b =? tsn) bitmap_list with
      | None => Throws
      | Some true_bitmap =>
          let v := if memcmp_differs row (InputBitmap.input_bitmap true_bitmap)
                                     BITMAP_SIZE
                   then ReadError else ReadOver in
          rest ← check_rows bitmap_list curr_tsn' query_result';
          Returns (v :: rest)
      end
  | _, _ => Returns []
  end.

Definition Test_bitmap_controller {C : Type}
    (get_bitmap : C -> Z -> list Z -> outcome (bool * list Z))
    (bitmap_list : list InputBitmap.t) (tsn_list : list Z) (s : C)
  : ending (list verdict) :=
  query_result ← lift (query_rows get_bitmap s tsn_list);
  check_rows bitmap_list tsn_list query_result.

(** [main] with one insert thread and one query thread: the verdicts of
    the check loop. *)
Definition main_single (gen : generator) (tsn_draw : nat -> nat)
  : ending (list verdict) :=
  m ← main_prepare gen tsn_draw max_insert
        {| bitmap_list := []; tsn_list := []; now_csn := 0; first_flag := true;
           gen_next := 0; tsn_next := 0 |};
  s ← lift (main_insert (bitmap_list m));
  Test_bitmap_controller get_bitmap (bitmap_list m) (tsn_list m) s.


(** The variables of [main] after [n] passes of its first loop: version
    [i] from the back of [bitmap_list] has CSN [i]; version [j] keeps the
    bits of every older version [i] and has [j - i] bits more. *)
Record prepared (n : nat) (m : main_vars) : Prop := {
  prep_len : length (bitmap_list m) = n;
  prep_csn : forall i v, at_pos (bitmap_list m) i = Some v ->
                         InputBitmap.bitmap_csn v = Z.of_nat i;
  prep_tsn : tsn_list m = map InputBitmap.bitmap_csn (bitmap_list m);
  prep_now : now_csn m = Z.of_nat n;
  prep_flag : first_flag m = (n =? 0)%nat;
  prep_img : forall i v, at_pos (bitmap_list m) i = Some v ->
                         is_bitmap (InputBitmap.input_bitmap v) = true;
  prep_grow : forall i j vi vj,
      (i <= j)%nat ->
      at_pos (bitmap_list m) i = Some vi -> at_pos (bitmap_list m) j = Some vj ->
      bits_subset (InputBitmap.input_bitmap vi) (InputBitmap.input_bitmap vj)
      /\ length (diff_positions (InputBitmap.input_bitmap vj)
                                (InputBitmap.input_bitmap vi)) = (j - i)%nat
}.

(** ** Examples for the version generator and the baseline *)

(** Draws that walk along the bytes: draw [k] names the lowest bit of
    byte [k] (of byte 100 from draw 100 on). *)
Definition gen_walk : generator := fun k => (Nat.min k 100, 0%nat).

(** The baseline chain for [versions_grow] with versions 0 and 1 copied
    and the placeholder of version 2. *)
Definition original_st_pending : OriginalHexaDB.BitmapController :=
  {| OriginalHexaDB.heap :=
       [ OriginalHexaDB.mkOneBitmap None 0 bitmap_zero;
         OriginalHexaDB.mkOneBitmap (Some 0%nat) 1 bitmap_bit10;
         OriginalHexaDB.mkOneBitmap (Some 1%nat) 2 bitmap_zero ];
     OriginalHexaDB.first_bitmap := Some 2%nat |}.

(** * Properties *)

(** ** The outcome monad *)

Lemma bind_Ret {A B} (m : outcome A) (k : A -> outcome B) (b : B) :
  mbind k m = Ret b -> exists a, m = Ret a /\ k a = Ret b.
Proof. destruct m; simpl; intros H; try discriminate. eauto. Qed.

Ltac inv_bind H :=
  let a := fresh "a" in
  let Ha := fresh "Ha" in
  apply bind_Ret in H; destruct H as (a & Ha & H).

(** ** get_bitmap leaves the buffer alone unless it returns true *)

Lemma scan_bitmaps_false fuel bmps p csn out cb out' :
  scan_bitmaps fuel bmps p csn out cb = Ret (false, out') -> out' = out.
Proof.
  revert p. induction fuel as [|fuel IH]; intros p H.
  - destruct p as [b|]; simpl in H; [|congruence].
    destruct (bmps !! b); discriminate.
  - destruct p as [b|]; simpl in H; [|congruence].
    destruct (bmps !! b) as [nd|]; [|discriminate].
    destruct (csn =? bitmap_csn nd).
    + inv_bind H. discriminate.
    + eauto.
Qed.

(** C10: whenever [get_bitmap] returns false, the caller's buffer is what
    it was before the call; bytes are written only on the path that
    returns true. *)
Theorem C10_false_leaves_out (s : BitmapController) (require_csn : Z)
    (bitmap_result out' : list Z) :
  get_bitmap s require_csn bitmap_result = Ret (false, out') ->
  out' = bitmap_result.
Proof.
  unfold get_bitmap. intros H. inv_bind H.
  destruct a as [|[g|]]; try congruence.
  inv_bind H. eauto using scan_bitmaps_false.
Qed.

(** ** Sorted-array union *)

Lemma ascending_Sorted l : ascending l = true <-> Sorted Z.lt l.
Proof.
  induction l as [|x [|y t] IH]; simpl.
  - split; auto.
  - split; auto.
  - rewrite andb_true_iff, Z.ltb_lt. split.
    + intros [Hxy Ht]. constructor; [tauto | constructor; done].
    + intros H. inversion H as [|? ? Hs Hh]; subst.
      inversion Hh; subst. tauto.
Qed.

Lemma merge_set_nil_r l : merge_set l [] = l.
Proof. by destruct l. Qed.

Lemma merge_set_nil_l l : merge_set [] l = l.
Proof. by destruct l. Qed.

Lemma merge_set_cons x t1 y t2 :
  merge_set (x :: t1) (y :: t2) =
    if x <? y then x :: merge_set t1 (y :: t2)
    else if x >? y then y :: merge_set (x :: t1) t2
    else x :: merge_set t1 t2.
Proof. reflexivity. Qed.

Lemma merge_set_elem l1 l2 x : x ∈ merge_set l1 l2 <-> x ∈ l1 \/ x ∈ l2.
Proof.
  revert l2. induction l1 as [|a t1 IH1]; intros l2.
  - rewrite merge_set_nil_l, elem_of_nil. tauto.
  - induction l2 as [|b t2 IH2].
    + rewrite merge_set_nil_r, elem_of_nil. tauto.
    + rewrite merge_set_cons.
      destruct (a <? b) eqn:E1; [|destruct (a >? b) eqn:E2].
      * rewrite !elem_of_cons, IH1, ?elem_of_cons. tauto.
      * rewrite !elem_of_cons, IH2, ?elem_of_cons. tauto.
      * assert (a = b) by lia. subst b.
        rewrite !elem_of_cons, IH1, ?elem_of_cons. tauto.
Qed.

Lemma merge_set_HdRel z l1 l2 :
  HdRel Z.lt z l1 -> HdRel Z.lt z l2 -> HdRel Z.lt z (merge_set l1 l2).
Proof.
  intros H1 H2. destruct l1 as [|a t1]; [by destruct l2|].
  destruct l2 as [|b t2]; [done|].
  rewrite merge_set_cons. inversion H1; inversion H2; subst.
  destruct (a <? b); [|destruct (a >? b)]; by constructor.
Qed.

Lemma merge_set_Sorted l1 l2 :
  Sorted Z.lt l1 -> Sorted Z.lt l2 -> Sorted Z.lt (merge_set l1 l2).
Proof.
  revert l2. induction l1 as [|a t1 IH1]; intros l2 H1 H2.
  - by destruct l2.
  - induction l2 as [|b t2 IH2]; [by rewrite merge_set_nil_r|].
    rewrite merge_set_cons.
    inversion H1 as [|? ? Hs1 Hh1]; inversion H2 as [|? ? Hs2 Hh2]; subst.
    destruct (a <? b) eqn:E1; [|destruct (a >? b) eqn:E2].
    + constructor; [by apply IH1|].
      apply merge_set_HdRel; [done|]. constructor. lia.
    + constructor; [by apply IH2|].
      apply merge_set_HdRel; [|done]. constructor. lia.
    + assert (a = b) by lia. subst b.
      constructor; [by apply IH1|]. by apply merge_set_HdRel.
Qed.

(** A strictly ascending list inside [[lo, hi)] has at most [hi - lo]
    elements. *)
Lemma Sorted_bounded_length l lo hi :
  Sorted Z.lt l -> Forall (fun p => lo <= p < hi) l ->
  Z.of_nat (length l) <= Z.max 0 (hi - lo).
Proof.
  intros Hs. apply Sorted_StronglySorted in Hs; [|intros a b c; lia].
  revert lo. induction Hs as [|x t Hs IH Hx]; intros lo Hb; simpl length; [lia|].
  inversion Hb as [|? ? Hlo Hb']; subst.
  assert (Forall (fun p => x + 1 <= p < hi) t) as Ht.
  { rewrite Forall_forall in *. intros p Hp.
    specialize (Hx p Hp). specialize (Hb' p Hp). lia. }
  specialize (IH (x + 1) Ht). lia.
Qed.

Lemma rd_cons c l i : rd (c :: l) (S i) = nth i l 0.
Proof. reflexivity. Qed.

Lemma rd_head c l : rd (c :: l) 0 = c.
Proof. reflexivity. Qed.

Lemma drop_nth_cons (l : list Z) i :
  (i < length l)%nat -> drop i l = nth i l 0 :: drop (S i) l.
Proof.
  revert i. induction l as [|x t IH]; intros i Hi; simpl in *; [lia|].
  destruct i; [done|]. apply IH. lia.
Qed.

Lemma map_nth_seq_drop (l : list Z) i :
  map (fun k => nth k l 0) (seq i (length l - i)) = drop i l.
Proof.
  remember (length l - i)%nat as n eqn:Hn. revert i Hn.
  induction n as [|n IH]; intros i Hn; simpl.
  - symmetry. apply drop_ge. lia.
  - rewrite (drop_nth_cons l i) by lia. f_equal. apply IH. lia.
Qed.

(** With fuel for every remaining element, the first loop stops at its
    exit test, and what the three loops write is the merge of what was
    left to read. *)
Lemma union_loop_spec ca cb A B fuel i j temp :
  (i <= length A)%nat -> (j <= length B)%nat ->
  (length A - i + (length B - j) <= fuel)%nat ->
  match union_loop fuel (ca :: A) (cb :: B) (length A) (length B) i j temp with
  | (i', j', t') =>
      t' ++ drop i' A ++ drop j' B = temp ++ merge_set (drop i A) (drop j B)
  end.
Proof.
  revert i j temp. induction fuel as [|fuel IH]; intros i j temp Hi Hj Hf.
  - simpl. rewrite !drop_ge by lia. done.
  - simpl union_loop.
    destruct (i <? length A)%nat eqn:Ei; cbn [andb].
    2:{ apply Nat.ltb_ge in Ei. rewrite (drop_ge A i) by lia.
        by rewrite merge_set_nil_l. }
    destruct (j <? length B)%nat eqn:Ej.
    2:{ apply Nat.ltb_ge in Ej. rewrite (drop_ge B j) by lia.
        by rewrite merge_set_nil_r, app_nil_r. }
    apply Nat.ltb_lt in Ei, Ej. rewrite !rd_cons.
    rewrite (drop_nth_cons A i), (drop_nth_cons B j) by lia.
    rewrite merge_set_cons.
    set (x := nth i A 0). set (y := nth j B 0).
    destruct (x <? y); [|destruct (x >? y)].
    + specialize (IH (S i) j (temp ++ [x])).
      destruct (union_loop _ _ _ _ _ _ _ _) as [[i' j'] t'].
      rewrite IH by lia. rewrite <- app_assoc. simpl.
      by rewrite (drop_nth_cons B j) by lia.
    + specialize (IH i (S j) (temp ++ [y])).
      destruct (union_loop _ _ _ _ _ _ _ _) as [[i' j'] t'].
      rewrite IH by lia. rewrite <- app_assoc. simpl.
      by rewrite (drop_nth_cons A i) by lia.
    + specialize (IH (S i) (S j) (temp ++ [x])).
      destruct (union_loop _ _ _ _ _ _ _ _) as [[i' j'] t'].
      rewrite IH by lia. by rewrite <- app_assoc.
Qed.

Lemma union_loop_bounds a b asz bsz fuel i j temp :
  (i <= asz)%nat -> (j <= bsz)%nat ->
  match union_loop fuel a b asz bsz i j temp with
  | (i', j', _) => (i' <= asz)%nat /\ (j' <= bsz)%nat
  end.
Proof.
  revert i j temp. induction fuel as [|fuel IH]; intros i j temp Hi Hj; simpl.
  - done.
  - destruct (i <? asz)%nat eqn:Ei; simpl; [|done].
    destruct (j <? bsz)%nat eqn:Ej; [|done].
    apply Nat.ltb_lt in Ei, Ej.
    destruct (_ <? _); [|destruct (_ >? _)]; apply IH; lia.
Qed.

(** On payloads whose slot 0 is their element count, [union_sorted_array]
    computes [merge_set]. *)
Lemma union_sorted_array_merge A B :
  union_sorted_array (Z.of_nat (length A) :: A) (Z.of_nat (length B) :: B) =
    (wrap16 (Z.of_nat (length (merge_set A B))) :: merge_set A B,
     Z.of_nat (length B) :: B).
Proof.
  unfold union_sorted_array. rewrite !rd_head, !Nat2Z.id.
  pose proof (union_loop_spec (Z.of_nat (length A)) (Z.of_nat (length B))
                A B (length A + length B) 0 0 []) as Hs.
  pose proof (union_loop_bounds (Z.of_nat (length A) :: A)
                (Z.of_nat (length B) :: B) (length A) (length B)
                (length A + length B) 0 0 []) as Hb.
  destruct (union_loop _ _ _ _ _ _ _ _) as [[i j] t].
  specialize (Hs ltac:(lia) ltac:(lia) ltac:(lia)).
  specialize (Hb ltac:(lia) ltac:(lia)).
  simpl in Hs. rewrite !drop_0 in Hs.
  assert (forall l k, map (fun i => rd (Z.of_nat (length l) :: l) (S i))
                          (seq k (length l - k)) = drop k l) as Hm.
  { intros l k. apply map_nth_seq_drop. }
  rewrite (Hm A i), (Hm B j), <- app_assoc, Hs. done.
Qed.

Lemma Sorted_lt_NoDup l : Sorted Z.lt l -> NoDup l.
Proof.
  intros Hs. apply Sorted_StronglySorted in Hs; [|intros a b c; lia].
  induction Hs as [|x t Hs IH Hx]; constructor; [|done].
  intros Hin. rewrite Forall_forall in Hx. specialize (Hx x Hin). lia.
Qed.

Lemma sparse_payload_inv a :
  sparse_payload a = true ->
  exists ps, a = Z.of_nat (length ps) :: ps /\ Sorted Z.lt ps
             /\ Forall (fun p => 0 <= p < 8 * Z.of_nat BITMAP_SIZE) ps.
Proof.
  destruct a as [|c ps]; simpl; [discriminate|].
  rewrite !andb_true_iff. intros [[Hc Ha] Hb].
  exists ps. apply Z.eqb_eq in Hc. subst c.
  split; [done|]. split; [by apply ascending_Sorted|].
  clear Ha. induction ps as [|p ps IH]; simpl in Hb; [constructor|].
  apply andb_true_iff in Hb as [Hp Hb]. constructor; [lia|auto].
Qed.

Lemma sparse_payload_intro ps :
  Sorted Z.lt ps -> Forall (fun p => 0 <= p < 8 * Z.of_nat BITMAP_SIZE) ps ->
  sparse_payload (Z.of_nat (length ps) :: ps) = true.
Proof.
  intros Hs Hb. simpl. rewrite !andb_true_iff.
  split; [split; [lia | by apply ascending_Sorted]|].
  clear Hs. induction Hb as [|p ps Hp Hb IH]; simpl; [done|].
  apply andb_true_iff. split; [lia|done].
Qed.

Lemma sparse_count_fits ps :
  Sorted Z.lt ps -> Forall (fun p => 0 <= p < 8 * Z.of_nat BITMAP_SIZE) ps ->
  wrap16 (Z.of_nat (length ps)) = Z.of_nat (length ps).
Proof.
  intros Hs Hb. pose proof (Sorted_bounded_length _ _ _ Hs Hb) as Hl.
  unfold wrap16. apply Z.mod_small.
  change (8 * Z.of_nat BITMAP_SIZE - 0) with 60000 in Hl. lia.
Qed.

(** C7: for two sparse payloads (count in slot 0, then strictly ascending
    positions), [union_sorted_array] replaces [a] by the strictly
    ascending, duplicate-free set union of the two position lists with
    its element count in slot 0, and leaves [b] as it was. *)
Theorem C7_union_sorted_array (a b : list Z) :
  sparse_payload a = true -> sparse_payload b = true ->
  exists u,
    union_sorted_array a b = (Z.of_nat (length u) :: u, b)
    /\ ascending u = true
    /\ NoDup u
    /\ (forall x, x ∈ u <-> x ∈ tail a \/ x ∈ tail b)
    /\ sparse_payload (Z.of_nat (length u) :: u) = true.
Proof.
  intros Ha Hb.
  apply sparse_payload_inv in Ha as (A & -> & HsA & HbA).
  apply sparse_payload_inv in Hb as (B & -> & HsB & HbB).
  pose proof (merge_set_Sorted A B HsA HsB) as Hs.
  assert (Forall (fun p => 0 <= p < 8 * Z.of_nat BITMAP_SIZE) (merge_set A B)) as Hbd.
  { rewrite Forall_forall in *. intros x Hx.
    apply merge_set_elem in Hx as [Hx|Hx]; auto. }
  exists (merge_set A B).
  rewrite union_sorted_array_merge, (sparse_count_fits _ Hs Hbd).
  split; [done|]. split; [by apply ascending_Sorted|].
  split; [by apply Sorted_lt_NoDup|].
  split; [intros x; apply merge_set_elem|].
  by apply sparse_payload_intro.
Qed.

Lemma C7_union_sorted_array_witness :
  exists u,
    union_sorted_array [3; 1; 5; 9] [3; 2; 5; 10] = (Z.of_nat (length u) :: u, [3; 2; 5; 10])
    /\ ascending u = true
    /\ NoDup u
    /\ (forall x, x ∈ u <-> x ∈ tail [3; 1; 5; 9] \/ x ∈ tail [3; 2; 5; 10])
    /\ sparse_payload (Z.of_nat (length u) :: u) = true.
Proof.
  apply (C7_union_sorted_array [3; 1; 5; 9] [3; 2; 5; 10]); reflexivity.
Defined.

(** ** Bytes *)

Lemma byte_high_bits x n : 0 <= x < 256 -> 8 <= n -> Z.testbit x n = false.
Proof.
  intros Hx Hn. destruct (Z.eq_dec x 0) as [->|Hne]; [apply Z.bits_0|].
  apply Z.bits_above_log2; [lia|].
  assert (Z.log2 x < 8) by (apply Z.log2_lt_pow2; lia). lia.
Qed.

Lemma byte_lxor_range a b : 0 <= a < 256 -> 0 <= b < 256 -> 0 <= Z.lxor a b < 256.
Proof.
  intros Ha Hb. assert (0 <= Z.lxor a b) as H0 by (apply Z.lxor_nonneg; lia).
  split; [done|].
  destruct (Z.eq_dec (Z.lxor a b) 0) as [->|Hne]; [lia|].
  apply (Z.log2_lt_pow2 _ 8); [lia|].
  pose proof (Z.log2_lxor a b ltac:(lia) ltac:(lia)) as Hl.
  assert (forall x, 0 <= x < 256 -> Z.log2 x < 8) as Hlog.
  { intros x Hx. destruct (Z.eq_dec x 0) as [->|Hx0]; [done|].
    apply Z.log2_lt_pow2; lia. }
  pose proof (Hlog a Ha). pose proof (Hlog b Hb). lia.
Qed.

Lemma pack_word x y :
  0 <= x < 256 -> 0 <= y < 256 -> wrap16 (Z.lor x (Z.shiftl y 8)) = x + 256 * y.
Proof.
  intros Hx Hy.
  assert (Z.land x (Z.shiftl y 8) = 0) as Hland.
  { apply Z.bits_inj'. intros n Hn. rewrite Z.land_spec, Z.bits_0.
    destruct (Z_lt_le_dec n 8).
    - by rewrite Z.shiftl_spec_low, andb_false_r.
    - by rewrite byte_high_bits. }
  rewrite <- (Z.lxor_lor _ _ Hland), <- (Z.add_nocarry_lxor _ _ Hland).
  rewrite Z.shiftl_mul_pow2 by lia. unfold wrap16.
  rewrite Z.mod_small; lia.
Qed.

Lemma unpack_low x y :
  0 <= x < 256 -> 0 <= y < 256 -> Z.land (x + 256 * y) 255 = x.
Proof.
  intros Hx Hy. change 255 with (Z.ones 8). rewrite Z.land_ones by lia.
  change (2 ^ 8) with 256. replace (x + 256 * y) with (x + y * 256) by lia.
  rewrite Z.mod_add by lia. apply Z.mod_small. lia.
Qed.

Lemma unpack_high x y :
  0 <= x < 256 -> 0 <= y < 256 ->
  Z.land (Z.shiftr (x + 256 * y) 8) 255 = y.
Proof.
  intros Hx Hy. rewrite Z.shiftr_div_pow2 by lia. change (2 ^ 8) with 256.
  replace (x + 256 * y) with (x + y * 256) by lia.
  rewrite Z.div_add by lia. rewrite (Z.div_small x 256), Z.add_0_l by lia.
  change 255 with (Z.ones 8). rewrite Z.land_ones by lia.
  apply Z.mod_small. change (2 ^ 8) with 256. lia.
Qed.

Lemma is_bitmap_Forall b :
  is_bitmap b = true -> Forall (fun x => 0 <= x < 256) b.
Proof.
  unfold is_bitmap. rewrite andb_true_iff. intros [_ Hb].
  induction b as [|x b IH]; simpl in Hb; [constructor|].
  apply andb_true_iff in Hb as [Hx Hb]. constructor; [lia|auto].
Qed.

Lemma is_bitmap_length b : is_bitmap b = true -> length b = BITMAP_SIZE.
Proof. unfold is_bitmap. rewrite andb_true_iff, Nat.eqb_eq. tauto. Qed.

(** ** The codec: which encoding, and what it holds *)

Lemma BITMAP_SIZE_Z : Z.of_nat BITMAP_SIZE = 7500.
Proof. reflexivity. Qed.

Lemma is_bitmap_inv b :
  is_bitmap b = true ->
  length b = BITMAP_SIZE /\ forall i, 0 <= rd b i < 256.
Proof.
  unfold is_bitmap. rewrite andb_true_iff, Nat.eqb_eq. intros [Hl Hb].
  split; [done|]. clear Hl. unfold rd.
  induction b as [|x b IH]; intros i; simpl in Hb.
  - destruct i; simpl; lia.
  - apply andb_true_iff in Hb as [Hx Hb]. destruct i; simpl; [lia|auto].
Qed.

Lemma rd_map_seq (f : nat -> Z) n i :
  (i < n)%nat -> rd (map f (seq 0 n)) i = f i.
Proof.
  intros Hi. unfold rd. rewrite (nth_indep _ 0 (f 0%nat)) by (by rewrite length_map, length_seq).
  rewrite (map_nth f), seq_nth by done. done.
Qed.

Lemma bit_set_testbit t j : (j <= 7)%nat -> bit_set t j = Z.testbit t (7 - Z.of_nat j).
Proof.
  intros Hj. unfold bit_set. set (k := 7 - Z.of_nat j). assert (0 <= k) by lia.
  rewrite Z.shiftl_1_l.
  destruct (Z.testbit t k) eqn:Hb.
  - apply negb_true_iff, Z.eqb_neq. intros H0.
    assert (Z.testbit (Z.land t (2 ^ k)) k = true) as Ht
      by (by rewrite Z.land_spec, Hb, Z.pow2_bits_true).
    rewrite H0, Z.bits_0 in Ht. discriminate.
  - apply negb_false_iff, Z.eqb_eq. apply Z.bits_inj'. intros n Hn.
    rewrite Z.land_spec, Z.bits_0, Z.pow2_bits_eqb by done.
    destruct (k =? n) eqn:E; [|by rewrite andb_false_r].
    apply Z.eqb_eq in E. subst n. by rewrite Hb.
Qed.

Lemma fold_left_ext_in {A B} (f g : A -> B -> A) (l : list B) a :
  (forall x y, y ∈ l -> f x y = g x y) -> fold_left f l a = fold_left g l a.
Proof.
  revert a. induction l as [|y l IH]; intros a H; simpl; [done|].
  rewrite H by (by left). apply IH. intros x y' Hy. apply H. by right.
Qed.

Lemma fold_left_count {B} (P : B -> bool) (l : list B) (c : Z) :
  fold_left (fun c j => if P j then c + 1 else c) l c =
  c + Z.of_nat (length (List.filter P l)).
Proof.
  revert c. induction l as [|x l IH]; intros c; simpl; [lia|].
  rewrite IH. destruct (P x); simpl length; lia.
Qed.

Lemma fold_left_emit {B} (P : B -> bool) (f : B -> Z) (l : list B) (o : list Z) :
  fold_left (fun o j => if P j then o ++ [f j] else o) l o =
  o ++ map f (List.filter P l).
Proof.
  revert o. induction l as [|x l IH]; intros o; simpl; [by rewrite app_nil_r|].
  rewrite IH. destruct (P x); simpl; [by rewrite <- app_assoc|done].
Qed.

Lemma filter_testbit_0 (l : list nat) :
  List.filter (fun j => Z.testbit 0 (7 - Z.of_nat j)) l = [].
Proof. induction l; simpl; [done|]. by rewrite Z.bits_0. Qed.

Lemma filter_ext_in' {B} (P Q : B -> bool) (l : list B) :
  (forall x, x ∈ l -> P x = Q x) -> List.filter P l = List.filter Q l.
Proof.
  induction l as [|x l IH]; intros H; simpl; [done|].
  rewrite (H x) by (by left). rewrite IH; [done|]. intros y Hy. apply H. by right.
Qed.

Lemma elem_of_seq_0_8 j : j ∈ seq 0 8 -> (j <= 7)%nat.
Proof. rewrite elem_of_seq. lia. Qed.

(** The two inner loops of [compress_bitmap], for one byte. *)
Lemma count_byte_spec t c :
  count_byte t c =
  c + Z.of_nat (length (List.filter (fun j => Z.testbit t (7 - Z.of_nat j)) (seq 0 8))).
Proof.
  unfold count_byte. destruct (t =? 0) eqn:E.
  - apply Z.eqb_eq in E. subst t. rewrite filter_testbit_0. simpl. lia.
  - rewrite fold_left_count. do 3 f_equal.
    apply filter_ext_in'. intros j Hj. by apply bit_set_testbit, elem_of_seq_0_8.
Qed.

Lemma emit_byte_spec i t o :
  (Z.of_nat i < 8192) ->
  emit_byte i t o =
  o ++ map (fun j => Z.of_nat (8 * i + j))
           (List.filter (fun j => Z.testbit t (7 - Z.of_nat j)) (seq 0 8)).
Proof.
  intros Hi. unfold emit_byte. destruct (t =? 0) eqn:E.
  - apply Z.eqb_eq in E. subst t. rewrite filter_testbit_0. simpl.
    by rewrite app_nil_r.
  - rewrite fold_left_emit. f_equal.
    rewrite (filter_ext_in' _ (fun j => Z.testbit t (7 - Z.of_nat j)))
      by (intros j Hj; by apply bit_set_testbit, elem_of_seq_0_8).
    apply map_ext_in. intros j Hj. apply filter_In in Hj as [Hj _].
    apply in_seq in Hj. unfold wrap16. rewrite Z.mod_small by lia. lia.
Qed.

Lemma byte_cases (P : Z -> bool) :
  forallb P (map Z.of_nat (seq 0 256)) = true ->
  forall x, 0 <= x < 256 -> P x = true.
Proof.
  intros H x Hx. rewrite forallb_forall in H. apply H.
  apply in_map_iff. exists (Z.to_nat x). split; [lia|]. apply in_seq. lia.
Qed.

Lemma seq_shift_map a k : seq a k = map (fun j => a + j)%nat (seq 0 k).
Proof.
  revert a. induction k as [|k IH]; intros a; simpl; [done|].
  f_equal; [lia|]. rewrite (IH (S a)), (IH 1%nat), map_map.
  apply map_ext. intros j. lia.
Qed.

Lemma filter_map_comm {A B} (Q : B -> bool) (f : A -> B) (l : list A) :
  List.filter Q (map f l) = map f (List.filter (fun x => Q (f x)) l).
Proof.
  induction l as [|x l IH]; simpl; [done|]. rewrite IH. by destruct (Q (f x)).
Qed.

(** Filtering the bit positions [0 .. 8n) goes byte by byte. *)
Lemma filter_seq_bytes (Q : nat -> bool) n :
  List.filter Q (seq 0 (8 * n)) =
  flat_map (fun i => map (fun j => 8 * i + j)%nat
                         (List.filter (fun j => Q (8 * i + j)%nat) (seq 0 8)))
           (seq 0 n).
Proof.
  induction n as [|n IH]; [done|].
  replace (8 * S n)%nat with (8 * n + 8)%nat by lia.
  rewrite seq_app, List.filter_app, IH, (seq_S n 0), flat_map_app. f_equal.
  simpl flat_map. rewrite app_nil_r, Nat.add_0_l.
  by rewrite (seq_shift_map (8 * n) 8), filter_map_comm.
Qed.

Lemma flat_map_ext_in' {A B} (f g : A -> list B) (l : list A) :
  (forall x, In x l -> f x = g x) -> flat_map f l = flat_map g l.
Proof.
  induction l as [|x l IH]; intros H; simpl; [done|].
  rewrite (H x) by (by left). f_equal. apply IH. intros y Hy. apply H. by right.
Qed.

Lemma fold_left_length_flat_map {B C} (f : B -> list C) (l : list B) (c : Z) :
  fold_left (fun c i => c + Z.of_nat (length (f i))) l c =
  c + Z.of_nat (length (flat_map f l)).
Proof.
  revert c. induction l as [|x l IH]; intros c; simpl; [lia|].
  rewrite IH, length_app. lia.
Qed.

Lemma fold_left_app_flat_map {B} (f : B -> list nat) (l : list B) (o : list Z) :
  fold_left (fun o i => o ++ map Z.of_nat (f i)) l o =
  o ++ map Z.of_nat (flat_map f l).
Proof.
  revert o. induction l as [|x l IH]; intros o; simpl; [by rewrite app_nil_r|].
  by rewrite IH, map_app, app_assoc.
Qed.

Section Compress.
Variables B R : list Z.
Hypothesis HB : is_bitmap B = true.
Hypothesis HR : is_bitmap R = true.

Lemma xor_function_rd i :
  (i < BITMAP_SIZE)%nat -> rd (xor_function B R) i = Z.lxor (rd B i) (rd R i).
Proof. intros Hi. unfold xor_function. by rewrite rd_map_seq. Qed.

Lemma diff_bit i j :
  (i < BITMAP_SIZE)%nat -> (j < 8)%nat ->
  xorb (bit_at B (8 * i + j)) (bit_at R (8 * i + j)) =
  Z.testbit (rd (xor_function B R) i) (7 - Z.of_nat j).
Proof.
  intros Hi Hj. unfold bit_at.
  replace ((8 * i + j) / 8)%nat with i
    by (rewrite (Nat.mul_comm 8 i), Nat.div_add_l, (Nat.div_small j 8) by lia; lia).
  replace ((8 * i + j) mod 8)%nat with j
    by (rewrite (Nat.mul_comm 8 i), Nat.add_comm, Nat.Div0.mod_add,
          Nat.mod_small by lia; lia).
  by rewrite xor_function_rd, Z.lxor_spec.
Qed.

(** The differing positions, byte by byte, as the loops meet them. *)
Lemma diff_positions_bytes :
  diff_positions B R =
  flat_map (fun i => map (fun j => 8 * i + j)%nat
              (List.filter (fun j => Z.testbit (rd (xor_function B R) i) (7 - Z.of_nat j)) (seq 0 8)))
           (seq 0 BITMAP_SIZE).
Proof.
  unfold diff_positions. rewrite filter_seq_bytes.
  apply flat_map_ext_in'. intros i Hi. apply in_seq in Hi. f_equal.
  apply filter_ext_in'. intros j Hj. apply elem_of_seq in Hj.
  apply diff_bit; lia.
Qed.

Lemma count_bits_spec :
  count_bits (xor_function B R) = Z.of_nat (length (diff_positions B R)).
Proof.
  unfold count_bits. rewrite diff_positions_bytes.
  rewrite <- (Z.add_0_l (Z.of_nat _)), <- fold_left_length_flat_map.
  apply fold_left_ext_in. intros c i _.
  by rewrite count_byte_spec, length_map.
Qed.

Lemma emit_positions_spec o :
  emit_positions (xor_function B R) o = o ++ map Z.of_nat (diff_positions B R).
Proof.
  unfold emit_positions. rewrite diff_positions_bytes.
  rewrite <- fold_left_app_flat_map.
  apply fold_left_ext_in. intros c i Hi. apply elem_of_seq in Hi.
  rewrite emit_byte_spec by (pose proof BITMAP_SIZE_Z; lia).
  by rewrite map_map.
Qed.

Lemma pack_dense_spec :
  pack_dense B = map (packed_word B) (seq 0 (BITMAP_SIZE / 2)).
Proof.
  unfold pack_dense, packed_word. apply map_ext. intros i.
  apply is_bitmap_inv in HB as [_ Hb]. by apply pack_word.
Qed.

Lemma compress_bitmap_spec :
  compress_bitmap B R =
    if Z.of_nat (length (diff_positions B R)) >=? 468
    then (map (packed_word B) (seq 0 (BITMAP_SIZE / 2)), false)
    else (Z.of_nat (length (diff_positions B R))
            :: map Z.of_nat (diff_positions B R), true).
Proof.
  unfold compress_bitmap. rewrite count_bits_spec.
  change (Z.quot (Z.of_nat BITMAP_SIZE) 16) with 468.
  destruct (_ >=? 468) eqn:E.
  - by rewrite pack_dense_spec.
  - rewrite emit_positions_spec. simpl. f_equal. f_equal.
    unfold wrap16. apply Z.mod_small. lia.
Qed.
End Compress.

Lemma diff_positions_ascending B R :
  ascending (map Z.of_nat (diff_positions B R)) = true.
Proof.
  unfold diff_positions. generalize (8 * BITMAP_SIZE)%nat. intros n.
  apply ascending_Sorted. generalize 0%nat.
  induction n as [|n IH]; intros a; simpl; [constructor|].
  destruct (xorb _ _); [|apply IH].
  simpl. constructor; [apply IH|].
  assert (forall m b, (a < b)%nat ->
            HdRel Z.lt (Z.of_nat a)
              (map Z.of_nat (List.filter
                 (fun p => xorb (bit_at B p) (bit_at R p)) (seq b m)))) as H.
  { clear. induction m as [|m IHm]; intros b Hb; simpl; [constructor|].
    destruct (xorb _ _); simpl; [constructor; lia | apply IHm; lia]. }
  apply H. lia.
Qed.

(** C3, amended: [compress_bitmap] picks the dense encoding exactly when
    the number of differing bits is at least [BITMAP_SIZE / 16] in C++
    integer division, that is 468; the dense payload is the original
    packed two bytes to a word, the sparse payload is the count followed
    by the ascending list of the differing bit positions. *)
Theorem C3_encoding_choice (B R : list Z) :
  is_bitmap B = true -> is_bitmap R = true ->
  Z.quot (Z.of_nat BITMAP_SIZE) 16 = 468
  /\ ascending (map Z.of_nat (diff_positions B R)) = true
  /\ compress_bitmap B R =
       if Z.of_nat (length (diff_positions B R)) >=? 468
       then (map (packed_word B) (seq 0 (BITMAP_SIZE / 2)), false)
       else (Z.of_nat (length (diff_positions B R))
               :: map Z.of_nat (diff_positions B R), true).
Proof.
  intros HB HR. split; [reflexivity|].
  split; [apply diff_positions_ascending | by apply compress_bitmap_spec].
Qed.

(** ** Chains in an ordered heap *)

Lemma shape_lookup (h h' : list CompressedBitmap) a nd :
  map shape h' = map shape h -> h !! a = Some nd ->
  exists nd', h' !! a = Some nd' /\ bitmap_csn nd' = bitmap_csn nd
              /\ next_bitmap nd' = next_bitmap nd.
Proof.
  intros Hs Ha.
  assert (map shape h' !! a = Some (shape nd)) as H.
  { rewrite Hs. change (map shape h) with (shape <$> h).
    by rewrite list_lookup_fmap, Ha. }
  change (map shape h') with (shape <$> h') in H.
  rewrite list_lookup_fmap in H.
  destruct (h' !! a) as [nd'|]; [|discriminate].
  exists nd'. simpl in H. unfold shape in H. split; [done|]. split; congruence.
Qed.

Lemma shape_length (h h' : list CompressedBitmap) :
  map shape h' = map shape h -> length h' = length h.
Proof. intros H. by rewrite <- (length_map shape h'), H, length_map. Qed.

Lemma shape_insert (h : list CompressedBitmap) a nd nd' :
  h !! a = Some nd -> shape nd' = shape nd ->
  map shape (<[a := nd']> h) = map shape h.
Proof.
  intros Ha Hs. change (shape <$> <[a := nd']> h = shape <$> h).
  rewrite list_fmap_insert, Hs. apply list_insert_id.
  by rewrite list_lookup_fmap, Ha.
Qed.

Lemma bmp_ordered_shape h h' :
  map shape h' = map shape h -> bmp_ordered h -> bmp_ordered h'.
Proof.
  intros Hs Ho a nd' b Ha Hn.
  destruct (shape_lookup h' h a nd' (eq_sym Hs) Ha) as (nd & Hnd & _ & Hnx).
  apply (Ho a nd b Hnd). congruence.
Qed.

Lemma chain_shape fuel h h' p :
  map shape h' = map shape h -> chain fuel h' p = chain fuel h p.
Proof.
  intros Hs. revert p. induction fuel as [|fuel IH]; intros [a|]; simpl; try done.
  destruct (h !! a) as [nd|] eqn:Ha.
  - destruct (shape_lookup h h' a nd Hs Ha) as (nd' & -> & _ & ->).
    by rewrite IH.
  - destruct (h' !! a) as [nd'|] eqn:Ha'; [|done].
    destruct (shape_lookup h' h a nd' (eq_sym Hs) Ha') as (nd & Hnd & _).
    congruence.
Qed.

(** In an ordered heap a chain from address [a] needs [a + 1] steps at
    most, and does not see what is allocated later. *)
Lemma chain_grow h x fuel fuel' a :
  bmp_ordered h -> (a < length h)%nat -> (a < fuel)%nat -> (a < fuel')%nat ->
  chain fuel' (h ++ x) (Some a) = chain fuel h (Some a).
Proof.
  intros Ho. revert fuel' a.
  induction fuel as [|fuel IH]; intros fuel' a Hl Hf Hf'; [lia|].
  destruct fuel' as [|fuel']; [lia|]. simpl.
  destruct (lookup_lt_is_Some_2 h a Hl) as [nd Ha].
  rewrite (lookup_app_l_Some _ _ _ _ Ha), Ha. f_equal.
  destruct (next_bitmap nd) as [b|] eqn:Hn.
  - pose proof (Ho a nd b Ha Hn). apply IH; lia.
  - by destruct fuel, fuel'.
Qed.

(** The addresses of a chain decrease: no node occurs twice. *)
Lemma chain_bound h fuel a :
  bmp_ordered h ->
  Forall (fun b => (b <= a)%nat) (chain fuel h (Some a)).
Proof.
  intros Ho. revert a. induction fuel as [|fuel IH]; intros a; simpl; [constructor|].
  destruct (h !! a) as [nd|] eqn:Ha; [|constructor].
  constructor; [lia|].
  destruct (next_bitmap nd) as [b|] eqn:Hn.
  - pose proof (Ho a nd b Ha Hn). eapply Forall_impl; [apply IH|].
    simpl. intros. lia.
  - destruct fuel; constructor.
Qed.

Lemma chain_split_notin h fuel p front b back :
  bmp_ordered h -> chain fuel h p = front ++ b :: back -> b ∉ front.
Proof.
  intros Ho. revert p front. induction fuel as [|fuel IH]; intros p front H.
  - destruct p; simpl in H; by destruct front.
  - destruct p as [a|]; simpl in H; [|by destruct front].
    destruct (h !! a) as [nd|] eqn:Ha; [|by destruct front].
    destruct front as [|f front]; [apply not_elem_of_nil|].
    simpl in H. injection H as <- H.
    apply not_elem_of_cons. split; [|by apply (IH _ _ H)].
    destruct (next_bitmap nd) as [a'|] eqn:Hn.
    + pose proof (chain_bound h fuel a' Ho) as Hb. rewrite H in Hb.
      rewrite Forall_app, Forall_cons in Hb. destruct Hb as (_ & Hb & _).
      pose proof (Ho a nd a' Ha Hn). lia.
    + destruct fuel; by destruct front.
Qed.

(** ** What a call changes *)

Lemma insert_null_inv s new_csn img ref bitmap s' ref' bitmap' ok :
  insert_null s new_csn img ref bitmap = Ret (s', ref', bitmap', ok) ->
  (head_bitmap_cnt s = MAX_COMPRESS_NUM
   /\ (BITMAP_SIZE <= length img)%nat
   /\ ref' = ref /\ bitmap' = bitmap
   /\ s' = {| ref_heap := ref_heap s ++
                [{| bitmap_cnt := wrap_int (0 + 1);
                    csn_range := (new_csn, new_csn);
                    next_ref := first_ref s;
                    first_compressed_bitmap := Some (length (bmp_heap s));
                    complete_bitmap := take BITMAP_SIZE img |}];
              bmp_heap := bmp_heap s ++
                [{| bitmap_csn := new_csn; next_bitmap := None;
                    compressed_bitmap := Some [0]; is_compressed := true |}];
              first_ref := Some (length (ref_heap s));
              head_bitmap_cnt := 1 |})
  \/ (head_bitmap_cnt s <> MAX_COMPRESS_NUM
      /\ exists g r,
          first_ref s = Some g /\ ref_heap s !! g = Some r
          /\ ref' = Some g /\ bitmap' = Some (length (bmp_heap s))
          /\ s' = {| ref_heap := <[g := set_first r (Some (length (bmp_heap s)))]>
                                   (ref_heap s);
                     bmp_heap := bmp_heap s ++
                       [{| bitmap_csn := new_csn;
                           next_bitmap := first_compressed_bitmap r;
                           compressed_bitmap := None; is_compressed := false |}];
                     first_ref := first_ref s;
                     head_bitmap_cnt := wrap_int (head_bitmap_cnt s + 1) |}).
Proof.
  unfold insert_null. intros H.
  destruct (head_bitmap_cnt s =? MAX_COMPRESS_NUM) eqn:E.
  - apply Z.eqb_eq in E. left.
    destruct (BITMAP_SIZE <=? length img)%nat eqn:El; [|discriminate].
    apply Nat.leb_le in El. injection H as <- <- <- <-. done.
  - apply Z.eqb_neq in E. right. split; [done|].
    destruct (first_ref s) as [g|]; [|discriminate].
    destruct (ref_heap s !! g) as [r|] eqn:Hg; [|discriminate].
    injection H as <- <- <- <-. exists g, r. done.
Qed.

Lemma insert_bitmap_content_inv s ref bitmap img s' ok :
  insert_bitmap_content s ref bitmap img = Ret (s', ok) ->
  exists g b r nd start temp_csn bmps2,
    ref = Some g /\ bitmap = Some b
    /\ ref_heap s !! g = Some r /\ bmp_heap s !! b = Some nd
    /\ let bmps1 := <[b := set_payload nd
                         (fst (compress_bitmap img (complete_bitmap r)))
                         (snd (compress_bitmap img (complete_bitmap r)))]>
                      (bmp_heap s) in
       walk_to (length bmps1) bmps1 (first_compressed_bitmap r) (Some b) None (-1)
         = Ret (start, temp_csn)
       /\ match start with
          | Some _ => propagate (length bmps1) bmps1 start (Some b)
          | None => Ret bmps1
          end = Ret bmps2
       /\ s' = {| ref_heap :=
                    <[g := set_cnt_range r (wrap_int (bitmap_cnt r + 1))
                             (fst (csn_range r),
                              Z.max (snd (csn_range r))
                                    (if temp_csn =? -1 then bitmap_csn nd
                                     else temp_csn))]> (ref_heap s);
                  bmp_heap := bmps2;
                  first_ref := first_ref s;
                  head_bitmap_cnt := head_bitmap_cnt s |}.
Proof.
  unfold insert_bitmap_content. intros H.
  destruct ref as [g|]; [|discriminate]. destruct bitmap as [b|]; [|discriminate].
  destruct (ref_heap s !! g) as [r|] eqn:Hg; [|discriminate].
  destruct (bmp_heap s !! b) as [nd|] eqn:Hb; [|discriminate].
  destruct (_ && _); [|discriminate].
  destruct (compress_bitmap img (complete_bitmap r)) as [w c] eqn:Hc.
  unfold insert_locked in H.
  inv_bind H. destruct a as [start temp_csn]. inv_bind H.
  injection H as <- <-.
  exists g, b, r, nd, start, temp_csn, a. rewrite Hc. cbv zeta.
  simpl fst; simpl snd. repeat split; assumption.
Qed.

Lemma propagate_shape fuel h p b h' :
  propagate fuel h p b = Ret h' -> map shape h' = map shape h.
Proof.
  revert h p. induction fuel as [|fuel IH]; intros h p H.
  - destruct p as [a|]; simpl in H; [|congruence].
    destruct (ptr_eqb _ _); [congruence|]. destruct (h !! a); discriminate.
  - destruct p as [a|]; simpl in H; [|congruence].
    destruct (ptr_eqb _ _); [congruence|].
    destruct (h !! a) as [nd|] eqn:Ha; [|discriminate].
    inv_bind H.
    destruct (compressed_bitmap nd) as [wa|]; [|discriminate].
    destruct (compressed_bitmap a0) as [wb|]; [|discriminate].
    destruct (union_in_bounds wa wb); [|discriminate].
    apply IH in H. rewrite H. by apply (shape_insert h a nd).
Qed.

Lemma insert_bitmap_content_shape s ref bitmap img s' ok :
  insert_bitmap_content s ref bitmap img = Ret (s', ok) ->
  map shape (bmp_heap s') = map shape (bmp_heap s).
Proof.
  intros H. apply insert_bitmap_content_inv in H
    as (g & b & r & nd & start & tc & bmps2 & _ & _ & _ & Hb & _ & Hp & ->).
  simpl. set (bmps1 := <[b := _]> (bmp_heap s)) in *.
  assert (map shape bmps1 = map shape (bmp_heap s)) as H1
    by (apply (shape_insert _ b nd); [assumption | reflexivity]).
  destruct start; [apply propagate_shape in Hp | injection Hp as <-]; congruence.
Qed.
(** ** The invariant holds in every reachable state *)

Lemma group_chain_grow s s' r x :
  bmp_ordered (bmp_heap s) -> bmp_heap s' = bmp_heap s ++ x ->
  (exists b, first_compressed_bitmap r = Some b /\ (b < length (bmp_heap s))%nat) ->
  group_chain s' r = group_chain s r.
Proof.
  intros Ho Hh (b & Hb & Hlt). unfold group_chain. rewrite Hh, Hb.
  apply chain_grow; [done..|]. rewrite length_app. lia.
Qed.

Lemma group_ok_grow s s' r x :
  bmp_ordered (bmp_heap s) -> bmp_heap s' = bmp_heap s ++ x ->
  group_ok s r -> group_ok s' r.
Proof.
  intros Ho Hh [Hf Hc Hr Hcr].
  pose proof (group_chain_grow s s' r x Ho Hh Hf) as Hg.
  split.
  - destruct Hf as (b & Hb & Hlt). exists b. split; [done|].
    rewrite Hh, length_app. lia.
  - by rewrite Hg.
  - done.
  - destruct Hcr as (b0 & nd0 & Hl & Hb0 & Hn & Hcsn). exists b0, nd0.
    rewrite Hg, Hh. split; [done|]. split; [|done].
    by apply lookup_app_l_Some.
Qed.

Lemma group_ok_shape s s' r :
  map shape (bmp_heap s') = map shape (bmp_heap s) ->
  group_ok s r -> group_ok s' r.
Proof.
  intros Hs [Hf Hc Hr Hcr].
  assert (group_chain s' r = group_chain s r) as Hg.
  { unfold group_chain. rewrite (shape_length _ _ Hs). by apply chain_shape. }
  split.
  - destruct Hf as (b & Hb & Hlt). exists b. by rewrite (shape_length _ _ Hs).
  - by rewrite Hg.
  - done.
  - destruct Hcr as (b0 & nd0 & Hl & Hb0 & Hn & Hcsn).
    destruct (shape_lookup _ _ b0 nd0 Hs Hb0) as (nd' & Hb' & Hc' & Hn').
    exists b0, nd'. rewrite Hg. repeat split; congruence.
Qed.

Lemma group_ok_range s r r' :
  first_compressed_bitmap r' = first_compressed_bitmap r ->
  fst (csn_range r') = fst (csn_range r) ->
  snd (csn_range r) <= snd (csn_range r') ->
  group_ok s r -> group_ok s r'.
Proof.
  intros Hf1 Hlo Hhi [Hf Hc Hr Hcr].
  assert (group_chain s r' = group_chain s r) as Hg
    by (unfold group_chain; by rewrite Hf1).
  split; rewrite ?Hg, ?Hf1, ?Hlo; [done..|lia|done].
Qed.

Lemma chain_cons fuel h a nd :
  h !! a = Some nd -> chain (S fuel) h (Some a) = a :: chain fuel h (next_bitmap nd).
Proof. intros H. simpl. by rewrite H. Qed.

Lemma chain_None fuel h : chain fuel h None = [].
Proof. by destruct fuel. Qed.

Lemma wrap_int_small z : -2147483648 <= z < 2147483648 -> wrap_int z = z.
Proof. intros Hz. unfold wrap_int. rewrite Z.mod_small; lia. Qed.

Lemma inv_init : inv init.
Proof.
  split; simpl.
  - intros a nd b Ha. by rewrite lookup_nil in Ha.
  - intros g r g' Hg. by rewrite lookup_nil in Hg.
  - intros g r Hg. by rewrite lookup_nil in Hg.
  - reflexivity.
Qed.

Lemma head_group_valid s g :
  head_ok s -> first_ref s = Some g -> (g < length (ref_heap s))%nat.
Proof.
  unfold head_ok. intros H Hg. rewrite Hg in H. destruct H as (r & Hr & _).
  by apply lookup_lt_Some in Hr.
Qed.

Lemma inv_insert_null s new_csn img ref bitmap s' ref' bitmap' ok :
  inv s ->
  insert_null s new_csn img ref bitmap = Ret (s', ref', bitmap', ok) ->
  inv s'.
Proof.
  intros [Hbo Hro Hgr Hhd] H.
  apply insert_null_inv in H as
    [(Hcnt & Hlen & _ & _ & ->)|(Hcnt & g & r & Hfirst & Hg & _ & _ & ->)].
  - (* a new group *)
    set (nb := {| bitmap_csn := new_csn; next_bitmap := None;
                  compressed_bitmap := Some [0]; is_compressed := true |}).
    set (nr := {| bitmap_cnt := _; csn_range := _; next_ref := _;
                  first_compressed_bitmap := _; complete_bitmap := _ |}).
    set (s' := {| ref_heap := _; bmp_heap := _; first_ref := _;
                  head_bitmap_cnt := _ |}).
    assert (group_chain s' nr = [length (bmp_heap s)]) as Hch.
    { unfold group_chain. simpl bmp_heap. simpl first_compressed_bitmap.
      rewrite length_app, Nat.add_1_r.
      rewrite (chain_cons _ _ _ nb) by (by apply list_lookup_middle).
      by rewrite chain_None. }
    assert (group_ok s' nr) as Hnr.
    { split.
      - exists (length (bmp_heap s)). simpl. rewrite length_app. simpl.
        split; [done|lia].
      - rewrite Hch. simpl. unfold MAX_COMPRESS_NUM. lia.
      - simpl. lia.
      - exists (length (bmp_heap s)), nb. rewrite Hch. simpl.
        by rewrite list_lookup_middle. }
    split.
    + intros a nd b Ha Hn. simpl in Ha.
      apply lookup_app_Some in Ha as [Ha|[_ Ha]]; [by eapply Hbo|].
      apply list_lookup_singleton_Some in Ha as [_ <-]. discriminate.
    + intros g r g' Hg Hn. simpl in Hg.
      apply lookup_app_Some in Hg as [Hg|[Hge Hg]]; [by eapply Hro|].
      apply list_lookup_singleton_Some in Hg as [Hz <-]. simpl in Hn.
      pose proof (head_group_valid s g' Hhd Hn). lia.
    + intros g r Hg. simpl in Hg.
      apply lookup_app_Some in Hg as [Hg|[_ Hg]].
      * eapply (group_ok_grow s s'); [done|reflexivity|by eapply Hgr].
      * by apply list_lookup_singleton_Some in Hg as [_ <-].
    + unfold head_ok. simpl. exists nr. rewrite list_lookup_middle by done.
      split; [done|]. by rewrite Hch.
  - (* a placeholder in front of the head group *)
    set (nb := {| bitmap_csn := new_csn; next_bitmap := first_compressed_bitmap r;
                  compressed_bitmap := None; is_compressed := false |}).
    set (r' := set_first r (Some (length (bmp_heap s)))).
    set (s' := {| ref_heap := _; bmp_heap := _; first_ref := _;
                  head_bitmap_cnt := _ |}).
    pose proof (Hgr g r Hg) as [Hf Hc Hr Hcr].
    destruct Hf as (b & Hb & Hlt).
    assert (Z.of_nat (length (group_chain s r)) = head_bitmap_cnt s) as Hlen.
    { unfold head_ok in Hhd. rewrite Hfirst in Hhd.
      destruct Hhd as (r0 & Hr0 & Hl0). congruence. }
    assert (group_chain s' r' = length (bmp_heap s) :: group_chain s r) as Hch.
    { unfold group_chain. simpl bmp_heap. simpl first_compressed_bitmap.
      rewrite length_app, Nat.add_1_r.
      rewrite (chain_cons _ _ _ nb) by (by apply list_lookup_middle).
      f_equal. simpl next_bitmap. rewrite Hb. by apply chain_grow. }
    assert (group_ok s' r') as Hr'.
    { split.
      - exists (length (bmp_heap s)). simpl. rewrite length_app. simpl.
        split; [done|lia].
      - rewrite Hch. simpl length. unfold MAX_COMPRESS_NUM in *. lia.
      - done.
      - destruct Hcr as (b0 & nd0 & Hl & Hb0 & Hn & Hcsn). exists b0, nd0.
        rewrite Hch. split.
        + destruct (group_chain s r); [discriminate|done].
        + split; [|done]. simpl. by apply lookup_app_l_Some. }
    split.
    + intros a nd b' Ha Hn. simpl in Ha.
      apply lookup_app_Some in Ha as [Ha|[Hge Ha]]; [by eapply Hbo|].
      apply list_lookup_singleton_Some in Ha as [Hz <-]. simpl in Hn.
      assert (b' = b) by congruence. lia.
    + intros g0 r0 g' Hg0 Hn. simpl in Hg0.
      apply list_lookup_insert_Some in Hg0 as [(<- & <- & _)|[Hne Hg0]];
        [by eapply Hro|by eapply Hro].
    + intros g0 r0 Hg0. simpl in Hg0.
      apply list_lookup_insert_Some in Hg0 as [(<- & <- & _)|[Hne Hg0]]; [done|].
      eapply (group_ok_grow s s'); [done|reflexivity|by eapply Hgr].
    + unfold head_ok. simpl. rewrite Hfirst. exists r'.
      rewrite list_lookup_insert_eq by (by eapply lookup_lt_Some).
      split; [done|]. rewrite Hch. simpl length.
      rewrite wrap_int_small; unfold MAX_COMPRESS_NUM in *; lia.
Qed.

Lemma inv_insert_bitmap_content s ref bitmap img s' ok :
  inv s ->
  insert_bitmap_content s ref bitmap img = Ret (s', ok) ->
  inv s'.
Proof.
  intros [Hbo Hro Hgr Hhd] H.
  pose proof (insert_bitmap_content_shape _ _ _ _ _ _ H) as Hsh.
  apply insert_bitmap_content_inv in H
    as (g & b & r & nd & start & tc & bmps2 & _ & _ & Hg & Hb & _ & _ & Hs').
  set (r' := set_cnt_range _ _ _) in Hs'.
  assert (forall g0 r0, ref_heap s' !! g0 = Some r0 ->
            exists r1, ref_heap s !! g0 = Some r1
                       /\ first_compressed_bitmap r0 = first_compressed_bitmap r1
                       /\ next_ref r0 = next_ref r1
                       /\ fst (csn_range r0) = fst (csn_range r1)
                       /\ snd (csn_range r1) <= snd (csn_range r0)) as Hrefs.
  { intros g0 r0 Hg0. rewrite Hs' in Hg0. simpl in Hg0.
    apply list_lookup_insert_Some in Hg0 as [(<- & <- & _)|[Hne Hg0]].
    - exists r. repeat split; [done|]. simpl. lia.
    - exists r0. repeat split; [done|]. lia. }
  split.
  - by apply (bmp_ordered_shape (bmp_heap s)).
  - intros g0 r0 g' Hg0 Hn.
    destruct (Hrefs g0 r0 Hg0) as (r1 & Hr1 & _ & Hnx & _).
    apply (Hro g0 r1 g' Hr1). congruence.
  - intros g0 r0 Hg0.
    destruct (Hrefs g0 r0 Hg0) as (r1 & Hr1 & Hf1 & _ & Hlo & Hhi).
    apply (group_ok_shape s s' r0 Hsh).
    by apply (group_ok_range s r1 r0 Hf1 Hlo Hhi), (Hgr g0).
  - assert (first_ref s' = first_ref s) as Hfr by (by rewrite Hs').
    assert (head_bitmap_cnt s' = head_bitmap_cnt s) as Hcn by (by rewrite Hs').
    unfold head_ok in *. rewrite Hfr, Hcn.
    destruct (first_ref s) as [g0|] eqn:Hfirst; [|done].
    destruct Hhd as (r0 & Hr0 & Hl0).
    assert (exists r1, ref_heap s' !! g0 = Some r1
              /\ first_compressed_bitmap r1 = first_compressed_bitmap r0)
      as (r1 & Hr1 & Hf1).
    { rewrite Hs'. simpl. destruct (decide (g = g0)) as [->|Hne].
      - exists r'. rewrite list_lookup_insert_eq by (by eapply lookup_lt_Some).
        split; [done|]. simpl. congruence.
      - exists r0. by rewrite list_lookup_insert_ne. }
    exists r1. split; [done|].
    rewrite <- Hl0. unfold group_chain.
    rewrite (shape_length _ _ Hsh), Hf1. f_equal. f_equal. by apply chain_shape.
Qed.

Theorem reachable_inv s : reachable s -> inv s.
Proof.
  induction 1 as [|s c s' _ IH _ Hrun]; [apply inv_init|].
  destruct c as [new_csn img ref bitmap|ref bitmap img]; simpl in Hrun; inv_bind Hrun.
  - destruct a as [[[s1 r1] b1] ok]. injection Hrun as <-.
    by eapply inv_insert_null.
  - destruct a as [s1 ok]. injection Hrun as <-.
    by eapply inv_insert_bitmap_content.
Qed.

(** ** The group cap *)

(** C6: in every reachable state no group holds more than
    [MAX_COMPRESS_NUM = 9] delta nodes and [head_bitmap_cnt] is the
    number of delta nodes of the head group; when the head group holds
    nine, the next [insert_null] creates a new group in front of it, with
    the inserted bitmap as its reference and one delta node of its own,
    and leaves the old head group's chain as it was. *)
Theorem C6_group_cap (s : BitmapController) :
  reachable s ->
  (forall g r, ref_heap s !! g = Some r ->
     Z.of_nat (length (group_chain s r)) <= MAX_COMPRESS_NUM)
  /\ (forall g r, first_ref s = Some g -> ref_heap s !! g = Some r ->
        head_bitmap_cnt s = Z.of_nat (length (group_chain s r)))
  /\ (forall g r new_csn img ref bitmap,
        first_ref s = Some g -> ref_heap s !! g = Some r ->
        Z.of_nat (length (group_chain s r)) = MAX_COMPRESS_NUM ->
        is_bitmap img = true ->
        exists s' r',
          insert_null s new_csn img ref bitmap = Ret (s', ref, bitmap, true)
          /\ first_ref s' = Some (length (ref_heap s))
          /\ ref_heap s' !! length (ref_heap s) = Some r'
          /\ complete_bitmap r' = img
          /\ csn_range r' = (new_csn, new_csn)
          /\ next_ref r' = Some g
          /\ group_chain s' r' = [length (bmp_heap s)]
          /\ ref_heap s' !! g = Some r
          /\ group_chain s' r = group_chain s r).
Proof.
  intros Hreach. pose proof (reachable_inv s Hreach) as Hinv.
  destruct Hinv as [Hbo Hro Hgr Hhd]. split; [|split].
  - intros g r Hg. apply (Hgr g r Hg).
  - intros g r Hfirst Hg. unfold head_ok in Hhd. rewrite Hfirst in Hhd.
    destruct Hhd as (r0 & Hr0 & Hl0). congruence.
  - intros g r new_csn img ref bitmap Hfirst Hg Hlen Himg.
    assert (head_bitmap_cnt s = MAX_COMPRESS_NUM) as Hcnt.
    { unfold head_ok in Hhd. rewrite Hfirst in Hhd.
      destruct Hhd as (r0 & Hr0 & Hl0). congruence. }
    apply is_bitmap_inv in Himg as [Hil _].
    unfold insert_null. rewrite Hcnt, Z.eqb_refl, Hil, Nat.leb_refl.
    eexists _, _. split; [reflexivity|]. simpl.
    rewrite list_lookup_middle by done.
    split; [done|]. split; [done|].
    split; [by rewrite <- Hil, firstn_all|].
    split; [done|]. split; [done|].
    split.
    { unfold group_chain. simpl bmp_heap. simpl first_compressed_bitmap.
      rewrite length_app, Nat.add_1_r.
      erewrite chain_cons by (by apply list_lookup_middle).
      by rewrite chain_None. }
    split; [by apply lookup_app_l_Some|].
    eapply group_chain_grow; [done|reflexivity|]. apply (Hgr g r Hg).
Qed.

(** ** The CSN range of a group *)

(** C9: a call never changes [csn_range.first] of an existing group and
    never lowers its [csn_range.second]; and in every reachable state
    [csn_range.first] is the CSN of the delta node that created the
    group, the oldest of its chain. *)
Theorem C9_monotone_range (s : BitmapController) (c : call) (s' : BitmapController) :
  reachable s ->
  run_call s c = Ret s' ->
  (forall g r, ref_heap s !! g = Some r ->
     exists r', ref_heap s' !! g = Some r'
                /\ fst (csn_range r') = fst (csn_range r)
                /\ snd (csn_range r) <= snd (csn_range r'))
  /\ (forall g r, ref_heap s !! g = Some r ->
        exists b0 nd0, last (group_chain s r) = Some b0
                       /\ bmp_heap s !! b0 = Some nd0
                       /\ next_bitmap nd0 = None
                       /\ bitmap_csn nd0 = fst (csn_range r)).
Proof.
  intros Hreach Hrun. split.
  - intros g r Hg.
    destruct c as [new_csn img ref bitmap|ref bitmap img]; simpl in Hrun;
      inv_bind Hrun.
    + destruct a as [[[s1 r1] b1] ok]. injection Hrun as <-.
      apply insert_null_inv in Ha as
        [(_ & _ & _ & _ & ->)|(_ & g0 & r0 & _ & Hg0 & _ & _ & ->)]; simpl.
      * exists r. split; [by apply lookup_app_l_Some|]. split; [done|lia].
      * destruct (decide (g0 = g)) as [->|Hne].
        -- exists (set_first r0 (Some (length (bmp_heap s)))).
           rewrite list_lookup_insert_eq by (by eapply lookup_lt_Some).
           assert (r0 = r) as -> by congruence. simpl. split; [done|].
           split; [done|lia].
        -- exists r. rewrite list_lookup_insert_ne by done.
           split; [done|]. split; [done|lia].
    + destruct a as [s1 ok]. injection Hrun as <-.
      apply insert_bitmap_content_inv in Ha
        as (g0 & b & r0 & nd & start & tc & bmps2 & _ & _ & Hg0 & _ & _ & _ & ->).
      simpl. destruct (decide (g0 = g)) as [->|Hne].
      * eexists. rewrite list_lookup_insert_eq by (by eapply lookup_lt_Some).
        split; [done|]. assert (r0 = r) as -> by congruence. simpl.
        split; [done|lia].
      * exists r. rewrite list_lookup_insert_ne by done.
        split; [done|]. split; [done|lia].
  - intros g r Hg. apply (inv_group s (reachable_inv s Hreach) g r Hg).
Qed.

(** ** The walk of get_bitmap over the groups *)

Lemma scan_refs_step fuel refs g csn r :
  refs !! g = Some r ->
  scan_refs (S fuel) refs (Some g) csn =
    if csn <? fst (csn_range r) then scan_refs fuel refs (next_ref r) csn
    else if csn >? snd (csn_range r) then Ret ScanReturnFalse
    else Ret (ScanStop (Some g)).
Proof. intros H. simpl. by rewrite H. Qed.

Lemma scan_refs_fuel refs csn fuel fuel' g :
  ref_ordered refs -> (g < fuel)%nat -> (g < fuel')%nat ->
  scan_refs fuel refs (Some g) csn = scan_refs fuel' refs (Some g) csn.
Proof.
  intros Ho. revert fuel' g.
  induction fuel as [|fuel IH]; intros fuel' g Hf Hf'; [lia|].
  destruct fuel' as [|fuel']; [lia|]. simpl.
  destruct (refs !! g) as [r|] eqn:Hg; [|done].
  destruct (csn <? fst (csn_range r)); [|done].
  destruct (next_ref r) as [g'|] eqn:Hn.
  - pose proof (Ho g r g' Hg Hn). apply IH; lia.
  - by destruct fuel, fuel'.
Qed.

Lemma scan_refs_below refs csn fuel p :
  ref_ordered refs ->
  (forall g r, refs !! g = Some r -> csn < fst (csn_range r)) ->
  (forall g, p = Some g -> (g < fuel)%nat /\ (g < length refs)%nat) ->
  scan_refs fuel refs p csn = Ret (ScanStop None).
Proof.
  intros Ho Hlo. revert p. induction fuel as [|fuel IH]; intros p Hp.
  - destruct p as [g|]; [|done]. destruct (Hp g eq_refl). lia.
  - destruct p as [g|]; [|done]. destruct (Hp g eq_refl) as [Hf Hl].
    simpl. destruct (lookup_lt_is_Some_2 refs g Hl) as [r Hg]. rewrite Hg.
    pose proof (Hlo g r Hg) as Hlt. apply Z.ltb_lt in Hlt. rewrite Hlt.
    apply IH. intros g' Hn. pose proof (Ho g r g' Hg Hn). lia.
Qed.

(** C8: [get_bitmap] walks the groups from the newest.  At a group whose
    [csn_range.first] is above the requested CSN the walk goes on with the
    next older group; at a group whose [csn_range.second] is below it the
    walk ends and [get_bitmap] returns false at once.  So a CSN below the
    [csn_range.first] of every group selects no group: [get_bitmap]
    returns false and the buffer is as it was. *)
Theorem C8_get_walk (s : BitmapController) (require_csn : Z) (bitmap_result : list Z) :
  reachable s ->
  (forall g r, ref_heap s !! g = Some r -> require_csn < fst (csn_range r) ->
     scan_refs (length (ref_heap s)) (ref_heap s) (Some g) require_csn =
     scan_refs (length (ref_heap s)) (ref_heap s) (next_ref r) require_csn)
  /\ (forall g r, ref_heap s !! g = Some r -> require_csn > snd (csn_range r) ->
        scan_refs (length (ref_heap s)) (ref_heap s) (Some g) require_csn =
        Ret ScanReturnFalse)
  /\ (forall g r, first_ref s = Some g -> ref_heap s !! g = Some r ->
        require_csn > snd (csn_range r) ->
        get_bitmap s require_csn bitmap_result = Ret (false, bitmap_result))
  /\ ((forall g r, ref_heap s !! g = Some r -> require_csn < fst (csn_range r)) ->
        scan_refs (length (ref_heap s)) (ref_heap s) (first_ref s) require_csn =
        Ret (ScanStop None)
        /\ get_bitmap s require_csn bitmap_result = Ret (false, bitmap_result)).
Proof.
  intros Hreach. destruct (reachable_inv s Hreach) as [Hbo Hro Hgr Hhd].
  assert (forall g r, ref_heap s !! g = Some r -> require_csn > snd (csn_range r) ->
            scan_refs (length (ref_heap s)) (ref_heap s) (Some g) require_csn =
            Ret ScanReturnFalse) as Habove.
  { intros g r Hg Hhi. pose proof (lookup_lt_Some _ _ _ Hg) as Hl.
    destruct (length (ref_heap s)) as [|n]; [lia|]. simpl. rewrite Hg.
    pose proof (gk_range s r (Hgr g r Hg)) as Hrange.
    destruct (require_csn <? fst (csn_range r)) eqn:E1; [lia|].
    destruct (require_csn >? snd (csn_range r)) eqn:E2; [done|lia]. }
  split; [|split; [exact Habove|split]].
  - intros g r Hg Hlo. pose proof (lookup_lt_Some _ _ _ Hg) as Hl.
    rewrite (scan_refs_fuel _ _ _ (S (length (ref_heap s))) g Hro) by lia.
    rewrite (scan_refs_step _ _ _ _ r Hg).
    apply Z.ltb_lt in Hlo. by rewrite Hlo.
  - intros g r Hfirst Hg Hhi. unfold get_bitmap.
    by rewrite Hfirst, (Habove g r Hg Hhi).
  - intros Hlo.
    assert (scan_refs (length (ref_heap s)) (ref_heap s) (first_ref s) require_csn =
            Ret (ScanStop None)) as Hscan.
    { apply scan_refs_below; [done..|]. intros g Hg.
      pose proof (head_group_valid s g Hhd Hg). lia. }
    split; [done|]. unfold get_bitmap. by rewrite Hscan.
Qed.

(** ** The range update of insert_bitmap_content *)

Lemma ptr_eqb_eq a b : ptr_eqb (Some a) (Some b) = bool_decide (a = b).
Proof.
  unfold ptr_eqb. destruct (Nat.eqb_spec a b) as [->|Hne].
  - by rewrite bool_decide_eq_true_2.
  - by rewrite bool_decide_eq_false_2.
Qed.

(** The first loop stops at [b] and remembers the node just before it. *)
Lemma walk_to_chain h b fuel p front back st tc :
  chain fuel h p = front ++ b :: back -> b ∉ front ->
  walk_to fuel h p (Some b) st tc =
    Ret (match last front with
         | None => (st, tc)
         | Some d =>
             match h !! d with
             | Some nd => if materialized nd then (Some d, bitmap_csn nd)
                          else (None, -1)
             | None => (None, -1)
             end
         end).
Proof.
  revert fuel p st tc. induction front as [|f front IH]; intros fuel p st tc Hc Hn.
  - simpl in Hc. destruct p as [a|]; [|by destruct fuel].
    destruct fuel as [|fuel]; [discriminate|]. simpl in Hc.
    destruct (h !! a) as [nd|] eqn:Ha; [|discriminate].
    injection Hc as -> _. destruct fuel; simpl; rewrite ptr_eqb_eq;
      by rewrite bool_decide_eq_true_2.
  - simpl in Hc. destruct p as [a|]; [|by destruct fuel].
    destruct fuel as [|fuel]; [discriminate|]. simpl in Hc.
    destruct (h !! a) as [nd|] eqn:Ha; [|discriminate].
    injection Hc as -> Hc. apply not_elem_of_cons in Hn as [Hne Hn].
    simpl walk_to. rewrite ptr_eqb_eq, bool_decide_eq_false_2, Ha by done.
    destruct (compressed_bitmap nd) as [w|] eqn:Hw;
      rewrite (IH _ _ _ _ Hc Hn); f_equal;
      (destruct front as [|f' front];
        [simpl; rewrite Ha; unfold materialized; by rewrite Hw|]);
      (destruct (last (f' :: front)) eqn:Hl; [by rewrite last_cons, Hl|]);
      by apply last_None in Hl.
Qed.

(** C5, amended: when [insert_bitmap_content] materializes node [p] of a
    group, the group's [csn_range.second] becomes the maximum of its old
    value and the CSN of the node just before [p] in the chain from the
    head (the next newer delta) if that node is materialized (and its CSN
    is not -1), or the CSN of [p] itself otherwise. *)
Theorem C5_hi_update (s : BitmapController) (g b : nat) (img : list Z)
    (s' : BitmapController) (ok : bool) (r : BitmapRef) (front back : list nat) :
  reachable s ->
  insert_bitmap_content s (Some g) (Some b) img = Ret (s', ok) ->
  ref_heap s !! g = Some r ->
  group_chain s r = front ++ b :: back ->
  exists r' p,
    ref_heap s' !! g = Some r' /\ bmp_heap s !! b = Some p
    /\ fst (csn_range r') = fst (csn_range r)
    /\ snd (csn_range r') =
         Z.max (snd (csn_range r)) (hi_candidate s p (last front)).
Proof.
  intros Hreach Hrun Hg Hch.
  destruct (reachable_inv s Hreach) as [Hbo _ _ _].
  apply insert_bitmap_content_inv in Hrun
    as (g0 & b0 & r0 & nd & start & tc & bmps2 & Eg & Eb & Hg0 & Hb & Hw & _ & ->).
  injection Eg as <-. injection Eb as <-.
  assert (r0 = r) as -> by congruence.
  eexists _, nd. simpl.
  rewrite list_lookup_insert_eq by (by eapply lookup_lt_Some).
  split; [done|]. split; [done|]. simpl. split; [done|]. f_equal.
  set (bmps1 := <[b := _]> (bmp_heap s)) in Hw.
  assert (map shape bmps1 = map shape (bmp_heap s)) as Hsh
    by (apply (shape_insert _ b nd); [assumption | reflexivity]).
  assert (b ∉ front) as Hnotin by (by eapply chain_split_notin).
  unfold group_chain in Hch.
  rewrite <- (chain_shape _ _ bmps1 _ Hsh), <- (shape_length _ _ Hsh) in Hch.
  rewrite (walk_to_chain _ _ _ _ _ _ _ _ Hch Hnotin) in Hw.
  unfold hi_candidate. destruct (last front) as [d|] eqn:Hlast.
  - assert (d ≠ b) as Hdb.
    { intros ->. apply Hnotin. apply last_Some in Hlast as [l' ->].
      apply elem_of_app. right. by left. }
    unfold bmps1 in Hw. rewrite list_lookup_insert_ne in Hw by done.
    destruct (bmp_heap s !! d) as [nd'|].
    + destruct (materialized nd'); injection Hw as _ <-; simpl.
      * by destruct (bitmap_csn nd' =? -1) eqn:E.
      * done.
    + by injection Hw as _ <-.
  - by injection Hw as _ <-.
Qed.

(** ** The pointer loops end *)

(** In the reachable states the fuel of the pointer loops, the number of
    allocated nodes, is never used up: no call ends in [Timeout]. *)

Lemma scan_refs_ends refs csn fuel p :
  ref_ordered refs ->
  (forall g, p = Some g -> is_Some (refs !! g) -> (g < fuel)%nat) ->
  scan_refs fuel refs p csn <> Timeout.
Proof.
  intros Ho. revert p. induction fuel as [|fuel IH]; intros p Hp.
  - destruct p as [g|]; simpl; [|done].
    destruct (refs !! g) as [r|] eqn:Hg; [|done].
    specialize (Hp g eq_refl ltac:(by rewrite Hg)). lia.
  - destruct p as [g|]; simpl; [|done].
    destruct (refs !! g) as [r|] eqn:Hg; [|done].
    specialize (Hp g eq_refl ltac:(by rewrite Hg)).
    destruct (csn <? fst (csn_range r)).
    + apply IH. intros g' Hn _. pose proof (Ho g r g' Hg Hn). lia.
    + by destruct (csn >? snd (csn_range r)).
Qed.

Lemma scan_refs_selects refs csn fuel p g :
  scan_refs fuel refs p csn = Ret (ScanStop (Some g)) -> is_Some (refs !! g).
Proof.
  revert p. induction fuel as [|fuel IH]; intros p H.
  - destruct p as [g0|]; simpl in H; [|discriminate].
    destruct (refs !! g0); discriminate.
  - destruct p as [g0|]; simpl in H; [|discriminate].
    destruct (refs !! g0) as [r|] eqn:Hg; [|discriminate].
    destruct (csn <? fst (csn_range r)); [by eapply IH|].
    destruct (csn >? snd (csn_range r)); [discriminate|].
    injection H as <-. by rewrite Hg.
Qed.

Lemma scan_bitmaps_ends bmps csn out cb fuel p :
  bmp_ordered bmps ->
  (forall b, p = Some b -> is_Some (bmps !! b) -> (b < fuel)%nat) ->
  scan_bitmaps fuel bmps p csn out cb <> Timeout.
Proof.
  intros Ho. revert p. induction fuel as [|fuel IH]; intros p Hp.
  - destruct p as [b|]; simpl; [|done].
    destruct (bmps !! b) as [nd|] eqn:Hb; [|done].
    specialize (Hp b eq_refl ltac:(by rewrite Hb)). lia.
  - destruct p as [b|]; simpl; [|done].
    destruct (bmps !! b) as [nd|] eqn:Hb; [|done].
    specialize (Hp b eq_refl ltac:(by rewrite Hb)).
    destruct (csn =? bitmap_csn nd).
    + unfold decompress_call. destruct (compressed_bitmap nd); [|done].
      by destruct (decompress_in_bounds _ _ _ _).
    + apply IH. intros b' Hn _. pose proof (Ho b nd b' Hb Hn). lia.
Qed.

Theorem get_bitmap_ends s csn out :
  reachable s -> get_bitmap s csn out <> Timeout.
Proof.
  intros Hreach. destruct (reachable_inv s Hreach) as [Hbo Hro Hgr Hhd].
  unfold get_bitmap.
  destruct (scan_refs _ _ _ _) as [[|[g|]]| |] eqn:Hscan; simpl; try done.
  - apply scan_refs_selects in Hscan as [r Hg]. rewrite Hg. simpl.
    apply scan_bitmaps_ends; [done|]. intros b _ Hb. by apply lookup_lt_is_Some.
  - exfalso. revert Hscan. apply scan_refs_ends; [done|].
    intros g _ Hg. by apply lookup_lt_is_Some.
Qed.

Lemma walk_to_ends bmps b st tc fuel p :
  bmp_ordered bmps ->
  (forall a, p = Some a -> is_Some (bmps !! a) -> (a < fuel)%nat) ->
  walk_to fuel bmps p b st tc <> Timeout.
Proof.
  intros Ho. revert p st tc. induction fuel as [|fuel IH]; intros p st tc Hp.
  - destruct p as [a|]; simpl; [|done].
    destruct (ptr_eqb _ _); [done|].
    destruct (bmps !! a) as [nd|] eqn:Ha; [|done].
    specialize (Hp a eq_refl ltac:(by rewrite Ha)). lia.
  - destruct p as [a|]; simpl; [|done].
    destruct (ptr_eqb _ _); [done|].
    destruct (bmps !! a) as [nd|] eqn:Ha; [|done].
    specialize (Hp a eq_refl ltac:(by rewrite Ha)).
    destruct (compressed_bitmap nd); apply IH; intros a' Hn _;
      pose proof (Ho a nd a' Ha Hn); lia.
Qed.

Lemma propagate_ends bmps b fuel p :
  bmp_ordered bmps ->
  (forall a, p = Some a -> is_Some (bmps !! a) -> (a < fuel)%nat) ->
  propagate fuel bmps p b <> Timeout.
Proof.
  revert bmps p. induction fuel as [|fuel IH]; intros bmps p Ho Hp.
  - destruct p as [a|]; simpl; [|done].
    destruct (ptr_eqb _ _); [done|].
    destruct (bmps !! a) as [nd|] eqn:Ha; [|done].
    specialize (Hp a eq_refl ltac:(by rewrite Ha)). lia.
  - destruct p as [a|]; simpl; [|done].
    destruct (ptr_eqb _ _); [done|].
    destruct (bmps !! a) as [nd|] eqn:Ha; [|done].
    specialize (Hp a eq_refl ltac:(by rewrite Ha)).
    assert (exists o, deref bmps b = o /\ o <> Timeout) as (o & -> & Ho').
    { eexists. split; [reflexivity|]. unfold deref.
      destruct b as [b0|]; [|done]. by destruct (bmps !! b0). }
    destruct o as [pb| |]; simpl; try done.
    destruct (compressed_bitmap nd) as [wa|]; [|done].
    destruct (compressed_bitmap pb) as [wb|]; [|done].
    destruct (union_in_bounds wa wb); [|done].
    apply IH.
    + eapply bmp_ordered_shape; [|exact Ho]. by apply (shape_insert bmps a nd).
    + intros a' Hn _. pose proof (Ho a nd a' Ha Hn). lia.
Qed.

Theorem run_call_ends s c : reachable s -> run_call s c <> Timeout.
Proof.
  intros Hreach. destruct (reachable_inv s Hreach) as [Hbo Hro Hgr Hhd].
  destruct c as [new_csn img ref bitmap|ref bitmap img]; simpl.
  - unfold insert_null. destruct (_ =? _).
    + by destruct (_ <=? _)%nat.
    + destruct (first_ref s) as [g|]; [|done]. by destruct (ref_heap s !! g).
  - unfold insert_bitmap_content.
    destruct ref as [g|]; [|done]. destruct bitmap as [b|]; [|done].
    destruct (ref_heap s !! g) as [r|] eqn:Hg; [|done].
    destruct (bmp_heap s !! b) as [nd|] eqn:Hb; [|done].
    destruct (_ && _); [|done].
    destruct (compress_bitmap img (complete_bitmap r)) as [w c].
    unfold insert_locked. set (bmps1 := <[b := _]> (bmp_heap s)).
    assert (bmp_ordered bmps1) as Ho1.
    { eapply bmp_ordered_shape; [|exact Hbo]. by apply (shape_insert _ b nd). }
    destruct (walk_to _ _ _ _ _ _) as [[start tc]| |] eqn:Hw; simpl; try done.
    + destruct start as [a|]; [|done].
      destruct (propagate _ _ _ _) as [bmps2| |] eqn:Hp; simpl; try done.
      exfalso. revert Hp. apply propagate_ends; [done|].
      intros a' _ Ha'. by apply lookup_lt_is_Some.
    + exfalso. revert Hw. apply walk_to_ends; [done|].
      intros a' _ Ha'. by apply lookup_lt_is_Some.
Qed.

(** ** What get_bitmap does at the node it finds *)

(** The second loop of [get_bitmap] stops at the first node of the chain
    with the requested CSN and decodes its payload, whatever it is. *)
Lemma scan_bitmaps_chain h csn out cb fuel p front b back nd :
  chain fuel h p = front ++ b :: back ->
  (forall a nda, a ∈ front -> h !! a = Some nda -> bitmap_csn nda <> csn) ->
  h !! b = Some nd -> bitmap_csn nd = csn ->
  scan_bitmaps fuel h p csn out cb
  = (out' ← decompress_call out cb nd; Ret (true, out')).
Proof.
  revert fuel p. induction front as [|f front IH]; intros fuel p Hc Hne Hb Hcsn.
  - simpl in Hc. destruct p as [a|]; [|by destruct fuel].
    destruct fuel as [|fuel]; [discriminate|]. simpl in Hc.
    destruct (h !! a) as [nd0|] eqn:Ha; [|discriminate].
    injection Hc as -> _. simpl. rewrite Ha.
    assert (nd0 = nd) as -> by congruence.
    by rewrite Hcsn, Z.eqb_refl.
  - simpl in Hc. destruct p as [a|]; [|by destruct fuel].
    destruct fuel as [|fuel]; [discriminate|]. simpl in Hc.
    destruct (h !! a) as [nd0|] eqn:Ha; [|discriminate].
    injection Hc as -> Hc. simpl. rewrite Ha.
    assert (bitmap_csn nd0 <> csn) as Hn0
      by (apply (Hne f nd0); [by left | done]).
    destruct (csn =? bitmap_csn nd0) eqn:E; [lia|].
    apply IH; [done| |done..].
    intros a nda Hin. apply Hne. by right.
Qed.

(** On the code, reaching a placeholder with the requested CSN is a null
    dereference in every state: [get_bitmap] never answers false
    there. *)
Theorem get_bitmap_placeholder_faults s csn out g r front b back nd :
  scan_refs (length (ref_heap s)) (ref_heap s) (first_ref s) csn
    = Ret (ScanStop (Some g)) ->
  ref_heap s !! g = Some r ->
  group_chain s r = front ++ b :: back ->
  (forall a nda, a ∈ front -> bmp_heap s !! a = Some nda -> bitmap_csn nda <> csn) ->
  bmp_heap s !! b = Some nd -> bitmap_csn nd = csn ->
  compressed_bitmap nd = None ->
  get_bitmap s csn out = Fault NullDeref.
Proof.
  intros Hscan Hg Hch Hne Hb Hcsn Hnull. unfold get_bitmap.
  rewrite Hscan. simpl. rewrite Hg. simpl.
  rewrite (scan_bitmaps_chain _ _ _ _ _ _ _ _ _ _ Hch Hne Hb Hcsn).
  unfold decompress_call. by rewrite Hnull.
Qed.

(** And a materialized node with the requested CSN is decoded against the
    reference of its group. *)
Theorem get_bitmap_found s csn out g r front b back nd w :
  scan_refs (length (ref_heap s)) (ref_heap s) (first_ref s) csn
    = Ret (ScanStop (Some g)) ->
  ref_heap s !! g = Some r ->
  group_chain s r = front ++ b :: back ->
  (forall a nda, a ∈ front -> bmp_heap s !! a = Some nda -> bitmap_csn nda <> csn) ->
  bmp_heap s !! b = Some nd -> bitmap_csn nd = csn ->
  compressed_bitmap nd = Some w ->
  decompress_in_bounds out (complete_bitmap r) w (is_compressed nd) = true ->
  get_bitmap s csn out
  = Ret (true, decompress_bitmap out (complete_bitmap r) w (is_compressed nd)).
Proof.
  intros Hscan Hg Hch Hne Hb Hcsn Hw Hin. unfold get_bitmap.
  rewrite Hscan. simpl. rewrite Hg. simpl.
  rewrite (scan_bitmaps_chain _ _ _ _ _ _ _ _ _ _ Hch Hne Hb Hcsn).
  unfold decompress_call. by rewrite Hw, Hin.
Qed.

(** ** The loops as traversals *)

Lemma rd_app_r (pre l : list Z) i : rd (pre ++ l) (length pre + i) = rd l i.
Proof. unfold rd. by rewrite app_nth2_plus. Qed.

Lemma rd_middle (pre l : list Z) x : rd (pre ++ x :: l) (length pre) = x.
Proof. by rewrite <- (Nat.add_0_r (length pre)), rd_app_r. Qed.

Lemma fold_seq_idx {A} (f : nat -> Z -> A -> A) (pre l : list Z) (acc : A) :
  fold_left (fun acc i => f i (rd (pre ++ l) i) acc) (seq (length pre) (length l)) acc
  = fold_idx f (length pre) l acc.
Proof.
  revert pre acc. induction l as [|t l IH]; intros pre acc; simpl; [done|].
  rewrite rd_middle.
  replace (pre ++ t :: l) with ((pre ++ [t]) ++ l) by (by rewrite <- app_assoc).
  replace (S (length pre)) with (length (pre ++ [t]))
    by (rewrite length_app; simpl; lia).
  apply IH.
Qed.

Lemma fold_seq_idx_0 {A} (f : nat -> Z -> A -> A) (l : list Z) (acc : A) :
  fold_left (fun acc i => f i (rd l i) acc) (seq 0 (length l)) acc
  = fold_idx f 0 l acc.
Proof. apply (fold_seq_idx f [] l). Qed.

Lemma xor_function_zip a b :
  length a = BITMAP_SIZE -> length b = BITMAP_SIZE ->
  xor_function a b = zip_with Z.lxor a b.
Proof.
  unfold xor_function. generalize BITMAP_SIZE. intros n. revert a b.
  induction n as [|n IH]; intros a b Ha Hb.
  - by destruct a, b.
  - destruct a as [|x a], b as [|y b]; try discriminate.
    simpl. f_equal. rewrite <- seq_shift, map_map. apply IH; simpl in *; lia.
Qed.

Lemma pack_dense_fast b :
  length b = BITMAP_SIZE -> pack_dense b = pack_fast b.
Proof.
  unfold pack_dense. intros Hb.
  assert (length b = (2 * (BITMAP_SIZE / 2))%nat) as Hl by (rewrite Hb; reflexivity).
  clear Hb. revert Hl. generalize (BITMAP_SIZE / 2)%nat. intros k. revert b.
  induction k as [|k IH]; intros b Hl.
  - by destruct b.
  - destruct b as [|x [|y b]]; simpl in Hl; try lia.
    change (seq 0 (S k)) with (0%nat :: seq 1 k).
    rewrite <- seq_shift. cbn [map pack_fast]. rewrite map_map. f_equal.
    rewrite <- IH by lia.
    apply map_ext. intros i. replace (2 * S i)%nat with (S (S (2 * i))) by lia.
    reflexivity.
Qed.

(** [compress_bitmap] on arrays of [BITMAP_SIZE] bytes. *)
Lemma compress_bitmap_fast B R :
  length B = BITMAP_SIZE -> length R = BITMAP_SIZE ->
  compress_bitmap B R = compress_fast B R.
Proof.
  intros HB HR. unfold compress_bitmap, compress_fast.
  rewrite (xor_function_zip B R HB HR), (pack_dense_fast B HB).
  assert (length (zip_with Z.lxor B R) = BITMAP_SIZE) as Hl
    by (rewrite length_zip_with; lia).
  unfold count_bits, emit_positions. rewrite <- Hl.
  rewrite (fold_seq_idx_0 (fun _ t c => count_byte t c)).
  by rewrite (fold_seq_idx_0 emit_byte).
Qed.

Lemma undense_steps w pre rest wpre wrest k :
  w = wpre ++ wrest -> length pre = (2 * length wpre)%nat ->
  length wrest = k -> length rest = (2 * k)%nat ->
  fold_left (undense_step w) (seq (length wpre) k) (pre ++ rest)
  = pre ++ undense_fast rest wrest.
Proof.
  intros ->. revert pre rest wpre wrest.
  induction k as [|k IH]; intros pre rest wpre wrest Hp Hw Hr.
  - destruct rest; [|discriminate]. by destruct wrest.
  - destruct rest as [|x [|y rest]]; simpl in Hr; try lia.
    destruct wrest as [|c wrest]; [discriminate|]. simpl in Hw.
    simpl seq. simpl fold_left. unfold undense_step at 2.
    rewrite <- Hp, rd_middle.
    assert (<[length pre := wrap8 (Z.lxor x (Z.land (rd (wpre ++ c :: wrest) (length wpre)) 255))]>
              (pre ++ x :: y :: rest)
            = pre ++ wrap8 (Z.lxor x (Z.land c 255)) :: y :: rest) as ->.
    { rewrite rd_middle.
      rewrite <- (Nat.add_0_r (length pre)) at 1. by rewrite insert_app_r. }
    set (x' := wrap8 (Z.lxor x (Z.land c 255))).
    replace (length pre + 1)%nat with (length (pre ++ [x'])) at 1 2
      by (rewrite length_app; simpl; lia).
    replace (pre ++ x' :: y :: rest) with ((pre ++ [x']) ++ y :: rest)
      by (by rewrite <- app_assoc).
    rewrite rd_middle, rd_middle.
    rewrite <- (Nat.add_0_r (length (pre ++ [x']))) at 1. rewrite insert_app_r.
    simpl. set (y' := wrap8 (Z.lxor y _)).
    replace ((pre ++ [x']) ++ y' :: rest) with ((pre ++ [x'; y']) ++ rest)
      by (by rewrite <- !app_assoc).
    replace (wpre ++ c :: wrest) with ((wpre ++ [c]) ++ wrest)
      by (by rewrite <- app_assoc).
    replace (S (length wpre)) with (length (wpre ++ [c]))
      by (rewrite length_app; simpl; lia).
    rewrite IH.
    + by rewrite <- !app_assoc.
    + rewrite !length_app. simpl. lia.
    + lia.
    + lia.
Qed.

(** The dense branch of [decompress_bitmap]. *)
Lemma decompress_dense_fast out R w :
  length out = BITMAP_SIZE -> length R = BITMAP_SIZE ->
  length w = (BITMAP_SIZE / 2)%nat ->
  decompress_bitmap out R w false = undense_fast R w.
Proof.
  intros Ho HR Hw. unfold decompress_bitmap, memcpy. simpl negb. cbv iota.
  replace (take BITMAP_SIZE R) with R
    by (rewrite <- HR; symmetry; apply firstn_all).
  replace (drop BITMAP_SIZE out) with (@nil Z)
    by (symmetry; apply drop_ge; lia).
  rewrite app_nil_r.
  apply (undense_steps w [] R [] w (BITMAP_SIZE / 2) eq_refl eq_refl Hw).
  rewrite HR. vm_compute. reflexivity.
Qed.

(** ** What the dense branch of the decoder returns *)

Lemma undense_pack k R B :
  length R = (2 * k)%nat -> length B = (2 * k)%nat ->
  Forall (fun x => 0 <= x < 256) R -> Forall (fun x => 0 <= x < 256) B ->
  undense_fast R (pack_fast B) = zip_with Z.lxor R B.
Proof.
  revert R B. induction k as [|k IH]; intros R B HR HB FR FB.
  - by destruct R, B.
  - destruct R as [|x [|y R]]; simpl in HR; try lia.
    destruct B as [|b0 [|b1 B]]; simpl in HB; try lia.
    inversion FR as [|? ? Hx FR1]; subst. inversion FR1 as [|? ? Hy FR2]; subst.
    inversion FB as [|? ? H0 FB1]; subst. inversion FB1 as [|? ? H1 FB2]; subst.
    cbn [pack_fast undense_fast zip_with].
    rewrite pack_word, unpack_low, unpack_high by done.
    unfold wrap8.
    rewrite !Z.mod_small by (by apply byte_lxor_range).
    f_equal. f_equal. apply IH; [lia|lia|done..].
Qed.

(** The decoder XORs the dense payload onto the reference: for the
    payload [compress_bitmap] makes of [B] it returns [R XOR B], the
    bytewise XOR of reference and original, not [B]. *)
Theorem decompress_dense_spec (out B R : list Z) :
  length out = BITMAP_SIZE -> is_bitmap B = true -> is_bitmap R = true ->
  decompress_bitmap out R (pack_dense B) false = xor_function R B.
Proof.
  intros Ho HB HR.
  pose proof (is_bitmap_length _ HB) as HlB.
  pose proof (is_bitmap_length _ HR) as HlR.
  rewrite (xor_function_zip R B HlR HlB), (pack_dense_fast B HlB).
  assert (length B = (2 * (BITMAP_SIZE / 2))%nat) as HB2
    by (rewrite HlB; vm_compute; reflexivity).
  rewrite decompress_dense_fast; [|done..|].
  - apply (undense_pack (BITMAP_SIZE / 2)); [congruence|done|..];
      by apply is_bitmap_Forall.
  - rewrite <- (pack_dense_fast B HlB). unfold pack_dense.
    by rewrite length_map, length_seq.
Qed.

(** What a dense round trip returns: reference XOR original. *)
Theorem roundtrip_dense (out B R : list Z) :
  length out = BITMAP_SIZE -> is_bitmap B = true -> is_bitmap R = true ->
  snd (compress_bitmap B R) = false ->
  decompress_bitmap out R (fst (compress_bitmap B R)) (snd (compress_bitmap B R))
  = xor_function R B.
Proof.
  intros Ho HB HR. unfold compress_bitmap.
  destruct (_ >=? _); [|discriminate]. intros _. cbn [fst snd].
  by apply decompress_dense_spec.
Qed.

Lemma xor_fixed R B :
  length R = length B -> zip_with Z.lxor R B = B -> R = repeat 0 (length R).
Proof.
  revert B. induction R as [|r R IH]; intros [|b B] Hl H; try discriminate; [done|].
  simpl in *. injection H as Hr H. f_equal; [|apply (IH B); [lia|done]].
  apply (f_equal (fun z => Z.lxor z b)) in Hr.
  by rewrite Z.lxor_assoc, !Z.lxor_nilpotent, Z.lxor_0_r in Hr.
Qed.

(** So the dense round trip gives back the original on the all-zero
    reference only. *)
Theorem roundtrip_dense_iff (out B R : list Z) :
  length out = BITMAP_SIZE -> is_bitmap B = true -> is_bitmap R = true ->
  snd (compress_bitmap B R) = false ->
  decompress_bitmap out R (fst (compress_bitmap B R)) (snd (compress_bitmap B R)) = B
  <-> R = bitmap_zero.
Proof.
  intros Ho HB HR Hd. rewrite (roundtrip_dense out B R Ho HB HR Hd).
  pose proof (is_bitmap_length _ HB) as HlB.
  pose proof (is_bitmap_length _ HR) as HlR.
  rewrite (xor_function_zip R B HlR HlB). unfold bitmap_zero. split.
  - intros H. rewrite <- HlR. apply (xor_fixed R B); [lia|done].
  - intros ->. rewrite <- HlB. clear. induction B as [|b B IH]; simpl; [done|].
    by rewrite IH.
Qed.

(** ** The sparse round trip *)

Lemma fold_idx_const {A} (g : A -> Z -> A) i (l : list Z) (acc : A) :
  fold_idx (fun _ t acc => g acc t) i l acc = fold_left g l acc.
Proof. revert i acc. induction l as [|t l IH]; intros i acc; simpl; [done|apply IH]. Qed.

(** The sparse loop of the decoder toggles the listed positions in
    order. *)
Lemma toggle_steps c ps r :
  fold_left (toggle_step (c :: ps)) (seq 1 (length ps)) r = fold_left toggle_pos ps r.
Proof.
  pose proof (fold_seq_idx (fun _ t acc => toggle_pos acc t) [c] ps r) as H.
  rewrite fold_idx_const in H. exact H.
Qed.

Lemma toggle_pos_bit r i j :
  (j <= 7)%nat ->
  toggle_pos r (Z.of_nat (8 * i + j))
  = <[i := wrap8 (Z.lxor (rd r i) (Z.shiftl 1 (7 - Z.of_nat j)))]> r.
Proof.
  intros Hj. unfold toggle_pos.
  assert (Z.quot (Z.of_nat (8 * i + j)) 8 = Z.of_nat i) as ->
    by (symmetry; apply (Z.quot_unique _ _ _ (Z.of_nat j)); lia).
  assert (Z.rem (Z.of_nat (8 * i + j)) 8 = Z.of_nat j) as ->
    by (symmetry; apply (Z.rem_unique _ _ (Z.of_nat i)); lia).
  by rewrite Nat2Z.id.
Qed.

Lemma lookup_rd (r : list Z) i : (i < length r)%nat -> r !! i = Some (rd r i).
Proof.
  intros Hi. destruct (lookup_lt_is_Some_2 r i Hi) as [x Hx].
  unfold rd. by rewrite nth_lookup, Hx.
Qed.

Lemma rd_insert (r : list Z) i x : (i < length r)%nat -> rd (<[i := x]> r) i = x.
Proof.
  intros Hi. unfold rd. by rewrite nth_lookup, list_lookup_insert_eq.
Qed.

(** All the toggles inside one byte. *)
Lemma toggle_byte r i js :
  (i < length r)%nat -> Forall (fun j => (j <= 7)%nat) js ->
  fold_left toggle_pos (map (fun j => Z.of_nat (8 * i + j)) js) r
  = <[i := fold_left (fun v j => wrap8 (Z.lxor v (Z.shiftl 1 (7 - Z.of_nat j))))
                     js (rd r i)]> r.
Proof.
  intros Hi Hjs. revert r Hi. induction Hjs as [|j js Hj Hjs IH]; intros r Hi.
  - simpl. symmetry. by apply list_insert_id, lookup_rd.
  - cbn [map fold_left]. rewrite toggle_pos_bit by done.
    rewrite IH by (by rewrite length_insert).
    by rewrite list_insert_insert_eq, rd_insert.
Qed.

Lemma mask_range j : (j <= 7)%nat -> 0 <= Z.shiftl 1 (7 - Z.of_nat j) < 256.
Proof.
  intros Hj. rewrite Z.shiftl_1_l.
  assert (0 < 2 ^ (7 - Z.of_nat j)) by (apply Z.pow_pos_nonneg; lia).
  assert (2 ^ (7 - Z.of_nat j) <= 2 ^ 7) by (apply Z.pow_le_mono_r; lia).
  lia.
Qed.

(** XORing masks onto [m] one by one is XORing their XOR onto [m]. *)
Lemma mask_fold js :
  Forall (fun j => (j <= 7)%nat) js ->
  forall m, 0 <= m < 256 ->
    fold_left (fun m j => Z.lxor m (Z.shiftl 1 (7 - Z.of_nat j))) js m
    = Z.lxor m (fold_left (fun m j => Z.lxor m (Z.shiftl 1 (7 - Z.of_nat j))) js 0)
    /\ 0 <= fold_left (fun m j => Z.lxor m (Z.shiftl 1 (7 - Z.of_nat j))) js 0 < 256.
Proof.
  induction 1 as [|j js Hj Hjs IH]; intros m Hm; cbn [fold_left].
  - rewrite Z.lxor_0_r. lia.
  - rewrite Z.lxor_0_l. pose proof (mask_range j Hj) as Hk.
    destruct (IH (Z.lxor m (Z.shiftl 1 (7 - Z.of_nat j)))
                ltac:(by apply byte_lxor_range)) as [E1 _].
    destruct (IH (Z.shiftl 1 (7 - Z.of_nat j)) Hk) as [E2 R2].
    rewrite E1, E2. split; [by rewrite Z.lxor_assoc|].
    by apply byte_lxor_range.
Qed.

Lemma toggle_fold js :
  Forall (fun j => (j <= 7)%nat) js ->
  forall v, 0 <= v < 256 ->
    fold_left (fun v j => wrap8 (Z.lxor v (Z.shiftl 1 (7 - Z.of_nat j)))) js v
    = fold_left (fun m j => Z.lxor m (Z.shiftl 1 (7 - Z.of_nat j))) js v.
Proof.
  induction 1 as [|j js Hj Hjs IH]; intros v Hv; simpl; [done|].
  pose proof (byte_lxor_range v _ Hv (mask_range j Hj)) as Hr.
  unfold wrap8 at 2. rewrite Z.mod_small by done. by apply IH.
Qed.

(** The masks of the set bits of a byte XOR to the byte. *)
Lemma mask_sum t :
  0 <= t < 256 ->
  fold_left (fun m j => Z.lxor m (Z.shiftl 1 (7 - Z.of_nat j)))
            (List.filter (fun j => Z.testbit t (7 - Z.of_nat j)) (seq 0 8)) 0 = t.
Proof.
  intros Ht. apply Z.eqb_eq. revert t Ht. apply byte_cases.
  vm_compute. reflexivity.
Qed.

Lemma filter_le_7 (P : nat -> bool) :
  Forall (fun j => (j <= 7)%nat) (List.filter P (seq 0 8)).
Proof.
  apply Forall_forall. intros j Hj. apply list_elem_of_In, filter_In in Hj as [Hj _].
  apply in_seq in Hj. lia.
Qed.

(** Toggling the positions of the set bits of [t] inside byte [i]
    XORs [t] onto that byte. *)
Lemma toggle_byte_xor r i t :
  (i < length r)%nat -> 0 <= rd r i < 256 -> 0 <= t < 256 ->
  fold_left toggle_pos
    (map Z.of_nat
       (map (fun j => 8 * i + j)%nat
            (List.filter (fun j => Z.testbit t (7 - Z.of_nat j)) (seq 0 8)))) r
  = <[i := Z.lxor (rd r i) t]> r.
Proof.
  intros Hi Hv Ht. rewrite map_map.
  rewrite (toggle_byte r i _ Hi (filter_le_7 _)).
  rewrite (toggle_fold _ (filter_le_7 _) _ Hv).
  destruct (mask_fold _ (filter_le_7 (fun j => Z.testbit t (7 - Z.of_nat j)))
              _ Hv) as [-> _].
  by rewrite mask_sum.
Qed.

Lemma fold_flat_map {A B C} (f : A -> B -> A) (g : C -> list B) (l : list C) (a : A) :
  fold_left f (flat_map g l) a = fold_left (fun a x => fold_left f (g x) a) l a.
Proof.
  revert a. induction l as [|x l IH]; intros a; simpl; [done|].
  by rewrite fold_left_app, IH.
Qed.

Lemma map_flat_map {A B C} (f : B -> C) (g : A -> list B) (l : list A) :
  map f (flat_map g l) = flat_map (fun x => map f (g x)) l.
Proof. induction l as [|x l IH]; simpl; [done|]. by rewrite map_app, IH. Qed.

Lemma fold_left_inv_ext {A B} (P : A -> Prop) (f g : A -> B -> A) (l : list B) a :
  P a -> (forall x y, P x -> y ∈ l -> f x y = g x y /\ P (g x y)) ->
  fold_left f l a = fold_left g l a.
Proof.
  revert a. induction l as [|y l IH]; intros a Ha H; simpl; [done|].
  destruct (H a y Ha ltac:(by left)) as [-> Hg].
  apply IH; [done|]. intros x y' Hx Hy. apply H; [done|by right].
Qed.

Lemma insert_middle (pre l : list Z) x y :
  <[length pre := y]> (pre ++ x :: l) = pre ++ y :: l.
Proof. by rewrite insert_app_r_alt, Nat.sub_diag by lia. Qed.

(** XORing [t[i]] onto [r[i]] for every index in turn. *)
Lemma xor_onto pre rest tpre trest :
  length tpre = length pre -> length trest = length rest ->
  fold_left (fun r i => <[i := Z.lxor (rd r i) (rd (tpre ++ trest) i)]> r)
            (seq (length pre) (length rest)) (pre ++ rest)
  = pre ++ zip_with Z.lxor rest trest.
Proof.
  revert pre tpre trest. induction rest as [|x rest IH];
    intros pre tpre trest Hp Hr.
  - destruct trest; [|discriminate]. done.
  - destruct trest as [|t trest]; [discriminate|]. simpl in Hr.
    cbn [length seq fold_left zip_with].
    rewrite rd_middle.
    replace (rd (tpre ++ t :: trest) (length pre)) with t
      by (rewrite <- Hp; symmetry; apply rd_middle).
    rewrite insert_middle.
    replace (pre ++ Z.lxor x t :: rest) with ((pre ++ [Z.lxor x t]) ++ rest)
      by (by rewrite <- app_assoc).
    replace (tpre ++ t :: trest) with ((tpre ++ [t]) ++ trest)
      by (by rewrite <- app_assoc).
    replace (S (length pre)) with (length (pre ++ [Z.lxor x t]))
      by (rewrite length_app; simpl; lia).
    rewrite IH; [by rewrite <- app_assoc | rewrite !length_app; simpl; lia | lia].
Qed.

Lemma xor_cancel B R :
  length B = length R -> zip_with Z.lxor R (zip_with Z.lxor B R) = B.
Proof.
  revert R. induction B as [|b B IH]; intros [|x R] Hl; try discriminate; [done|].
  simpl. rewrite IH by (simpl in Hl; lia). f_equal.
  by rewrite (Z.lxor_comm b x), <- Z.lxor_assoc, Z.lxor_nilpotent, Z.lxor_0_l.
Qed.

(** C2 holds for the sparse outcome: what [compress_bitmap] emits as a
    sparse payload, [decompress_bitmap] turns back into the original. *)
Theorem roundtrip_sparse (out B R : list Z) :
  length out = BITMAP_SIZE -> is_bitmap B = true -> is_bitmap R = true ->
  snd (compress_bitmap B R) = true ->
  decompress_bitmap out R (fst (compress_bitmap B R)) (snd (compress_bitmap B R)) = B.
Proof.
  intros Ho HB HR. rewrite (compress_bitmap_spec B R HB).
  destruct (_ >=? 468); [discriminate|]. intros _. cbn [fst snd].
  pose proof (is_bitmap_length _ HB) as HlB.
  pose proof (is_bitmap_length _ HR) as HlR.
  unfold decompress_bitmap, memcpy. cbn [negb]. cbv iota.
  replace (take BITMAP_SIZE R) with R
    by (rewrite <- HlR; symmetry; apply firstn_all).
  replace (drop BITMAP_SIZE out) with (@nil Z)
    by (symmetry; apply drop_ge; lia).
  rewrite app_nil_r, rd_head, Nat2Z.id.
  rewrite <- (length_map Z.of_nat (diff_positions B R)), toggle_steps.
  rewrite diff_positions_bytes, map_flat_map, fold_flat_map.
  pose proof (is_bitmap_inv _ HB) as [_ HbB].
  pose proof (is_bitmap_inv _ HR) as [_ HbR].
  rewrite (fold_left_inv_ext
             (fun r => length r = BITMAP_SIZE /\ Forall (fun x => 0 <= x < 256) r)
             _ (fun r i => <[i := Z.lxor (rd r i) (rd (xor_function B R) i)]> r)).
  - assert (length (xor_function B R) = length R) as Hlx
      by (unfold xor_function; rewrite length_map, length_seq; lia).
    pose proof (xor_onto [] R [] (xor_function B R) eq_refl Hlx) as Hx.
    rewrite !app_nil_l in Hx. change (length (@nil Z)) with 0%nat in Hx.
    rewrite HlR in Hx. rewrite Hx.
    rewrite (xor_function_zip B R HlB HlR). apply xor_cancel. lia.
  - split; [done|]. by apply is_bitmap_Forall.
  - intros r i [Hlr Hbr] Hi. apply elem_of_seq in Hi.
    assert (0 <= rd r i < 256) as Hri.
    { apply (Forall_lookup_1 _ _ i (rd r i)) in Hbr; [done|].
      apply lookup_rd. lia. }
    assert (0 <= rd (xor_function B R) i < 256) as Hti.
    { rewrite xor_function_rd by lia. by apply byte_lxor_range. }
    split.
    + apply toggle_byte_xor; [lia|done..].
    + split; [by rewrite length_insert|].
      apply Forall_insert; [done|]. by apply byte_lxor_range.
Qed.

(** ** Evaluating calls on the examples *)

Lemma count_bits_fast B R :
  length B = BITMAP_SIZE -> length R = BITMAP_SIZE ->
  count_bits (xor_function B R)
  = fold_idx (fun _ t c => count_byte t c) 0 (zip_with Z.lxor B R) 0.
Proof.
  intros HB HR. rewrite (xor_function_zip B R HB HR).
  assert (length (zip_with Z.lxor B R) = BITMAP_SIZE) as Hl
    by (rewrite length_zip_with; lia).
  unfold count_bits. rewrite <- Hl.
  by rewrite (fold_seq_idx_0 (fun _ t c => count_byte t c)).
Qed.

(** [insert_bitmap_content] on valid handles: the compression, then the
    locked part. *)
Lemma insert_bitmap_content_run s g b r nd img w c :
  ref_heap s !! g = Some r -> bmp_heap s !! b = Some nd ->
  is_bitmap img = true -> is_bitmap (complete_bitmap r) = true ->
  compress_fast img (complete_bitmap r) = (w, c) ->
  insert_bitmap_content s (Some g) (Some b) img = insert_locked s g b r nd w c.
Proof.
  intros Hg Hb Hi Hr Hc. unfold insert_bitmap_content. rewrite Hg, Hb.
  apply is_bitmap_length in Hi, Hr.
  rewrite (compress_bitmap_fast _ _ Hi Hr), Hc, Hi, Hr, Nat.leb_refl.
  reflexivity.
Qed.

(** [get_bitmap] for the CSN of the newest node of the newest group. *)
Lemma get_bitmap_head s csn out g r b nd w :
  first_ref s = Some g -> ref_heap s !! g = Some r ->
  (csn <? fst (csn_range r)) = false -> (csn >? snd (csn_range r)) = false ->
  first_compressed_bitmap r = Some b -> bmp_heap s !! b = Some nd ->
  (csn =? bitmap_csn nd) = true ->
  compressed_bitmap nd = Some w ->
  decompress_in_bounds out (complete_bitmap r) w (is_compressed nd) = true ->
  get_bitmap s csn out
  = Ret (true, decompress_bitmap out (complete_bitmap r) w (is_compressed nd)).
Proof.
  intros Hf Hg Hlo Hhi Hfb Hb Hcsn Hw Hin. unfold get_bitmap. rewrite Hf.
  pose proof (lookup_lt_Some _ _ _ Hg) as Hlg.
  pose proof (lookup_lt_Some _ _ _ Hb) as Hlb.
  destruct (length (ref_heap s)) as [|n]; [lia|].
  rewrite (scan_refs_step _ _ _ _ r Hg), Hlo, Hhi. simpl. rewrite Hg. simpl.
  rewrite Hfb. destruct (length (bmp_heap s)) as [|m]; [lia|].
  simpl. rewrite Hb, Hcsn. unfold decompress_call. rewrite Hw, Hin. reflexivity.
Qed.

Lemma run_calls_snoc s cs c :
  run_calls s (cs ++ [c]) = (s' ← run_calls s cs; run_call s' c).
Proof.
  revert s. induction cs as [|c0 cs IH]; intros s; simpl.
  - by destruct (run_call s c).
  - destruct (run_call s c0) as [s0| |]; simpl; [apply IH|done..].
Qed.

Lemma reachable_run_calls s cs s' :
  reachable s -> forallb call_ok cs = true -> run_calls s cs = Ret s' ->
  reachable s'.
Proof.
  revert s. induction cs as [|c cs IH]; intros s Hs Hok Hrun; simpl in *.
  - congruence.
  - apply andb_true_iff in Hok as [Hc Hok]. inv_bind Hrun.
    eapply IH; [|done..]. by eapply reachable_call.
Qed.

Lemma bitmaps_ok :
  is_bitmap bitmap_zero = true /\ is_bitmap bitmap_ff = true
  /\ is_bitmap bitmap_bit10 = true /\ is_bitmap bitmap_bit20 = true
  /\ is_bitmap bitmap_468 = true.
Proof. repeat split; vm_compute; reflexivity. Qed.

Lemma run_full_group : run_calls init calls_full_group = Ret st_full_group.
Proof. vm_cast_no_check (eq_refl (Ret st_full_group)). Qed.

Lemma run_two_pending : run_calls init calls_two_pending = Ret st_two_pending.
Proof. vm_cast_no_check (eq_refl (Ret st_two_pending)). Qed.

Lemma insert_content_2 :
  insert_bitmap_content st_two_pending (Some 0%nat) (Some 2%nat) bitmap_bit20
  = Ret (st_newer_first, true).
Proof.
  rewrite (insert_bitmap_content_run st_two_pending 0 2 (group_zero 1 0 2)
             (placeholder_node 2 1) bitmap_bit20 [1; 20] true);
    [ vm_cast_no_check (eq_refl (Ret (st_newer_first, true)))
    | reflexivity | reflexivity | apply bitmaps_ok | apply bitmaps_ok
    | vm_cast_no_check (eq_refl ([1; 20], true)) ].
Qed.

Lemma insert_content_1 :
  insert_bitmap_content st_newer_first (Some 0%nat) (Some 1%nat) bitmap_bit10
  = Ret (st_both, true).
Proof.
  rewrite (insert_bitmap_content_run st_newer_first 0 1 (group_zero 2 2 2)
             (placeholder_node 1 0) bitmap_bit10 [1; 10] true);
    [ vm_cast_no_check (eq_refl (Ret (st_both, true)))
    | reflexivity | reflexivity | apply bitmaps_ok | apply bitmaps_ok
    | vm_cast_no_check (eq_refl ([1; 10], true)) ].
Qed.

Lemma run_dense_pending : run_calls init calls_dense_pending = Ret st_dense_pending.
Proof. vm_cast_no_check (eq_refl (Ret st_dense_pending)). Qed.

Lemma insert_dense_content :
  insert_bitmap_content st_dense_pending (Some 0%nat) (Some 1%nat) bitmap_zero
  = Ret (st_dense, true).
Proof.
  rewrite (insert_bitmap_content_run st_dense_pending 0 1 (group_ff 1 0 1)
             (placeholder_node 1 0) bitmap_zero (repeat 0 (BITMAP_SIZE / 2)) false);
    [ vm_cast_no_check (eq_refl (Ret (st_dense, true)))
    | reflexivity | reflexivity | apply bitmaps_ok | apply bitmaps_ok
    | vm_cast_no_check (eq_refl (repeat 0 (BITMAP_SIZE / 2), false)) ].
Qed.

Lemma run_content_2 : run_call st_two_pending call_content_2 = Ret st_newer_first.
Proof. unfold run_call, call_content_2. by rewrite insert_content_2. Qed.

Lemma run_content_1 : run_call st_newer_first call_content_1 = Ret st_both.
Proof. unfold run_call, call_content_1. by rewrite insert_content_1. Qed.

Lemma run_dense_content :
  run_call st_dense_pending call_dense_content = Ret st_dense.
Proof. unfold run_call, call_dense_content. by rewrite insert_dense_content. Qed.

Lemma run_dense :
  run_calls init (calls_dense_pending ++ [call_dense_content]) = Ret st_dense.
Proof. rewrite run_calls_snoc, run_dense_pending. apply run_dense_content. Qed.

Lemma reachable_full_group : reachable st_full_group.
Proof.
  apply (reachable_run_calls init calls_full_group);
    [apply reachable_init | vm_compute; reflexivity | apply run_full_group].
Qed.

Lemma reachable_two_pending : reachable st_two_pending.
Proof.
  apply (reachable_run_calls init calls_two_pending);
    [apply reachable_init | vm_compute; reflexivity | apply run_two_pending].
Qed.

Lemma reachable_newer_first : reachable st_newer_first.
Proof.
  apply (reachable_call st_two_pending call_content_2);
    [apply reachable_two_pending | apply bitmaps_ok | apply run_content_2].
Qed.

Lemma reachable_both : reachable st_both.
Proof.
  apply (reachable_call st_newer_first call_content_1);
    [apply reachable_newer_first | apply bitmaps_ok | apply run_content_1].
Qed.

Lemma reachable_dense : reachable st_dense.
Proof.
  apply (reachable_call st_dense_pending call_dense_content);
    [|apply bitmaps_ok | apply run_dense_content].
  apply (reachable_run_calls init calls_dense_pending);
    [apply reachable_init | vm_compute; reflexivity | apply run_dense_pending].
Qed.

(** ** The claims on the examples *)

Lemma C3_encoding_choice_witness :
  is_bitmap bitmap_bit10 = true /\ is_bitmap bitmap_zero = true
  /\ Z.quot (Z.of_nat BITMAP_SIZE) 16 = 468
  /\ ascending (map Z.of_nat (diff_positions bitmap_bit10 bitmap_zero)) = true
  /\ compress_bitmap bitmap_bit10 bitmap_zero =
       if Z.of_nat (length (diff_positions bitmap_bit10 bitmap_zero)) >=? 468
       then (map (packed_word bitmap_bit10) (seq 0 (BITMAP_SIZE / 2)), false)
       else (Z.of_nat (length (diff_positions bitmap_bit10 bitmap_zero))
               :: map Z.of_nat (diff_positions bitmap_bit10 bitmap_zero), true).
Proof.
  split; [apply bitmaps_ok|]. split; [apply bitmaps_ok|].
  apply (C3_encoding_choice bitmap_bit10 bitmap_zero); apply bitmaps_ok.
Defined.

Example compress_bit10 : compress_bitmap bitmap_bit10 bitmap_zero = ([1; 10], true).
Proof.
  rewrite compress_bitmap_fast by (apply is_bitmap_length, bitmaps_ok).
  vm_cast_no_check (eq_refl ([1; 10], true)).
Qed.

(** C3 as stated fails: with exactly 468 differing bits, fewer than 469,
    [compress_bitmap] already emits the dense encoding. *)
Lemma C3_dense_at_468 :
  ~ (snd (compress_bitmap bitmap_468 bitmap_zero) = false
     <-> 469 <= Z.of_nat (length (diff_positions bitmap_468 bitmap_zero))).
Proof.
  assert (length bitmap_468 = BITMAP_SIZE) as H1
    by (apply is_bitmap_length, bitmaps_ok).
  assert (length bitmap_zero = BITMAP_SIZE) as H0
    by (apply is_bitmap_length, bitmaps_ok).
  rewrite <- count_bits_spec, (count_bits_fast _ _ H1 H0).
  rewrite (compress_bitmap_fast _ _ H1 H0).
  assert (fold_idx (fun _ t c => count_byte t c) 0
            (zip_with Z.lxor bitmap_468 bitmap_zero) 0 = 468) as ->
    by (vm_compute; reflexivity).
  assert (snd (compress_fast bitmap_468 bitmap_zero) = false) as ->
    by (vm_compute; reflexivity).
  intros [H _]. specialize (H eq_refl). lia.
Qed.

Lemma C5_hi_update_witness :
  reachable st_newer_first
  /\ insert_bitmap_content st_newer_first (Some 0%nat) (Some 1%nat) bitmap_bit10
     = Ret (st_both, true)
  /\ ref_heap st_newer_first !! 0%nat = Some (group_zero 2 2 2)
  /\ group_chain st_newer_first (group_zero 2 2 2) = [2%nat] ++ 1%nat :: [0%nat]
  /\ exists r' p,
       ref_heap st_both !! 0%nat = Some r'
       /\ bmp_heap st_newer_first !! 1%nat = Some p
       /\ fst (csn_range r') = fst (csn_range (group_zero 2 2 2))
       /\ snd (csn_range r') =
            Z.max (snd (csn_range (group_zero 2 2 2)))
                  (hi_candidate st_newer_first p (last [2%nat])).
Proof.
  assert (ref_heap st_newer_first !! 0%nat = Some (group_zero 2 2 2)) as Hr
    by reflexivity.
  assert (group_chain st_newer_first (group_zero 2 2 2)
          = [2%nat] ++ 1%nat :: [0%nat]) as Hch by reflexivity.
  split; [exact reachable_newer_first|]. split; [exact insert_content_1|].
  split; [exact Hr|]. split; [exact Hch|].
  exact (C5_hi_update _ _ _ _ _ _ _ _ _
           reachable_newer_first insert_content_1 Hr Hch).
Defined.

(** C5 as stated fails.  With placeholders for CSNs 1 and 2 pending in
    the group of CSN 0, materializing CSN 2 sets [csn_range.second] to 2:
    not the maximum of the old value 0 and the CSN of the newest
    materialized older delta (CSN 0, the group's first node), and not
    below the CSN of the placeholder of CSN 1, which is still in the
    group. *)
Lemma C5_hi_covers_placeholder :
  reachable st_newer_first
  /\ ref_heap st_two_pending !! 0%nat = Some (group_zero 1 0 2)
  /\ bmp_heap st_two_pending !! 2%nat = Some (placeholder_node 2 1)
  /\ group_chain st_two_pending (group_zero 1 0 2) = [] ++ 2%nat :: [1%nat; 0%nat]
  /\ insert_bitmap_content st_two_pending (Some 0%nat) (Some 2%nat) bitmap_bit20
     = Ret (st_newer_first, true)
  /\ ref_heap st_newer_first !! 0%nat = Some (group_zero 2 2 2)
  /\ snd (csn_range (group_zero 2 2 2)) = 2
  /\ hi_as_claimed st_two_pending (group_zero 1 0 2) (placeholder_node 2 1)
       [1%nat; 0%nat] = 0
  /\ group_chain st_newer_first (group_zero 2 2 2) = [2%nat; 1%nat; 0%nat]
  /\ bmp_heap st_newer_first !! 1%nat = Some (placeholder_node 1 0)
  /\ materialized (placeholder_node 1 0) = false
  /\ bitmap_csn (placeholder_node 1 0) <= snd (csn_range (group_zero 2 2 2)).
Proof.
  split; [exact reachable_newer_first|].
  do 3 (split; [reflexivity|]).
  split; [exact insert_content_2|].
  do 6 (split; [reflexivity|]). simpl. lia.
Qed.

Lemma C6_group_cap_witness :
  reachable st_full_group
  /\ (forall g r, ref_heap st_full_group !! g = Some r ->
        Z.of_nat (length (group_chain st_full_group r)) <= MAX_COMPRESS_NUM)
  /\ head_bitmap_cnt st_full_group
     = Z.of_nat (length (group_chain st_full_group (group_zero 1 0 8)))
  /\ exists s' r',
       insert_null st_full_group 9 bitmap_bit10 None None
         = Ret (s', None, None, true)
       /\ first_ref s' = Some 1%nat
       /\ ref_heap s' !! 1%nat = Some r'
       /\ complete_bitmap r' = bitmap_bit10
       /\ csn_range r' = (9, 9)
       /\ next_ref r' = Some 0%nat
       /\ group_chain s' r' = [9%nat]
       /\ ref_heap s' !! 0%nat = Some (group_zero 1 0 8)
       /\ group_chain s' (group_zero 1 0 8)
          = group_chain st_full_group (group_zero 1 0 8).
Proof.
  split; [exact reachable_full_group|].
  destruct (C6_group_cap _ reachable_full_group) as (Hcap & Hcnt & Hroll).
  split; [exact Hcap|].
  split; [apply (Hcnt 0%nat (group_zero 1 0 8)); reflexivity|].
  apply (Hroll 0%nat (group_zero 1 0 8) 9 bitmap_bit10 None None);
    [reflexivity | reflexivity | reflexivity | apply bitmaps_ok].
Defined.

Lemma C8_get_walk_witness :
  reachable st_full_group
  /\ scan_refs (length (ref_heap st_full_group)) (ref_heap st_full_group)
       (first_ref st_full_group) (-1) = Ret (ScanStop None)
  /\ get_bitmap st_full_group (-1) bitmap_ff = Ret (false, bitmap_ff)
  /\ get_bitmap st_full_group 1 bitmap_ff = Ret (false, bitmap_ff).
Proof.
  split; [exact reachable_full_group|].
  destruct (C8_get_walk _ (-1) bitmap_ff reachable_full_group)
    as (_ & _ & _ & Hbelow).
  destruct (C8_get_walk _ 1 bitmap_ff reachable_full_group)
    as (_ & _ & Habove & _).
  destruct Hbelow as [H1 H2].
  { intros g r Hg. destruct g as [|g]; [|discriminate].
    injection Hg as <-. simpl. lia. }
  split; [exact H1|]. split; [exact H2|].
  apply (Habove 0%nat (group_zero 1 0 8)); [reflexivity..|simpl; lia].
Defined.

Lemma C9_monotone_range_witness :
  reachable st_two_pending
  /\ run_call st_two_pending call_content_2 = Ret st_newer_first
  /\ (forall g r, ref_heap st_two_pending !! g = Some r ->
        exists r', ref_heap st_newer_first !! g = Some r'
                   /\ fst (csn_range r') = fst (csn_range r)
                   /\ snd (csn_range r) <= snd (csn_range r'))
  /\ (forall g r, ref_heap st_two_pending !! g = Some r ->
        exists b0 nd0,
          last (group_chain st_two_pending r) = Some b0
          /\ bmp_heap st_two_pending !! b0 = Some nd0
          /\ next_bitmap nd0 = None
          /\ bitmap_csn nd0 = fst (csn_range r)).
Proof.
  split; [exact reachable_two_pending|]. split; [exact run_content_2|].
  exact (C9_monotone_range _ _ _ reachable_two_pending run_content_2).
Defined.

Lemma C10_false_leaves_out_witness :
  get_bitmap st_two_pending 2 bitmap_ff = Ret (false, bitmap_ff)
  /\ bitmap_ff = bitmap_ff.
Proof.
  assert (get_bitmap st_two_pending 2 bitmap_ff = Ret (false, bitmap_ff)) as H
    by reflexivity.
  split; [exact H | exact (C10_false_leaves_out _ _ _ _ H)].
Defined.

(** ** Reads that go wrong *)

(** C4 fails on the code: after the content of CSN 2 arrived, CSN 1 is
    inside the range of its group while its node is still a placeholder;
    [get_bitmap] reaches that node and passes its null payload to
    [decompress_bitmap] instead of returning false. *)
Theorem C4_placeholder_null_deref :
  reachable st_newer_first
  /\ first_ref st_newer_first = Some 0%nat
  /\ ref_heap st_newer_first !! 0%nat = Some (group_zero 2 2 2)
  /\ group_chain st_newer_first (group_zero 2 2 2) = [2%nat; 1%nat; 0%nat]
  /\ bmp_heap st_newer_first !! 1%nat = Some (placeholder_node 1 0)
  /\ compressed_bitmap (placeholder_node 1 0) = None
  /\ get_bitmap st_newer_first 1 bitmap_zero = Fault NullDeref.
Proof.
  split; [exact reachable_newer_first|].
  do 5 (split; [reflexivity|]). reflexivity.
Qed.

Lemma bitmap_ff_not_zero : bitmap_ff <> bitmap_zero.
Proof.
  intros H. apply (f_equal (fun l => rd l 0)) in H. discriminate.
Qed.

Lemma decompress_dense_example :
  decompress_bitmap bitmap_zero bitmap_ff (repeat 0 (BITMAP_SIZE / 2)) false
  = bitmap_ff.
Proof.
  rewrite decompress_dense_fast;
    [ vm_cast_no_check (eq_refl bitmap_ff)
    | apply is_bitmap_length, bitmaps_ok
    | apply is_bitmap_length, bitmaps_ok
    | apply repeat_length ].
Qed.

(** C1 fails on the code, first way: a dense delta on a reference that is
    not all zero.  CSN 1 was inserted with the all-zero bitmap and its
    insert completed; [get_bitmap] returns true with the all-ones
    bitmap. *)
Theorem C1_reconstruction_fails_dense :
  reachable st_dense
  /\ (exists s1,
        insert_null init 0 bitmap_ff None None = Ret (s1, None, None, true)
        /\ insert_null s1 1 bitmap_zero None None
           = Ret (st_dense_pending, Some 0%nat, Some 1%nat, true))
  /\ insert_bitmap_content st_dense_pending (Some 0%nat) (Some 1%nat) bitmap_zero
     = Ret (st_dense, true)
  /\ get_bitmap st_dense 1 bitmap_zero = Ret (true, bitmap_ff)
  /\ bitmap_ff <> bitmap_zero.
Proof.
  split; [exact reachable_dense|].
  split.
  { eexists. split; [reflexivity|].
    vm_cast_no_check (eq_refl (Ret (st_dense_pending, Some 0%nat, Some 1%nat, true))). }
  split; [exact insert_dense_content|].
  split; [|exact bitmap_ff_not_zero].
  rewrite (get_bitmap_head st_dense 1 bitmap_zero 0 (group_ff 2 1 1) 1
             (dense_node 1 0 (repeat 0 (BITMAP_SIZE / 2)))
             (repeat 0 (BITMAP_SIZE / 2)));
    [ | reflexivity.. | vm_compute; reflexivity ].
  simpl complete_bitmap. simpl is_compressed.
  by rewrite decompress_dense_example.
Qed.

(** C1 fails on the code, second way: propagation into a newer delta.
    CSN 2 (bit 20 only) was materialized before CSN 1 (bit 10 only);
    materializing CSN 1 unions its position into the payload of CSN 2,
    and [get_bitmap] returns bits 10 and 20 for CSN 2. *)
Lemma reconstruction_fails_propagation :
  reachable st_both
  /\ get_bitmap st_both 2 bitmap_zero = Ret (true, <[1%nat := 32]> bitmap_bit20)
  /\ get_bitmap st_both 1 bitmap_zero = Ret (true, bitmap_bit10)
  /\ <[1%nat := 32]> bitmap_bit20 <> bitmap_bit20.
Proof.
  split; [exact reachable_both|].
  split; [vm_cast_no_check (eq_refl (Ret (true, <[1%nat := 32]> bitmap_bit20)))|].
  split; [vm_cast_no_check (eq_refl (Ret (true, bitmap_bit10)))|].
  intros H. apply (f_equal (fun l => rd l 1)) in H. discriminate.
Qed.

(** C2 fails on the code for the dense outcome: the dense payload is the
    original, and [decompress_bitmap] XORs it onto the reference.  With
    the all-ones reference the all-zero bitmap comes back as all ones. *)
Theorem C2_roundtrip_fails_dense :
  is_bitmap bitmap_zero = true /\ is_bitmap bitmap_ff = true
  /\ compress_bitmap bitmap_zero bitmap_ff = (repeat 0 (BITMAP_SIZE / 2), false)
  /\ decompress_bitmap bitmap_zero bitmap_ff (repeat 0 (BITMAP_SIZE / 2)) false
     = bitmap_ff
  /\ bitmap_ff <> bitmap_zero.
Proof.
  split; [apply bitmaps_ok|]. split; [apply bitmaps_ok|].
  split; [|split; [exact decompress_dense_example | exact bitmap_ff_not_zero]].
  rewrite compress_bitmap_fast by (apply is_bitmap_length, bitmaps_ok).
  vm_cast_no_check (eq_refl (repeat 0 (BITMAP_SIZE / 2), false)).
Qed.

(** * Further properties of the code *)

(** ** The codec on encoder output *)

Lemma compress_sparse_iff B R :
  is_bitmap B = true ->
  snd (compress_bitmap B R) = true <-> Z.of_nat (length (diff_positions B R)) < 468.
Proof.
  intros HB. rewrite (compress_bitmap_spec B R HB).
  destruct (Z.geb_spec (Z.of_nat (length (diff_positions B R))) 468); cbn [snd];
    split; intros; (lia || congruence).
Qed.

(** X1: when fewer than 468 bits of the image differ from the reference,
    [compress_bitmap] emits the sparse encoding and [decompress_bitmap]
    turns it back into exactly the image. *)
Theorem X1_roundtrip_sparse (out B R : list Z) :
  length out = BITMAP_SIZE -> is_bitmap B = true -> is_bitmap R = true ->
  Z.of_nat (length (diff_positions B R)) < 468 ->
  snd (compress_bitmap B R) = true
  /\ decompress_bitmap out R (fst (compress_bitmap B R)) true = B.
Proof.
  intros Ho HB HR Hd.
  apply (compress_sparse_iff B R HB) in Hd.
  split; [exact Hd|].
  pose proof (roundtrip_sparse out B R Ho HB HR Hd) as H.
  rewrite Hd in H. exact H.
Qed.

(** X2: when at least 468 bits differ, [compress_bitmap] emits the dense
    encoding, and [decompress_bitmap] returns the bytewise XOR of the
    reference and the image: the image itself exactly when the reference
    is all zero. *)
Theorem X2_decode_dense (out B R : list Z) :
  length out = BITMAP_SIZE -> is_bitmap B = true -> is_bitmap R = true ->
  468 <= Z.of_nat (length (diff_positions B R)) ->
  snd (compress_bitmap B R) = false
  /\ decompress_bitmap out R (fst (compress_bitmap B R)) false = xor_function R B
  /\ (decompress_bitmap out R (fst (compress_bitmap B R)) false = B
      <-> R = bitmap_zero).
Proof.
  intros Ho HB HR Hd.
  assert (snd (compress_bitmap B R) = false) as Hs.
  { destruct (snd (compress_bitmap B R)) eqn:E; [|done].
    apply (compress_sparse_iff B R HB) in E. lia. }
  pose proof (roundtrip_dense out B R Ho HB HR Hs) as H1.
  pose proof (roundtrip_dense_iff out B R Ho HB HR Hs) as H2.
  rewrite Hs in H1, H2. auto.
Qed.

Lemma diff_positions_bound B R p :
  p ∈ diff_positions B R -> (p < 8 * BITMAP_SIZE)%nat.
Proof.
  unfold diff_positions. rewrite list_elem_of_In, filter_In, in_seq. lia.
Qed.

Lemma diff_positions_Forall B R :
  Forall (fun p => 0 <= p < 8 * Z.of_nat BITMAP_SIZE)
         (map Z.of_nat (diff_positions B R)).
Proof.
  rewrite Forall_map. apply Forall_forall. intros p Hp. cbn beta.
  apply diff_positions_bound in Hp. lia.
Qed.

Lemma half_size : (BITMAP_SIZE / 2)%nat = 3750%nat.
Proof. reflexivity. Qed.

Lemma packed_word_range B i :
  is_bitmap B = true -> 0 <= packed_word B i < 65536.
Proof.
  intros HB. apply is_bitmap_inv in HB as [_ HB]. unfold packed_word.
  pose proof (HB (2 * i)%nat). pose proof (HB (2 * i + 1)%nat). lia.
Qed.

(** X3: the payload [compress_bitmap] returns is never longer than the
    dense form: [BITMAP_SIZE / 2 = 3750] words when dense, one word more
    than the number of differing bits (so at most 468 words) when sparse;
    and every word fits a [uint16_t] as written, without truncation. *)
Theorem X3_payload_size (B R : list Z) :
  is_bitmap B = true -> is_bitmap R = true ->
  length (fst (compress_bitmap B R))
    = (if snd (compress_bitmap B R) then S (length (diff_positions B R))
       else 3750%nat)
  /\ (length (fst (compress_bitmap B R)) <= 3750)%nat
  /\ (snd (compress_bitmap B R) = true ->
      (length (fst (compress_bitmap B R)) <= 468)%nat)
  /\ Forall (fun x => 0 <= x < 65536) (fst (compress_bitmap B R)).
Proof.
  intros HB HR. rewrite (compress_bitmap_spec B R HB).
  destruct (Z.geb_spec (Z.of_nat (length (diff_positions B R))) 468) as [Hd|Hd];
    cbn [fst snd].
  - rewrite length_map, length_seq, half_size.
    split; [done|]. split; [lia|]. split; [discriminate|].
    rewrite Forall_map. apply Forall_forall. intros i _.
    by apply packed_word_range.
  - cbn [length]. rewrite length_map.
    split; [done|]. split; [lia|]. split; [lia|].
    constructor; [lia|].
    eapply Forall_impl; [apply diff_positions_Forall|].
    intros x Hx. cbn beta in Hx. rewrite BITMAP_SIZE_Z in Hx. lia.
Qed.

Lemma sparse_union_in_bounds a b :
  sparse_payload a = true -> sparse_payload b = true -> union_in_bounds a b = true.
Proof.
  intros Ha Hb.
  apply sparse_payload_inv in Ha as (A & -> & _ & _).
  apply sparse_payload_inv in Hb as (B & -> & _ & _).
  unfold union_in_bounds. rewrite !rd_head, !Nat2Z.id. cbn [length].
  apply andb_true_intro. split; apply Nat.ltb_lt; lia.
Qed.

Lemma sparse_decompress_in_bounds out R w :
  (BITMAP_SIZE <= length out)%nat -> (BITMAP_SIZE <= length R)%nat ->
  sparse_payload w = true ->
  decompress_in_bounds out R w true = true.
Proof.
  intros Ho HR Hw. apply sparse_payload_inv in Hw as (ps & -> & _ & Hb).
  unfold decompress_in_bounds. cbn [negb]. cbv iota.
  rewrite rd_head, Nat2Z.id. cbn [length].
  rewrite !andb_true_iff, !Nat.leb_le, !Nat.ltb_lt.
  split; [lia|]. split; [lia|].
  apply forallb_forall. intros i Hi. apply in_seq in Hi.
  destruct i as [|i]; [lia|]. rewrite rd_cons. apply Nat.ltb_lt.
  rewrite Forall_forall in Hb.
  assert (nth i ps 0 ∈ ps) as Hin by (apply list_elem_of_In, nth_In; lia).
  apply Hb in Hin. cbn beta in Hin.
  assert (Z.quot (nth i ps 0) 8 < Z.of_nat BITMAP_SIZE).
  { apply Z.quot_lt_upper_bound; lia. }
  assert (0 <= Z.quot (nth i ps 0) 8) by (apply Z.quot_pos; lia).
  lia.
Qed.

Lemma compress_sparse_payload B R :
  is_bitmap B = true ->
  snd (compress_bitmap B R) = true ->
  sparse_payload (fst (compress_bitmap B R)) = true.
Proof.
  intros HB. rewrite (compress_bitmap_spec B R HB).
  destruct (_ >=? 468); cbn [fst snd]; [discriminate|]. intros _.
  rewrite <- (length_map Z.of_nat (diff_positions B R)).
  apply sparse_payload_intro; [|apply diff_positions_Forall].
  apply ascending_Sorted, diff_positions_ascending.
Qed.

(** X4: [decompress_bitmap] applied to what [compress_bitmap] returned
    stays inside its arrays: the dense payload has the [BITMAP_SIZE / 2]
    words the dense loop reads, the sparse payload has the [total_cnt]
    positions slot 0 announces, and every position addresses a byte of the
    result buffer. *)
Theorem X4_decode_in_bounds (out B R : list Z) :
  (BITMAP_SIZE <= length out)%nat -> is_bitmap B = true -> is_bitmap R = true ->
  decompress_in_bounds out R (fst (compress_bitmap B R)) (snd (compress_bitmap B R))
  = true.
Proof.
  intros Ho HB HR.
  destruct (snd (compress_bitmap B R)) eqn:Hs.
  - apply sparse_decompress_in_bounds; [done| |by apply compress_sparse_payload].
    by rewrite (is_bitmap_length R HR).
  - revert Hs. rewrite (compress_bitmap_spec B R HB).
    destruct (_ >=? 468); cbn [fst snd]; [|discriminate]. intros _.
    unfold decompress_in_bounds. cbn [negb]. cbv iota.
    rewrite length_map, length_seq, (is_bitmap_length R HR).
    rewrite !andb_true_iff, !Nat.leb_le. lia.
Qed.

(** X7: a sparse payload that [compress_bitmap] returns is well formed:
    its slot 0 is the number of positions that follow, and these are
    strictly ascending bit positions below [8 * BITMAP_SIZE]; so it is an
    operand [union_sorted_array] reads within bounds and merges as a set. *)
Theorem X7_sparse_output_wellformed (B R B' R' : list Z) :
  is_bitmap B = true -> is_bitmap B' = true ->
  snd (compress_bitmap B R) = true -> snd (compress_bitmap B' R') = true ->
  sparse_payload (fst (compress_bitmap B R)) = true
  /\ union_in_bounds (fst (compress_bitmap B R)) (fst (compress_bitmap B' R')) = true.
Proof.
  intros HB HB' Hs Hs'.
  pose proof (compress_sparse_payload B R HB Hs).
  pose proof (compress_sparse_payload B' R' HB' Hs').
  split; [done|]. by apply sparse_union_in_bounds.
Qed.

Lemma is_bitmap_intro b :
  length b = BITMAP_SIZE -> Forall (fun x => 0 <= x < 256) b -> is_bitmap b = true.
Proof.
  intros Hl Hb. unfold is_bitmap. apply andb_true_intro. split.
  - by apply Nat.eqb_eq.
  - apply forallb_forall. intros x Hx. rewrite Forall_forall in Hb.
    apply list_elem_of_In, Hb in Hx. cbn beta in Hx. lia.
Qed.

Lemma map_rd_seq (a : list Z) : map (rd a) (seq 0 (length a)) = a.
Proof.
  pose proof (map_nth_seq_drop a 0) as H. by rewrite Nat.sub_0_r in H.
Qed.

Lemma map_const_seq (c : Z) s n : map (fun _ => c) (seq s n) = repeat c n.
Proof. revert s. induction n as [|n IH]; intros s; [done|]. cbn. by rewrite IH. Qed.

Lemma xor_function_length a b : length (xor_function a b) = BITMAP_SIZE.
Proof. unfold xor_function. by rewrite length_map, length_seq. Qed.

Lemma memcpy_all out R :
  length out = BITMAP_SIZE -> length R = BITMAP_SIZE -> memcpy out R BITMAP_SIZE = R.
Proof.
  intros Ho HR. unfold memcpy.
  rewrite (take_ge R) by lia. rewrite (drop_ge out) by lia. apply app_nil_r.
Qed.

Lemma diff_positions_same B : diff_positions B B = [].
Proof.
  unfold diff_positions.
  induction (seq 0 (8 * BITMAP_SIZE)) as [|p l IH]; [done|].
  cbn [List.filter]. by rewrite xorb_nilpotent.
Qed.

(** X5: [xor_function] on two bitmaps yields a bitmap; it is commutative,
    XORing twice with the same bitmap gives the first operand back, and a
    bitmap XORed with itself is the all-zero bitmap. *)
Theorem X5_xor_function_algebra (a b : list Z) :
  is_bitmap a = true -> is_bitmap b = true ->
  is_bitmap (xor_function a b) = true
  /\ xor_function a b = xor_function b a
  /\ xor_function (xor_function a b) b = a
  /\ xor_function a a = bitmap_zero.
Proof.
  intros Ha Hb.
  destruct (is_bitmap_inv a Ha) as [Hla Hra].
  destruct (is_bitmap_inv b Hb) as [Hlb Hrb].
  split; [|split; [|split]].
  - apply is_bitmap_intro; [apply xor_function_length|].
    unfold xor_function. rewrite Forall_map. apply Forall_forall. intros i _.
    by apply byte_lxor_range.
  - unfold xor_function. apply map_ext. intros i. apply Z.lxor_comm.
  - rewrite <- (map_rd_seq a) at 2. rewrite Hla.
    unfold xor_function at 1. apply map_ext_in. intros i Hi. apply in_seq in Hi.
    rewrite xor_function_rd by lia.
    by rewrite Z.lxor_assoc, Z.lxor_nilpotent, Z.lxor_0_r.
  - unfold xor_function, bitmap_zero.
    rewrite <- (map_const_seq 0 0 BITMAP_SIZE).
    apply map_ext. intros i. apply Z.lxor_nilpotent.
Qed.

(** X6: an image equal to the reference is encoded as the empty sparse
    payload, the single word 0; this is also the payload [insert_null]
    gives the node that opens a group, and [decompress_bitmap] decodes it
    to the reference itself. *)
Theorem X6_empty_delta (out B : list Z) :
  length out = BITMAP_SIZE -> is_bitmap B = true ->
  compress_bitmap B B = ([0], true)
  /\ decompress_bitmap out B [0] true = B.
Proof.
  intros Ho HB. split.
  - rewrite (compress_bitmap_spec B B HB), diff_positions_same. reflexivity.
  - unfold decompress_bitmap. cbn [negb]. cbv iota. rewrite rd_head.
    change (seq 1 (Z.to_nat 0)) with (@nil nat). cbn [fold_left].
    apply memcpy_all; [done | by apply is_bitmap_length].
Qed.

(** ** The union as a set operation *)

Lemma Sorted_lt_ext (l1 l2 : list Z) :
  Sorted Z.lt l1 -> Sorted Z.lt l2 -> (forall x, x ∈ l1 <-> x ∈ l2) -> l1 = l2.
Proof.
  intros H1 H2. apply Sorted_StronglySorted in H1; [|intros ???; lia].
  apply Sorted_StronglySorted in H2; [|intros ???; lia].
  revert l2 H2. induction H1 as [|x l1 Hs1 IH Hx]; intros l2 H2 Hel.
  - destruct l2 as [|y l2]; [done|].
    exfalso. eapply not_elem_of_nil, Hel. by left.
  - destruct H2 as [|y l2 Hs2 Hy].
    { exfalso. eapply not_elem_of_nil, Hel. by left. }
    rewrite Forall_forall in Hx, Hy.
    assert (x = y) as <-.
    { assert (x ∈ y :: l2) as Hxy by (apply Hel; by left).
      assert (y ∈ x :: l1) as Hyx by (apply Hel; by left).
      apply elem_of_cons in Hxy as [?|Hxy]; [done|].
      apply elem_of_cons in Hyx as [?|Hyx]; [done|].
      apply Hy in Hxy. apply Hx in Hyx. lia. }
    f_equal. apply IH; [done|]. intros z. split; intros Hz.
    + assert (z ∈ x :: l2) as Hz' by (apply Hel; by right).
      apply elem_of_cons in Hz' as [->|?]; [|done]. apply Hx in Hz. lia.
    + assert (z ∈ x :: l1) as Hz' by (apply Hel; by right).
      apply elem_of_cons in Hz' as [->|?]; [|done]. apply Hy in Hz. lia.
Qed.

Lemma merge_set_absorb A B :
  Sorted Z.lt A -> Sorted Z.lt B -> (forall x, x ∈ B -> x ∈ A) ->
  merge_set A B = A.
Proof.
  intros HA HB Hsub. apply Sorted_lt_ext; [by apply merge_set_Sorted|done|].
  intros x. rewrite merge_set_elem. split; [intros [?|?]; auto | auto].
Qed.

Lemma merge_set_comm A B :
  Sorted Z.lt A -> Sorted Z.lt B -> merge_set A B = merge_set B A.
Proof.
  intros HA HB. apply Sorted_lt_ext; [by apply merge_set_Sorted..|].
  intros x. rewrite !merge_set_elem. tauto.
Qed.

Lemma merge_set_assoc A B C :
  Sorted Z.lt A -> Sorted Z.lt B -> Sorted Z.lt C ->
  merge_set (merge_set A B) C = merge_set A (merge_set B C).
Proof.
  intros HA HB HC.
  apply Sorted_lt_ext; [by repeat apply merge_set_Sorted..|].
  intros x. rewrite !merge_set_elem. tauto.
Qed.

Lemma merge_set_Forall (P : Z -> Prop) A B :
  Forall P A -> Forall P B -> Forall P (merge_set A B).
Proof.
  rewrite !Forall_forall. intros HA HB x Hx.
  apply merge_set_elem in Hx as [?|?]; auto.
Qed.

(** [union_sorted_array] on position lists that are sorted and in range. *)
Lemma union_sparse A B :
  Sorted Z.lt A -> Sorted Z.lt B ->
  Forall (fun p => 0 <= p < 8 * Z.of_nat BITMAP_SIZE) A ->
  Forall (fun p => 0 <= p < 8 * Z.of_nat BITMAP_SIZE) B ->
  union_sorted_array (Z.of_nat (length A) :: A) (Z.of_nat (length B) :: B)
  = (Z.of_nat (length (merge_set A B)) :: merge_set A B, Z.of_nat (length B) :: B).
Proof.
  intros HA HB HbA HbB.
  rewrite union_sorted_array_merge, sparse_count_fits;
    [done | by apply merge_set_Sorted | by apply merge_set_Forall].
Qed.

(** X8: on sparse payloads [union_sorted_array] is the union of sets: the
    empty payload (the single word 0) is neutral on either side, the
    union of a payload with itself is that payload, and the resulting
    payload does not depend on the order or the grouping of the
    operands. *)
Theorem X8_union_algebra (a b c : list Z) :
  sparse_payload a = true -> sparse_payload b = true -> sparse_payload c = true ->
  fst (union_sorted_array a [0]) = a
  /\ fst (union_sorted_array [0] a) = a
  /\ fst (union_sorted_array a a) = a
  /\ fst (union_sorted_array a b) = fst (union_sorted_array b a)
  /\ fst (union_sorted_array (fst (union_sorted_array a b)) c)
     = fst (union_sorted_array a (fst (union_sorted_array b c))).
Proof.
  intros Ha Hb Hc.
  apply sparse_payload_inv in Ha as (A & -> & HA & HbA).
  apply sparse_payload_inv in Hb as (B & -> & HB & HbB).
  apply sparse_payload_inv in Hc as (C & -> & HC & HbC).
  assert (Sorted Z.lt []) as Hnil by constructor.
  change [0] with (Z.of_nat (length (@nil Z)) :: []).
  rewrite !union_sparse by (done || by constructor). cbn [fst].
  rewrite merge_set_nil_r, merge_set_nil_l.
  rewrite (merge_set_absorb A A) by done.
  split; [done|]. split; [done|]. split; [done|].
  split; [by rewrite (merge_set_comm A B)|].
  rewrite !union_sparse
    by (done || by apply merge_set_Sorted || by apply merge_set_Forall).
  cbn [fst]. by rewrite merge_set_assoc.
Qed.

(** A payload absorbs the payloads whose positions it holds already. *)
Lemma union_absorb a b :
  sparse_payload a = true -> sparse_payload b = true ->
  (forall x, x ∈ tail b -> x ∈ tail a) ->
  union_sorted_array a b = (a, b).
Proof.
  intros Ha Hb Hsub.
  apply sparse_payload_inv in Ha as (A & -> & HA & HbA).
  apply sparse_payload_inv in Hb as (B & -> & HB & HbB).
  rewrite union_sparse by done. by rewrite (merge_set_absorb A B HA HB Hsub).
Qed.

Lemma compress_sparse_tail B R :
  is_bitmap B = true -> snd (compress_bitmap B R) = true ->
  tail (fst (compress_bitmap B R)) = map Z.of_nat (diff_positions B R).
Proof.
  intros HB. rewrite (compress_bitmap_spec B R HB).
  by destruct (_ >=? 468); cbn [fst snd tail]; [discriminate|].
Qed.

Lemma nested_tails B1 B2 R :
  is_bitmap B1 = true -> is_bitmap B2 = true ->
  snd (compress_bitmap B1 R) = true -> snd (compress_bitmap B2 R) = true ->
  (forall p, p ∈ diff_positions B1 R -> p ∈ diff_positions B2 R) ->
  forall x, x ∈ tail (fst (compress_bitmap B1 R)) ->
            x ∈ tail (fst (compress_bitmap B2 R)).
Proof.
  intros H1 H2 Hs1 Hs2 Hsub x.
  rewrite (compress_sparse_tail B1 R H1 Hs1), (compress_sparse_tail B2 R H2 Hs2).
  intros (p & -> & Hp)%list_elem_of_fmap. apply list_elem_of_fmap. eauto.
Qed.

(** X9: when every bit in which the image [B1] differs from the reference
    also differs in the image [B2] (the delta of [B1] is nested in that of
    [B2]) and both deltas are sparse, the union of the payload of [B2] with
    that of [B1] is the payload of [B2], unchanged: propagating a nested
    delta into a newer one is harmless. *)
Theorem X9_union_nested (B1 B2 R : list Z) :
  is_bitmap B1 = true -> is_bitmap B2 = true ->
  snd (compress_bitmap B1 R) = true -> snd (compress_bitmap B2 R) = true ->
  (forall p, p ∈ diff_positions B1 R -> p ∈ diff_positions B2 R) ->
  union_sorted_array (fst (compress_bitmap B2 R)) (fst (compress_bitmap B1 R))
  = (fst (compress_bitmap B2 R), fst (compress_bitmap B1 R)).
Proof.
  intros H1 H2 Hs1 Hs2 Hsub.
  apply union_absorb; [by apply compress_sparse_payload..|].
  by apply nested_tails.
Qed.

(** ** What get_bitmap returns *)

Lemma scan_refs_range refs csn fuel p g :
  scan_refs fuel refs p csn = Ret (ScanStop (Some g)) ->
  exists r, refs !! g = Some r /\ fst (csn_range r) <= csn <= snd (csn_range r).
Proof.
  revert p. induction fuel as [|fuel IH]; intros p H.
  - destruct p as [g0|]; simpl in H; [|discriminate].
    destruct (refs !! g0); discriminate.
  - destruct p as [g0|]; simpl in H; [|discriminate].
    destruct (refs !! g0) as [r|] eqn:Hg; [|discriminate].
    destruct (Z.ltb_spec csn (fst (csn_range r))); [by eapply IH|].
    destruct (Z.gtb_spec csn (snd (csn_range r))); [discriminate|].
    injection H as <-. exists r. split; [done|lia].
Qed.

Lemma scan_bitmaps_true h csn out cb fuel p out' :
  scan_bitmaps fuel h p csn out cb = Ret (true, out') ->
  exists front b back nd w,
    chain fuel h p = front ++ b :: back
    /\ (forall a nda, a ∈ front -> h !! a = Some nda -> bitmap_csn nda <> csn)
    /\ h !! b = Some nd /\ bitmap_csn nd = csn
    /\ compressed_bitmap nd = Some w
    /\ decompress_in_bounds out cb w (is_compressed nd) = true
    /\ out' = decompress_bitmap out cb w (is_compressed nd).
Proof.
  revert p. induction fuel as [|fuel IH]; intros p H.
  - destruct p as [a|]; simpl in H; [|discriminate].
    destruct (h !! a); discriminate.
  - destruct p as [a|]; simpl in H; [|discriminate].
    destruct (h !! a) as [nd|] eqn:Ha; [|discriminate].
    rewrite (chain_cons _ _ _ _ Ha).
    destruct (Z.eqb_spec csn (bitmap_csn nd)) as [E|E].
    + exists [], a, (chain fuel h (next_bitmap nd)), nd.
      unfold decompress_call in H.
      destruct (compressed_bitmap nd) as [w|]; [|discriminate].
      destruct (decompress_in_bounds _ _ _ _) eqn:Hin; [|discriminate].
      simpl in H. injection H as <-. exists w.
      split; [done|]. split; [by intros ?? ?%elem_of_nil|]. done.
    + apply IH in H as (front & b & back & nd' & w & Hc & Hne & Hb & Hcsn & Hw & Hin & ->).
      exists (a :: front), b, back, nd', w. rewrite Hc.
      split; [done|]. split; [|done].
      intros a0 nda [->|Hin0]%elem_of_cons Hl; [|by eapply Hne].
      assert (nda = nd) as -> by congruence. congruence.
Qed.

(** X11: [get_bitmap] returns true only on an exact match.  When it
    returns true for [csn], some group's range contains [csn], the chain
    of that group has a node carrying exactly [csn], that node has a
    payload, and the buffer holds the decoding of the payload of the first
    such node against the reference of the group. *)
Theorem X11_get_bitmap_true (s : BitmapController) (csn : Z) (out out' : list Z) :
  get_bitmap s csn out = Ret (true, out') ->
  exists g r front b back nd w,
    ref_heap s !! g = Some r
    /\ fst (csn_range r) <= csn <= snd (csn_range r)
    /\ group_chain s r = front ++ b :: back
    /\ (forall a nda, a ∈ front -> bmp_heap s !! a = Some nda -> bitmap_csn nda <> csn)
    /\ bmp_heap s !! b = Some nd /\ bitmap_csn nd = csn
    /\ compressed_bitmap nd = Some w
    /\ out' = decompress_bitmap out (complete_bitmap r) w (is_compressed nd).
Proof.
  unfold get_bitmap. intros H. inv_bind H.
  destruct a as [|[g|]]; try discriminate.
  apply scan_refs_range in Ha as (r & Hg & Hrange).
  simpl in H. rewrite Hg in H. simpl in H.
  apply scan_bitmaps_true in H
    as (front & b & back & nd & w & Hc & Hne & Hb & Hcsn & Hw & _ & ->).
  exists g, r, front, b, back, nd, w. done.
Qed.

Lemma scan_refs_returns refs csn fuel p :
  ref_ordered refs ->
  (forall g, p = Some g -> (g < length refs)%nat /\ (g < fuel)%nat) ->
  exists sc, scan_refs fuel refs p csn = Ret sc.
Proof.
  intros Ho. revert p. induction fuel as [|fuel IH]; intros p Hp.
  - destruct p as [g|]; [|by eexists]. destruct (Hp g eq_refl). lia.
  - destruct p as [g|]; [|by eexists]. destruct (Hp g eq_refl) as [Hl Hf].
    destruct (lookup_lt_is_Some_2 refs g Hl) as [r Hg].
    rewrite (scan_refs_step _ _ _ _ _ Hg).
    destruct (csn <? fst (csn_range r)).
    + apply IH. intros g' Hn. pose proof (Ho g r g' Hg Hn). lia.
    + destruct (csn >? snd (csn_range r)); by eexists.
Qed.

Lemma scan_bitmaps_absent h csn out cb fuel p :
  bmp_ordered h ->
  (forall b, p = Some b -> (b < length h)%nat /\ (b < fuel)%nat) ->
  (forall b nd, b ∈ chain fuel h p -> h !! b = Some nd -> bitmap_csn nd <> csn) ->
  scan_bitmaps fuel h p csn out cb = Ret (false, out).
Proof.
  intros Ho. revert p. induction fuel as [|fuel IH]; intros p Hp Hne.
  - destruct p as [b|]; [|done]. destruct (Hp b eq_refl). lia.
  - destruct p as [b|]; [|done]. destruct (Hp b eq_refl) as [Hl Hf].
    destruct (lookup_lt_is_Some_2 h b Hl) as [nd Hb].
    rewrite (chain_cons _ _ _ _ Hb) in Hne.
    simpl. rewrite Hb.
    destruct (Z.eqb_spec csn (bitmap_csn nd)) as [E|E].
    { exfalso. apply (Hne b nd); [by left | done | done]. }
    apply IH.
    + intros b' Hn. pose proof (Ho b nd b' Hb Hn). lia.
    + intros b' nd' Hin. apply Hne. by right.
Qed.

(** X12: in every reachable state, a CSN that no delta node carries is not
    found: [get_bitmap] returns false, without fault, and leaves the
    buffer as it was. *)
Theorem X12_get_bitmap_absent (s : BitmapController) (csn : Z) (out : list Z) :
  reachable s ->
  (forall b nd, bmp_heap s !! b = Some nd -> bitmap_csn nd <> csn) ->
  get_bitmap s csn out = Ret (false, out).
Proof.
  intros Hreach Hne. destruct (reachable_inv s Hreach) as [Hbo Hro Hgr Hhd].
  unfold get_bitmap.
  destruct (scan_refs_returns (ref_heap s) csn (length (ref_heap s)) (first_ref s) Hro)
    as [sc Hsc].
  { intros g Hg. pose proof (head_group_valid s g Hhd Hg). lia. }
  rewrite Hsc. simpl. destruct sc as [|[g|]]; [done| |done].
  apply scan_refs_selects in Hsc as [r Hg]. rewrite Hg. simpl.
  destruct (gk_first _ _ (Hgr g r Hg)) as (b & Hb & Hlt).
  apply scan_bitmaps_absent; [done| |].
  - intros b' Hb'. rewrite Hb in Hb'. injection Hb' as <-. lia.
  - intros b' nd _. apply Hne.
Qed.

(** ** Acyclic chains *)

Lemma chain_NoDup h fuel p : bmp_ordered h -> NoDup (chain fuel h p).
Proof.
  intros Ho. revert p. induction fuel as [|fuel IH]; intros p.
  - destruct p; constructor.
  - destruct p as [a|]; [|constructor]. simpl.
    destruct (h !! a) as [nd|] eqn:Ha; [|constructor].
    constructor; [|apply IH].
    destruct (next_bitmap nd) as [b|] eqn:Hn.
    + pose proof (chain_bound h fuel b Ho) as Hb. rewrite Forall_forall in Hb.
      intros Hin. apply Hb in Hin. pose proof (Ho a nd b Ha Hn). lia.
    + rewrite chain_None. apply not_elem_of_nil.
Qed.

Lemma chain_valid h fuel p a : a ∈ chain fuel h p -> is_Some (h !! a).
Proof.
  revert p. induction fuel as [|fuel IH]; intros p.
  - destruct p; simpl; by intros ?%elem_of_nil.
  - destruct p as [b|]; simpl; [|by intros ?%elem_of_nil].
    destruct (h !! b) as [nd|] eqn:Hb; [|by intros ?%elem_of_nil].
    intros [->|Hin]%elem_of_cons; [by rewrite Hb | by eapply IH].
Qed.

(** X10: in every reachable state the delta chain of every group is
    acyclic: it visits allocated nodes, none of them twice, and ends at a
    node whose [next_bitmap] is null.  So the pointer loops of
    [get_bitmap], [insert_null] and [insert_bitmap_content] terminate:
    bounded by the number of allocated nodes, they never use up that
    bound. *)
Theorem X10_chains_acyclic (s : BitmapController) :
  reachable s ->
  (forall g r, ref_heap s !! g = Some r ->
     NoDup (group_chain s r)
     /\ (forall a, a ∈ group_chain s r -> is_Some (bmp_heap s !! a))
     /\ exists b0 nd0, last (group_chain s r) = Some b0
                       /\ bmp_heap s !! b0 = Some nd0 /\ next_bitmap nd0 = None)
  /\ (forall csn out, get_bitmap s csn out <> Timeout)
  /\ (forall c, run_call s c <> Timeout).
Proof.
  intros Hreach. destruct (reachable_inv s Hreach) as [Hbo Hro Hgr Hhd].
  split; [|split].
  - intros g r Hg. split; [by apply chain_NoDup|]. split.
    + intros a. apply chain_valid.
    + destruct (gk_creator _ _ (Hgr g r Hg)) as (b0 & nd0 & H1 & H2 & H3 & _).
      by exists b0, nd0.
  - intros csn out. by apply get_bitmap_ends.
  - intros c. by apply run_call_ends.
Qed.

(** ** insert_null and the reads of older versions *)

Lemma scan_refs_grow refs x csn fuel fuel' g :
  ref_ordered refs -> (g < length refs)%nat -> (g < fuel)%nat -> (g < fuel')%nat ->
  scan_refs fuel' (refs ++ x) (Some g) csn = scan_refs fuel refs (Some g) csn.
Proof.
  intros Ho. revert fuel' g.
  induction fuel as [|fuel IH]; intros fuel' g Hl Hf Hf'; [lia|].
  destruct fuel' as [|fuel']; [lia|].
  destruct (lookup_lt_is_Some_2 refs g Hl) as [r Hg].
  rewrite (scan_refs_step _ _ _ _ _ Hg).
  rewrite (scan_refs_step _ (refs ++ x) _ _ r) by (by apply lookup_app_l_Some).
  destruct (csn <? fst (csn_range r)); [|done].
  destruct (next_ref r) as [g'|] eqn:Hn.
  - pose proof (Ho g r g' Hg Hn). apply IH; lia.
  - by destruct fuel, fuel'.
Qed.

Lemma scan_refs_same_links refs refs' csn fuel p :
  (forall g, (fun r => (csn_range r, next_ref r)) <$> refs' !! g
             = (fun r => (csn_range r, next_ref r)) <$> refs !! g) ->
  scan_refs fuel refs' p csn = scan_refs fuel refs p csn.
Proof.
  intros Hl. revert p. induction fuel as [|fuel IH]; intros p.
  - destruct p as [g|]; simpl; [|done]. specialize (Hl g).
    destruct (refs' !! g), (refs !! g); done.
  - destruct p as [g|]; simpl; [|done]. specialize (Hl g).
    destruct (refs' !! g) as [r'|], (refs !! g) as [r|]; try done.
    simpl in Hl. injection Hl as -> ->. by rewrite IH.
Qed.

Lemma scan_bitmaps_grow h x csn out cb fuel fuel' b :
  bmp_ordered h -> (b < length h)%nat -> (b < fuel)%nat -> (b < fuel')%nat ->
  scan_bitmaps fuel' (h ++ x) (Some b) csn out cb
  = scan_bitmaps fuel h (Some b) csn out cb.
Proof.
  intros Ho. revert fuel' b.
  induction fuel as [|fuel IH]; intros fuel' b Hl Hf Hf'; [lia|].
  destruct fuel' as [|fuel']; [lia|].
  destruct (lookup_lt_is_Some_2 h b Hl) as [nd Hb]. simpl.
  rewrite (lookup_app_l_Some _ _ _ _ Hb), Hb.
  destruct (csn =? bitmap_csn nd); [done|].
  destruct (next_bitmap nd) as [b'|] eqn:Hn.
  - pose proof (Ho b nd b' Hb Hn). apply IH; lia.
  - by destruct fuel, fuel'.
Qed.

(** X15: [insert_null] of a CSN does not change what [get_bitmap] returns
    for any smaller CSN: the same boolean and buffer, or the same fault. *)
Theorem X15_insert_null_keeps_older_reads (s : BitmapController) (new_csn : Z)
    (img : list Z) (ref bitmap : option nat) (s' : BitmapController)
    (ref' bitmap' : option nat) (ok : bool) (csn : Z) (out : list Z) :
  reachable s ->
  insert_null s new_csn img ref bitmap = Ret (s', ref', bitmap', ok) ->
  csn < new_csn ->
  get_bitmap s' csn out = get_bitmap s csn out.
Proof.
  intros Hreach H Hlt. destruct (reachable_inv s Hreach) as [Hbo Hro Hgr Hhd].
  apply insert_null_inv in H as
    [(Hcnt & Hlen & _ & _ & ->)|(Hcnt & g & r & Hfirst & Hg & _ & _ & ->)].
  - (* a new group in front: its range starts above [csn] *)
    unfold get_bitmap. cbn [ref_heap bmp_heap first_ref].
    rewrite !length_app, !Nat.add_1_r.
    rewrite (scan_refs_step _ _ _ _ _ (list_lookup_middle _ [] _ _ eq_refl)).
    cbn [csn_range fst next_ref].
    destruct (Z.ltb_spec csn new_csn) as [_|?]; [|lia].
    assert (scan_refs (length (ref_heap s)) (ref_heap s ++ [_]) (first_ref s) csn
            = scan_refs (length (ref_heap s)) (ref_heap s) (first_ref s) csn) as ->.
    { destruct (first_ref s) as [g|] eqn:Hf; [|by destruct (length (ref_heap s))].
      pose proof (head_group_valid s g Hhd Hf). by apply scan_refs_grow. }
    destruct (scan_refs _ _ _ _) as [[|[g|]]| |] eqn:Hsc; try done.
    apply scan_refs_selects in Hsc as [r Hg].
    cbn [mbind outcome_bind deref].
    rewrite (lookup_app_l_Some _ _ _ _ Hg), Hg. cbn [mbind outcome_bind].
    destruct (gk_first _ _ (Hgr g r Hg)) as (b & -> & Hb).
    apply scan_bitmaps_grow; [done|lia..].
  - (* a placeholder in front of the head chain: its CSN is not [csn] *)
    unfold get_bitmap. cbn [ref_heap bmp_heap first_ref].
    rewrite length_insert, length_app, Nat.add_1_r.
    rewrite (scan_refs_same_links (ref_heap s)).
    2:{ intros g0. destruct (decide (g0 = g)) as [->|Hne].
        - rewrite list_lookup_insert_eq by (by eapply lookup_lt_Some).
          by rewrite Hg.
        - by rewrite list_lookup_insert_ne. }
    destruct (scan_refs _ _ _ _) as [[|[g0|]]| |] eqn:Hsc; try done.
    apply scan_refs_selects in Hsc as [r0 Hg0].
    cbn [mbind outcome_bind deref]. rewrite Hg0.
    destruct (decide (g0 = g)) as [->|Hne].
    + rewrite list_lookup_insert_eq by (by eapply lookup_lt_Some).
      assert (r0 = r) as -> by congruence. cbn [mbind outcome_bind].
      cbn [set_first first_compressed_bitmap complete_bitmap].
      cbn [scan_bitmaps]. rewrite list_lookup_middle by done.
      cbn [bitmap_csn next_bitmap].
      destruct (Z.eqb_spec csn new_csn) as [?|_]; [lia|].
      destruct (gk_first _ _ (Hgr g r Hg)) as (b & -> & Hb).
      apply scan_bitmaps_grow; [done|lia..].
    + rewrite list_lookup_insert_ne by done. rewrite Hg0.
      cbn [mbind outcome_bind].
      destruct (gk_first _ _ (Hgr g0 r0 Hg0)) as (b & -> & Hb).
      apply scan_bitmaps_grow; [done|lia..].
Qed.

(** ** What insert_bitmap_content changes *)

Lemma chain_next h fuel p front b back d :
  chain fuel h p = front ++ b :: back -> last front = Some d ->
  exists ndd, h !! d = Some ndd /\ next_bitmap ndd = Some b.
Proof.
  revert fuel p. induction front as [|f front IH]; intros fuel p Hc Hl; [done|].
  destruct p as [a|]; [|by destruct fuel].
  destruct fuel as [|fuel]; [discriminate|]. simpl in Hc.
  destruct (h !! a) as [nd|] eqn:Ha; [|discriminate].
  injection Hc as -> Hc.
  destruct front as [|f' front].
  - injection Hl as <-. exists nd. split; [done|].
    simpl in Hc. destruct (next_bitmap nd) as [a'|]; [|by destruct fuel].
    destruct fuel as [|fuel]; [discriminate|]. simpl in Hc.
    destruct (h !! a'); [|discriminate]. by injection Hc as ->.
  - rewrite last_cons in Hl.
    destruct (last (f' :: front)) as [d'|] eqn:Hl'; [|by apply last_None in Hl'].
    injection Hl as ->. eapply IH; [exact Hc|reflexivity].
Qed.

Lemma propagate_one h fuel d b ndd ndb wa wb :
  h !! d = Some ndd -> h !! b = Some ndb -> d <> b ->
  next_bitmap ndd = Some b ->
  compressed_bitmap ndd = Some wa -> compressed_bitmap ndb = Some wb ->
  propagate (S fuel) h (Some d) (Some b) =
    if union_in_bounds wa wb
    then Ret (<[d := set_payload ndd (fst (union_sorted_array wa wb))
                                 (is_compressed ndd)]> h)
    else Fault OutOfBounds.
Proof.
  intros Hd Hb Hne Hn Hwa Hwb. cbn [propagate].
  rewrite ptr_eqb_eq, bool_decide_eq_false_2, Hd by done.
  cbn [deref]. rewrite Hb. cbn [mbind outcome_bind]. rewrite Hwa, Hwb.
  destruct (union_in_bounds wa wb); [|done]. rewrite Hn.
  destruct fuel; cbn [propagate]; by rewrite ptr_eqb_eq, bool_decide_eq_true_2.
Qed.

(** The heap of delta nodes after [insert_bitmap_content] on node [b],
    whose neighbour towards the head of the chain is [pred]. *)
Lemma insert_bitmap_content_eval s g b r nd img front back :
  bmp_ordered (bmp_heap s) ->
  ref_heap s !! g = Some r -> bmp_heap s !! b = Some nd ->
  group_chain s r = front ++ b :: back ->
  (BITMAP_SIZE <= length img)%nat ->
  (BITMAP_SIZE <= length (complete_bitmap r))%nat ->
  let w := fst (compress_bitmap img (complete_bitmap r)) in
  let c := snd (compress_bitmap img (complete_bitmap r)) in
  let bmps1 := <[b := set_payload nd w c]> (bmp_heap s) in
  insert_bitmap_content s (Some g) (Some b) img =
    bmps2 ← match last front with
            | Some d =>
                match bmp_heap s !! d with
                | Some ndd =>
                    match compressed_bitmap ndd with
                    | Some wa =>
                        if union_in_bounds wa w
                        then Ret (<[d := set_payload ndd
                                          (fst (union_sorted_array wa w))
                                          (is_compressed ndd)]> bmps1)
                        else Fault OutOfBounds
                    | None => Ret bmps1
                    end
                | None => Ret bmps1
                end
            | None => Ret bmps1
            end;
    Ret ({| ref_heap :=
              <[g := set_cnt_range r (wrap_int (bitmap_cnt r + 1))
                       (fst (csn_range r),
                        Z.max (snd (csn_range r)) (hi_candidate s nd (last front)))]>
                (ref_heap s);
            bmp_heap := bmps2;
            first_ref := first_ref s;
            head_bitmap_cnt := head_bitmap_cnt s |}, true).
Proof.
  intros Hbo Hg Hb Hch Himg HR w c bmps1.
  unfold insert_bitmap_content. rewrite Hg, Hb.
  apply Nat.leb_le in Himg, HR. rewrite Himg, HR. cbn [andb].
  destruct (compress_bitmap img (complete_bitmap r)) as [w0 c0] eqn:Hc.
  change w with w0 in *. change c with c0 in *.
  unfold insert_locked. fold bmps1.
  assert (map shape bmps1 = map shape (bmp_heap s)) as Hsh
    by (apply (shape_insert _ b nd); [assumption | reflexivity]).
  assert (b ∉ front) as Hnotin by (by eapply chain_split_notin).
  unfold group_chain in Hch.
  rewrite <- (chain_shape _ _ bmps1 _ Hsh), <- (shape_length _ _ Hsh) in Hch.
  rewrite (walk_to_chain _ _ _ _ _ _ _ _ Hch Hnotin).
  assert (bmps1 !! b = Some (set_payload nd w0 c0)) as Hb1.
  { unfold bmps1. apply list_lookup_insert_eq. by eapply lookup_lt_Some. }
  unfold hi_candidate.
  destruct (last front) as [d|] eqn:Hlast; cbn [mbind outcome_bind].
  - assert (d ≠ b) as Hdb.
    { intros ->. apply Hnotin. apply last_Some in Hlast as [l' ->].
      apply elem_of_app. right. by left. }
    destruct (chain_next _ _ _ _ _ _ _ Hch Hlast) as (ndd & Hd1 & Hn).
    rewrite Hd1.
    assert (bmp_heap s !! d = Some ndd) as Hd.
    { unfold bmps1 in Hd1. by rewrite list_lookup_insert_ne in Hd1. }
    rewrite Hd. unfold materialized.
    destruct (compressed_bitmap ndd) as [wa|] eqn:Hwa; cbn [mbind outcome_bind].
    + destruct (length bmps1) as [|fuel] eqn:Hlen.
      { apply lookup_lt_Some in Hb1. lia. }
      rewrite (propagate_one bmps1 fuel d b ndd _ wa w0 Hd1 Hb1 Hdb Hn Hwa eq_refl).
      destruct (union_in_bounds wa w0); cbn [mbind outcome_bind]; [|done].
      cbn [andb negb]. by destruct (bitmap_csn ndd =? -1).
    + done.
  - done.
Qed.



(** ** insert_null always succeeds *)

(** X14: in every reachable state [insert_null] returns true for any CSN
    and any bitmap.  It allocates exactly one delta node, carrying the
    CSN, and changes no existing node.  When [head_bitmap_cnt] is 9 (as
    after construction) it opens a group on a copy of the bitmap, with
    that node as its only delta, holding the empty sparse payload, and
    leaves the caller's [ref] and [bitmap] as they were; otherwise the
    node is a placeholder without payload linked in front of the chain of
    the head group, and [ref] and [bitmap] receive the head group and the
    placeholder. *)
Theorem X14_insert_null_effect (s : BitmapController) (new_csn : Z) (img : list Z)
    (ref bitmap : option nat) :
  reachable s -> is_bitmap img = true ->
  exists s' ref' bitmap' nd,
    insert_null s new_csn img ref bitmap = Ret (s', ref', bitmap', true)
    /\ bmp_heap s' = bmp_heap s ++ [nd]
    /\ bitmap_csn nd = new_csn
    /\ (if head_bitmap_cnt s =? MAX_COMPRESS_NUM then
          ref' = ref /\ bitmap' = bitmap
          /\ head_bitmap_cnt s' = 1
          /\ first_ref s' = Some (length (ref_heap s))
          /\ ref_heap s' = ref_heap s ++
               [{| bitmap_cnt := 1; csn_range := (new_csn, new_csn);
                   next_ref := first_ref s;
                   first_compressed_bitmap := Some (length (bmp_heap s));
                   complete_bitmap := img |}]
          /\ next_bitmap nd = None
          /\ compressed_bitmap nd = Some [0] /\ is_compressed nd = true
        else
          exists g r,
            first_ref s = Some g /\ ref_heap s !! g = Some r
            /\ ref' = Some g /\ bitmap' = Some (length (bmp_heap s))
            /\ head_bitmap_cnt s' = head_bitmap_cnt s + 1
            /\ first_ref s' = first_ref s
            /\ ref_heap s' = <[g := set_first r (Some (length (bmp_heap s)))]> (ref_heap s)
            /\ next_bitmap nd = first_compressed_bitmap r
            /\ compressed_bitmap nd = None).
Proof.
  intros Hreach Himg. destruct (reachable_inv s Hreach) as [Hbo Hro Hgr Hhd].
  unfold insert_null.
  destruct (Z.eqb_spec (head_bitmap_cnt s) MAX_COMPRESS_NUM) as [E|E].
  - rewrite (is_bitmap_length img Himg), Nat.leb_refl.
    rewrite <- (is_bitmap_length img Himg), firstn_all.
    eexists _, _, _, _. split; [reflexivity|]. cbn. done.
  - unfold head_ok in Hhd. destruct (first_ref s) as [g|] eqn:Hfirst; [|done].
    destruct Hhd as (r & Hg & Hlen). rewrite Hg.
    eexists _, _, _, _. split; [reflexivity|]. cbn.
    split; [done|]. split; [done|]. exists g, r.
    split; [done|]. split; [done|]. split; [done|]. split; [done|].
    split; [|done].
    pose proof (gk_cap _ _ (Hgr g r Hg)) as Hcap.
    apply wrap_int_small. unfold MAX_COMPRESS_NUM in *. lia.
Qed.


(** ** The insert workers: layout of the heaps *)

From Stdlib Require Import ZifyNat.

Ltac dlia := zify; Z.to_euclidean_division_equations; lia.

Lemma ver_csn_lookup vs i v :
  vs !! i = Some v -> ver_csn vs i = InputBitmap.bitmap_csn v.
Proof. unfold ver_csn. by intros ->. Qed.

Lemma ver_img_lookup vs i v :
  vs !! i = Some v -> ver_img vs i = InputBitmap.input_bitmap v.
Proof. unfold ver_img. by intros ->. Qed.

Section Workload.
Variable vs : list InputBitmap.t.
Hypothesis Hwl : workload_ok vs.

Lemma ver_img_bitmap i : (i < length vs)%nat -> is_bitmap (ver_img vs i) = true.
Proof using Hwl.
  intros Hi. destruct (lookup_lt_is_Some_2 vs i Hi) as [v Hv].
  rewrite (ver_img_lookup _ _ _ Hv). apply (wl_bitmap vs Hwl).
  by eapply list_elem_of_lookup_2.
Qed.

Lemma ver_img_sparse i i' :
  (i < length vs)%nat -> (i' < length vs)%nat ->
  Z.of_nat (length (diff_positions (ver_img vs i) (ver_img vs i'))) < 468.
Proof using Hwl.
  intros Hi Hi'. destruct (lookup_lt_is_Some_2 vs i Hi) as [v Hv].
  destruct (lookup_lt_is_Some_2 vs i' Hi') as [v' Hv'].
  rewrite (ver_img_lookup _ _ _ Hv), (ver_img_lookup _ _ _ Hv').
  apply (wl_sparse vs Hwl); by eapply list_elem_of_lookup_2.
Qed.

Lemma ver_csn_lt i i' :
  (i < i')%nat -> (i' < length vs)%nat -> ver_csn vs i < ver_csn vs i'.
Proof using Hwl.
  intros Hlt Hi'. destruct (lookup_lt_is_Some_2 vs i ltac:(lia)) as [v Hv].
  destruct (lookup_lt_is_Some_2 vs i' Hi') as [v' Hv'].
  rewrite (ver_csn_lookup _ _ _ Hv), (ver_csn_lookup _ _ _ Hv').
  by apply (wl_csn vs Hwl i i').
Qed.

Lemma ver_csn_le i i' :
  (i <= i')%nat -> (i' < length vs)%nat -> ver_csn vs i <= ver_csn vs i'.
Proof using Hwl.
  intros Hle Hi'. destruct (decide (i = i')) as [->|Hne]; [lia|].
  pose proof (ver_csn_lt i i' ltac:(lia) Hi'). lia.
Qed.

Lemma ver_sparse_flag i i' :
  (i < length vs)%nat -> (i' < length vs)%nat ->
  snd (compress_bitmap (ver_img vs i) (ver_img vs i')) = true.
Proof using Hwl.
  intros Hi Hi'. apply compress_sparse_iff; [by apply ver_img_bitmap|].
  by apply ver_img_sparse.
Qed.

End Workload.

Lemma lookup_map_seq {A} (f : nat -> A) n i :
  (i < n)%nat -> map f (seq 0 n) !! i = Some (f i).
Proof.
  intros Hi. change (map f (seq 0 n)) with (f <$> seq 0 n).
  rewrite list_lookup_fmap, lookup_seq_lt; done.
Qed.

Lemma lookup_map_seq_ge {A} (f : nat -> A) n i :
  (n <= i)%nat -> map f (seq 0 n) !! i = None.
Proof.
  intros Hi. apply lookup_ge_None. rewrite length_map, length_seq. lia.
Qed.

Lemma expected_ordered vs pend n :
  bmp_ordered (map (expected_node vs pend) (seq 0 n)).
Proof.
  intros a nd b Ha Hn.
  assert (a < n)%nat as Han.
  { apply lookup_lt_Some in Ha. by rewrite length_map, length_seq in Ha. }
  rewrite lookup_map_seq in Ha by done. injection Ha as <-.
  cbn [expected_node next_bitmap] in Hn.
  destruct (Nat.eqb_spec (a mod 9) 0); [discriminate|].
  injection Hn as <-. lia.
Qed.

(** Reading a version whose node has its payload. *)

Lemma layout_scan_refs vs n cnt hi G csn g0 :
  ver_csn vs (9 * g0) <= csn <= hi g0 ->
  (forall j, (g0 < j < G)%nat -> csn < ver_csn vs (9 * j)) ->
  forall d fuel, (g0 + d < G)%nat -> (g0 + d < fuel)%nat ->
    scan_refs fuel (map (expected_ref vs n cnt hi) (seq 0 G)) (Some (g0 + d)%nat) csn
    = Ret (ScanStop (Some g0)).
Proof.
  intros Hin Hnewer. induction d as [|d IH]; intros fuel HG Hf.
  - destruct fuel as [|fuel]; [lia|]. rewrite Nat.add_0_r.
    rewrite (scan_refs_step _ _ _ _ _ (lookup_map_seq _ G g0 ltac:(lia))).
    cbn [expected_ref csn_range fst snd].
    destruct (Z.ltb_spec csn (ver_csn vs (9 * g0))); [lia|].
    destruct (Z.gtb_spec csn (hi g0)); [lia|done].
  - destruct fuel as [|fuel]; [lia|].
    rewrite (scan_refs_step _ _ _ _ _ (lookup_map_seq _ G (g0 + S d) ltac:(lia))).
    cbn [expected_ref csn_range fst snd next_ref].
    pose proof (Hnewer (g0 + S d)%nat ltac:(lia)).
    destruct (Z.ltb_spec csn (ver_csn vs (9 * (g0 + S d)))); [|lia].
    destruct (Nat.eqb_spec (g0 + S d) 0); [lia|].
    replace (g0 + S d - 1)%nat with (g0 + d)%nat by lia.
    apply IH; lia.
Qed.

Lemma layout_scan_bitmaps vs pend n csn out R i :
  (forall b, (i < b < n)%nat -> ver_csn vs b <> csn) ->
  ver_csn vs i = csn ->
  forall d fuel, (i + d < n)%nat -> ((i + d) / 9 = i / 9)%nat -> (i + d < fuel)%nat ->
    scan_bitmaps fuel (map (expected_node vs pend) (seq 0 n)) (Some (i + d)%nat)
                 csn out R
    = (out' ← decompress_call out R (expected_node vs pend i); Ret (true, out')).
Proof.
  intros Hne Hcsn. induction d as [|d IH]; intros fuel Hn Hg Hf.
  - destruct fuel as [|fuel]; [lia|]. rewrite Nat.add_0_r. cbn [scan_bitmaps].
    rewrite lookup_map_seq by lia.
    cbn [expected_node bitmap_csn]. by rewrite Hcsn, Z.eqb_refl.
  - destruct fuel as [|fuel]; [lia|]. cbn [scan_bitmaps].
    rewrite lookup_map_seq by lia.
    cbn [expected_node bitmap_csn next_bitmap].
    pose proof (Hne (i + S d)%nat ltac:(lia)).
    destruct (Z.eqb_spec csn (ver_csn vs (i + S d))); [congruence|].
    destruct (Nat.eqb_spec ((i + S d) mod 9) 0) as [E|E]; [dlia|].
    replace (i + S d - 1)%nat with (i + d)%nat by lia.
    apply IH; [lia|dlia|lia].
Qed.

Lemma layout_read vs s n pend i out :
  workload_ok vs -> layout vs s n pend ->
  (i < n)%nat -> pending pend i = false -> length out = BITMAP_SIZE ->
  get_bitmap s (ver_csn vs i) out = Ret (true, ver_img vs i).
Proof.
  intros Hwl [Hn Hpend Hbmps (cnt & hi & Hrefs & Hhi) Hfirst Hcnt] Hi Hp Ho.
  unfold get_bitmap. rewrite Hrefs, Hfirst, Hbmps.
  rewrite !length_map, !length_seq.
  destruct (Nat.eqb_spec n 0) as [?|_]; [lia|].
  assert ((n - 1) / 9 = i / 9 + ((n - 1) / 9 - i / 9))%nat as -> by dlia.
  rewrite (layout_scan_refs vs n cnt hi _ (ver_csn vs i) (i / 9)); [| | |dlia|dlia].
  2:{ split; [|by apply Hhi]. apply (ver_csn_le vs Hwl); [dlia|lia]. }
  2:{ intros j Hj. apply (ver_csn_lt vs Hwl); dlia. }
  cbn [mbind outcome_bind deref].
  rewrite lookup_map_seq by dlia. cbn [mbind outcome_bind].
  cbn [expected_ref first_compressed_bitmap complete_bitmap].
  assert (Nat.min (9 * (i / 9) + 8) (n - 1)
          = i + (Nat.min (9 * (i / 9) + 8) (n - 1) - i))%nat as -> by dlia.
  rewrite (layout_scan_bitmaps vs pend n (ver_csn vs i) out _ i);
    [| |done|dlia|dlia|dlia].
  2:{ intros b Hb. pose proof (ver_csn_lt vs Hwl i b ltac:(lia) ltac:(lia)). lia. }
  unfold decompress_call. cbn [expected_node compressed_bitmap is_compressed].
  rewrite Hp. cbn [negb].
  assert (i < length vs)%nat as Hil by lia.
  assert (9 * (i / 9) < length vs)%nat as Hrl by dlia.
  pose proof (ver_img_bitmap vs Hwl i Hil) as HB.
  pose proof (ver_img_bitmap vs Hwl _ Hrl) as HR.
  pose proof (ver_sparse_flag vs Hwl i _ Hil Hrl) as Hs.
  pose proof (roundtrip_sparse out _ _ Ho HB HR Hs) as Hdec. rewrite Hs in Hdec.
  rewrite sparse_decompress_in_bounds;
    [|lia|by rewrite (is_bitmap_length _ HR)|by apply compress_sparse_payload].
  cbn [mbind outcome_bind]. by rewrite Hdec.
Qed.

(** The first part of a worker keeps the layout. *)

Lemma pending_app_ne pend x i : i <> x -> pending (pend ++ [x]) i = pending pend i.
Proof.
  intros Hne. unfold pending. f_equal. apply bool_decide_ext.
  rewrite elem_of_app, list_elem_of_singleton.
  split; [intros [?|?]; [done|congruence] | auto].
Qed.

Lemma pending_opener pend i : (i mod 9 = 0)%nat -> pending pend i = false.
Proof.
  intros E. unfold pending. rewrite E. cbn. apply andb_false_r.
Qed.

Lemma pending_true pend i :
  i ∈ pend -> (i mod 9 <> 0)%nat -> pending pend i = true.
Proof.
  intros Hin E. unfold pending. rewrite bool_decide_eq_true_2 by done.
  by destruct (Nat.eqb_spec (i mod 9) 0).
Qed.

Lemma compress_same B : is_bitmap B = true -> compress_bitmap B B = ([0], true).
Proof.
  intros HB. rewrite (compress_bitmap_spec B B HB), diff_positions_same. reflexivity.
Qed.

Lemma layout_reserve vs s n pend v :
  workload_ok vs -> layout vs s n pend -> vs !! n = Some v ->
  exists s',
    worker_reserve s v
    = Ret (s', w_ref (expected_worker n), w_bitmap (expected_worker n))
    /\ layout vs s' (S n) (pend ++ [n]).
Proof.
  intros Hwl [Hn [Hnd Hpend] Hbmps (cnt & hi & Hrefs & Hhi) Hfirst Hcnt] Hv.
  pose proof (lookup_lt_Some _ _ _ Hv) as Hnl.
  pose proof (ver_img_bitmap vs Hwl n Hnl) as Himg.
  pose proof (ver_img_lookup _ _ _ Hv) as Eimg.
  pose proof (ver_csn_lookup _ _ _ Hv) as Ecsn.
  assert (NoDup (pend ++ [n])) as Hnd'.
  { apply NoDup_app. split; [done|]. split; [|apply NoDup_singleton].
    intros x Hx ->%list_elem_of_singleton. apply Hpend in Hx. lia. }
  assert (forall i, i ∈ pend ++ [n] -> (i < S n)%nat) as Hpend'.
  { intros i [Hi| ->%list_elem_of_singleton]%elem_of_app; [|lia].
    apply Hpend in Hi. lia. }
  assert (map (expected_node vs (pend ++ [n])) (seq 0 n)
          = map (expected_node vs pend) (seq 0 n)) as Hold.
  { apply map_ext_in. intros i Hi%in_seq. unfold expected_node.
    by rewrite pending_app_ne by lia. }
  unfold worker_reserve, insert_null. rewrite Hcnt, <- Eimg, <- Ecsn.
  destruct (Nat.eqb_spec n 0) as [En|En];
    [|destruct (decide (n mod 9 = 0)%nat) as [E9|E9]].
  - (* the first version *)
    subst n. cbn [Z.eqb MAX_COMPRESS_NUM Pos.eqb].
    rewrite (is_bitmap_length _ Himg), Nat.leb_refl.
    eexists. split; [reflexivity|].
    rewrite <- (is_bitmap_length _ Himg), firstn_all.
    split; cbn [bmp_heap ref_heap first_ref head_bitmap_cnt]; [lia|done| | | |done].
    + rewrite Hbmps. cbn. unfold expected_node. cbn.
      rewrite pending_opener by done. by rewrite (compress_same _ Himg).
    + exists (fun _ => 1), (fun _ => ver_csn vs 0). rewrite Hrefs, Hfirst. cbn.
      split; [by rewrite Hbmps|]. intros i Hi _. replace i with 0%nat by lia. lia.
    + by rewrite Hrefs.
  - (* the head group is full *)
    replace (Z.of_nat ((n - 1) mod 9) + 1 =? MAX_COMPRESS_NUM) with true
      by (symmetry; apply Z.eqb_eq; unfold MAX_COMPRESS_NUM; dlia).
    rewrite (is_bitmap_length _ Himg), Nat.leb_refl.
    eexists. split.
    { unfold expected_worker. cbn [w_ref w_bitmap].
      destruct (Nat.eqb_spec (n mod 9) 0); [reflexivity|lia]. }
    rewrite <- (is_bitmap_length _ Himg), firstn_all.
    split; cbn [bmp_heap ref_heap first_ref head_bitmap_cnt]; [lia|done| | | |].
    + rewrite seq_S, map_app, Hold, Hbmps. cbn [map Nat.add]. f_equal.
      unfold expected_node.
      rewrite pending_opener by done. cbn [negb].
      destruct (Nat.eqb_spec (n mod 9) 0) as [_|?]; [|lia].
      replace (9 * (n / 9))%nat with n by dlia.
      by rewrite (compress_same _ Himg).
    + set (G := ((n + 8) / 9)%nat).
      exists (fun j => if (j =? G)%nat then 1 else cnt j),
             (fun j => if (j =? G)%nat then ver_csn vs n else hi j).
      split.
      * replace ((S n + 8) / 9)%nat with (S G) by (unfold G; dlia).
        rewrite seq_S, map_app, Hrefs, Hbmps, Hfirst. fold G. cbn [map].
        rewrite !length_map, !length_seq. f_equal.
        -- apply map_ext_in. intros j Hj%in_seq. unfold expected_ref.
           destruct (Nat.eqb_spec j G); [lia|]. f_equal. f_equal.
           unfold G in *. dlia.
        -- unfold expected_ref. rewrite Nat.eqb_refl. cbn [Nat.add].
           destruct (Nat.eqb_spec n 0) as [?|_]; [lia|].
           replace (9 * G)%nat with n by (unfold G; dlia).
           f_equal. f_equal.
           ++ destruct (Nat.eqb_spec G 0); [unfold G in *; dlia|].
              f_equal. unfold G. dlia.
           ++ f_equal. lia.
      * intros i Hi Hp. destruct (decide (i = n)) as [->|Hne].
        -- replace (n / 9)%nat with G by (unfold G; dlia).
           rewrite Nat.eqb_refl. lia.
        -- rewrite pending_app_ne in Hp by done.
           destruct (Nat.eqb_spec (i / 9) G); [unfold G in *; dlia|].
           apply Hhi; [lia|done].
    + rewrite Hrefs, length_map, length_seq. f_equal. dlia.
    + replace (S n - 1)%nat with n by lia. rewrite E9. done.
  - (* a placeholder in the head group *)
    replace (Z.of_nat ((n - 1) mod 9) + 1 =? MAX_COMPRESS_NUM) with false
      by (symmetry; apply Z.eqb_neq; unfold MAX_COMPRESS_NUM; dlia).
    rewrite Hfirst. destruct (Nat.eqb_spec n 0) as [?|_]; [lia|].
    rewrite Hrefs, lookup_map_seq by dlia.
    eexists. split.
    { unfold expected_worker. cbn [w_ref w_bitmap].
      destruct (Nat.eqb_spec (n mod 9) 0); [lia|].
      rewrite Hbmps, length_map, length_seq.
      replace ((n - 1) / 9)%nat with (n / 9)%nat by dlia. reflexivity. }
    split; cbn [bmp_heap ref_heap first_ref head_bitmap_cnt]; [lia|done| | | |].
    + rewrite seq_S, map_app, Hold. cbn [map Nat.add]. f_equal.
      unfold expected_node, expected_ref. cbn [first_compressed_bitmap].
      rewrite pending_true;
        [|apply elem_of_app; right; by apply list_elem_of_singleton|done].
      destruct (Nat.eqb_spec (n mod 9) 0); [lia|]. cbn [negb].
      f_equal. f_equal. f_equal. dlia.
    + exists cnt, hi. split.
      * replace ((S n + 8) / 9)%nat with ((n + 8) / 9)%nat by dlia.
        apply list_eq. intros j.
        destruct (decide (j < (n + 8) / 9)%nat) as [Hj|Hj].
        -- rewrite lookup_map_seq by done.
           destruct (decide (j = n / 9)%nat) as [->|Hne].
           ++ rewrite list_lookup_insert_eq by (rewrite length_map, length_seq; dlia).
              unfold set_first, expected_ref.
              cbn [bitmap_cnt csn_range next_ref first_compressed_bitmap
                   complete_bitmap].
              do 3 f_equal. dlia.
           ++ rewrite list_lookup_insert_ne by done. rewrite lookup_map_seq by done.
              unfold expected_ref. f_equal. f_equal. f_equal. dlia.
        -- rewrite !lookup_ge_None_2; [done|..];
             rewrite ?length_insert, length_map, length_seq; lia.
      * intros i Hi Hp. destruct (decide (i = n)) as [->|Hne].
        -- rewrite pending_true in Hp;
             [done|apply elem_of_app; right; by apply list_elem_of_singleton|done].
        -- rewrite pending_app_ne in Hp by done. apply Hhi; [lia|done].
    + replace (S n - 1)%nat with n by lia. done.
    + rewrite wrap_int_small by dlia.
      replace (S n - 1)%nat with n by lia. cbn [Nat.eqb]. dlia.
Qed.

(** The second part of a worker keeps the layout. *)

Lemma layout_chain vs pend n g :
  forall t fuel, (9 * g + t < n)%nat -> (t < 9)%nat -> (9 * g + t < fuel)%nat ->
    chain fuel (map (expected_node vs pend) (seq 0 n)) (Some (9 * g + t)%nat)
    = reverse (seq (9 * g) (S t)).
Proof.
  induction t as [|t IH]; intros fuel Hn Ht Hf.
  - destruct fuel as [|fuel]; [lia|]. rewrite Nat.add_0_r.
    rewrite (chain_cons _ _ _ _ (lookup_map_seq _ n (9 * g) ltac:(lia))).
    cbn [expected_node next_bitmap].
    destruct (Nat.eqb_spec ((9 * g) mod 9) 0); [|dlia].
    by rewrite chain_None.
  - destruct fuel as [|fuel]; [lia|].
    rewrite (chain_cons _ _ _ _ (lookup_map_seq _ n (9 * g + S t) ltac:(lia))).
    cbn [expected_node next_bitmap].
    destruct (Nat.eqb_spec ((9 * g + S t) mod 9) 0); [dlia|].
    replace (9 * g + S t - 1)%nat with (9 * g + t)%nat by lia.
    rewrite IH by lia.
    rewrite (seq_S (S t)), reverse_app. reflexivity.
Qed.

Lemma reverse_seq_split a t u :
  (u <= t)%nat ->
  reverse (seq a (S t))
  = reverse (seq (S (a + u)) (t - u)) ++ (a + u)%nat :: reverse (seq a u).
Proof.
  intros Hu. replace (S t) with (u + S (t - u))%nat by lia.
  rewrite seq_app, reverse_app. cbn [seq]. rewrite reverse_cons, <- app_assoc.
  reflexivity.
Qed.

Lemma last_reverse_seq a m :
  last (reverse (seq a m)) = if (m =? 0)%nat then None else Some a.
Proof. rewrite last_reverse. by destruct m. Qed.

Lemma set_payload_same nd w :
  compressed_bitmap nd = Some w -> set_payload nd w (is_compressed nd) = nd.
Proof. destruct nd. cbn. by intros ->. Qed.

Lemma pending_remove pend1 x pend2 i :
  i <> x -> pending (pend1 ++ pend2) i = pending (pend1 ++ x :: pend2) i.
Proof.
  intros Hne. unfold pending. f_equal. apply bool_decide_ext.
  rewrite !elem_of_app, elem_of_cons. split; [tauto|]. intros [?|[?|?]]; tauto.
Qed.

Lemma pending_removed pend1 x pend2 :
  NoDup (pend1 ++ x :: pend2) -> pending (pend1 ++ pend2) x = false.
Proof.
  intros Hnd. unfold pending. rewrite bool_decide_eq_false_2; [done|].
  apply NoDup_app in Hnd as (_ & H1 & H2). apply NoDup_cons in H2 as [H2 _].
  intros [Hin|Hin]%elem_of_app; [|done]. apply (H1 x Hin). by left.
Qed.

(** The delta of a version that keeps the bits of an older one contains
    the delta of the older one, when both keep the bits of the
    reference. *)
Lemma diff_nested R B1 B2 p :
  bits_subset R B1 -> bits_subset B1 B2 ->
  p ∈ diff_positions B1 R -> p ∈ diff_positions B2 R.
Proof.
  intros HR H12. unfold diff_positions.
  rewrite !list_elem_of_In, !filter_In. intros [Hp Hx]. split; [done|].
  destruct (bit_at B1 p) eqn:E1.
  - rewrite (H12 p E1). destruct (bit_at R p); [discriminate|done].
  - destruct (bit_at R p) eqn:ER; [|discriminate].
    apply HR in ER. congruence.
Qed.


Lemma fst_pair_eq {A B} (x : A * B) a b : x = (a, b) -> fst x = a.
Proof. by intros ->. Qed.

(** What [insert_bitmap_content] does for the worker of position [i]. *)
Lemma layout_fill_content vs s n pend i :
  workload_ok vs -> layout vs s n pend ->
  i ∈ pend -> (i mod 9 <> 0)%nat ->
  ((i + 1 < n)%nat -> ((i + 1) mod 9 <> 0)%nat -> pending pend (i + 1) = false ->
     forall p,
       p ∈ diff_positions (ver_img vs i) (ver_img vs (9 * (i / 9))) ->
       p ∈ diff_positions (ver_img vs (i + 1)) (ver_img vs (9 * (i / 9)))) ->
  exists cnt hi x,
    ref_heap s = map (expected_ref vs n cnt hi) (seq 0 ((n + 8) / 9))
    /\ (forall k, (k < n)%nat -> pending pend k = false ->
                  ver_csn vs k <= hi (k / 9)%nat)
    /\ ver_csn vs i <= x
    /\ insert_bitmap_content s (Some (i / 9)%nat) (Some i) (ver_img vs i)
       = Ret ({| ref_heap :=
                   <[(i / 9)%nat :=
                       set_cnt_range (expected_ref vs n cnt hi (i / 9))
                         (wrap_int (cnt (i / 9)%nat + 1))
                         (ver_csn vs (9 * (i / 9)), Z.max (hi (i / 9)%nat) x)]>
                     (ref_heap s);
                 bmp_heap :=
                   <[i := set_payload (expected_node vs pend i)
                            (fst (compress_bitmap (ver_img vs i)
                                                  (ver_img vs (9 * (i / 9)))))
                            true]> (bmp_heap s);
                 first_ref := first_ref s;
                 head_bitmap_cnt := head_bitmap_cnt s |}, true).
Proof.
  intros Hwl [Hn [Hnd Hpend] Hbmps (cnt & hi & Hrefs & Hhi) Hfirst Hcnt] Hin E9 Hnest.
  pose proof (Hpend i Hin) as Hi.
  set (g := (i / 9)%nat).
  set (F := Nat.min (9 * g + 8) (n - 1)).
  assert (g < (n + 8) / 9)%nat as Hg by (unfold g; dlia).
  assert (i <= F)%nat as HiF by (unfold F, g; dlia).
  assert (F < n)%nat as HFn by (unfold F; lia).
  assert (ref_heap s !! g = Some (expected_ref vs n cnt hi g)) as Hrg
    by (rewrite Hrefs; by apply lookup_map_seq).
  assert (bmp_heap s !! i = Some (expected_node vs pend i)) as Hbi
    by (rewrite Hbmps; by apply lookup_map_seq).
  assert (bmp_ordered (bmp_heap s)) as Hbo
    by (rewrite Hbmps; apply expected_ordered).
  assert (i < length vs)%nat as Hil by lia.
  assert (9 * g < length vs)%nat as Hrl by (unfold g; dlia).
  pose proof (ver_img_bitmap vs Hwl i Hil) as HB.
  pose proof (ver_img_bitmap vs Hwl _ Hrl) as HR.
  pose proof (ver_sparse_flag vs Hwl i _ Hil Hrl) as Hs.
  assert (group_chain s (expected_ref vs n cnt hi g)
          = reverse (seq (S i) (F - i)) ++ i :: reverse (seq (9 * g) (i - 9 * g)))
    as Hch.
  { unfold group_chain. cbn [expected_ref first_compressed_bitmap]. fold F.
    rewrite Hbmps, length_map, length_seq.
    replace F with (9 * g + (F - 9 * g))%nat at 1 by (unfold F, g; dlia).
    rewrite layout_chain by (unfold F, g in *; dlia).
    rewrite (reverse_seq_split (9 * g) (F - 9 * g) (i - 9 * g))
      by (unfold F, g in *; dlia).
    replace (9 * g + (i - 9 * g))%nat with i by (unfold g; dlia).
    by replace (F - 9 * g - (i - 9 * g))%nat with (F - i)%nat
      by (unfold F, g in *; dlia). }
  pose proof (insert_bitmap_content_eval s g i _ _ (ver_img vs i) _ _
                Hbo Hrg Hbi Hch) as Hev.
  cbn [expected_ref complete_bitmap] in Hev.
  rewrite (is_bitmap_length _ HB), (is_bitmap_length _ HR) in Hev.
  specialize (Hev (le_n _) (le_n _)). cbv zeta in Hev.
  rewrite Hs, last_reverse_seq in Hev.
  cbn [bitmap_cnt csn_range fst snd] in Hev.
  exists cnt, hi. rewrite Hev. clear Hev.
  destruct (Nat.eqb_spec (F - i) 0) as [EF|EF].
  { exists (ver_csn vs i). split; [exact Hrefs|]. split; [exact Hhi|]. split; [lia|].
    cbn [mbind outcome_bind hi_candidate expected_node bitmap_csn]. reflexivity. }
  assert (S i < n)%nat as HSi by lia.
  assert ((S i) mod 9 <> 0)%nat as E9' by (unfold F, g in *; dlia).
  assert (S i / 9 = g)%nat as Eg by (unfold F, g in *; dlia).
  rewrite Hbmps, (lookup_map_seq _ n (S i)) by done.
  unfold hi_candidate. rewrite Hbmps, (lookup_map_seq _ n (S i)) by done.
  unfold materialized. cbn [expected_node compressed_bitmap bitmap_csn is_compressed].
  destruct (pending pend (S i)) eqn:Hp.
  { exists (ver_csn vs i). split; [exact Hrefs|]. split; [exact Hhi|]. split; [lia|].
    cbn [mbind outcome_bind andb]. rewrite <- Hbmps. reflexivity. }
  rewrite Eg. fold g.
  assert (S i < length vs)%nat as HSl by lia.
  pose proof (ver_img_bitmap vs Hwl (S i) HSl) as HB'.
  pose proof (ver_sparse_flag vs Hwl (S i) _ HSl Hrl) as Hs'.
  rewrite (sparse_union_in_bounds _ _ (compress_sparse_payload _ _ HB' Hs')
             (compress_sparse_payload _ _ HB Hs)).
  assert (forall p,
            p ∈ diff_positions (ver_img vs i) (ver_img vs (9 * g)) ->
            p ∈ diff_positions (ver_img vs (S i)) (ver_img vs (9 * g))) as Hsub.
  { replace (S i) with (i + 1)%nat by lia.
    apply Hnest; [lia|by replace (i + 1)%nat with (S i) by lia|].
    replace (i + 1)%nat with (S i) by lia. exact Hp. }
  rewrite (fst_pair_eq _ _ _
             (union_absorb _ _ (compress_sparse_payload _ _ HB' Hs')
                (compress_sparse_payload _ _ HB Hs)
                (nested_tails _ _ _ HB HB' Hs Hs' Hsub))).
  cbn [mbind outcome_bind andb negb].
  exists (if ver_csn vs (S i) =? -1 then ver_csn vs i else ver_csn vs (S i)).
  split; [exact Hrefs|]. split; [exact Hhi|]. split.
  { pose proof (ver_csn_lt vs Hwl i (S i) ltac:(lia) HSl).
    destruct (_ =? -1); lia. }
  do 3 f_equal.
  { cbn [expected_ref bitmap_cnt csn_range fst snd].
    destruct (ver_csn vs (S i) =? -1); reflexivity. }
  apply list_insert_id.
  rewrite list_lookup_insert_ne by lia.
  rewrite lookup_map_seq by exact HSi. f_equal.
  unfold set_payload, expected_node.
  cbn [bitmap_csn next_bitmap compressed_bitmap is_compressed].
  rewrite Hp, Eg. reflexivity.
Qed.

Lemma layout_fill vs s n pend1 i pend2 v :
  workload_ok vs -> layout vs s n (pend1 ++ i :: pend2) -> vs !! i = Some v ->
  ((i + 1 < n)%nat -> ((i + 1) mod 9 <> 0)%nat ->
     pending (pend1 ++ i :: pend2) (i + 1) = false ->
     forall p,
       p ∈ diff_positions (ver_img vs i) (ver_img vs (9 * (i / 9))) ->
       p ∈ diff_positions (ver_img vs (i + 1)) (ver_img vs (9 * (i / 9)))) ->
  exists s',
    worker_fill s (w_ref (expected_worker i)) (w_bitmap (expected_worker i)) v
    = Ret s'
    /\ layout vs s' n (pend1 ++ pend2).
Proof.
  intros Hwl Hlay Hv Hnest.
  pose proof (ver_img_lookup _ _ _ Hv) as Eimg.
  assert (i ∈ pend1 ++ i :: pend2) as Hin
    by (apply elem_of_app; right; by left).
  assert (NoDup (pend1 ++ pend2)
          /\ forall k, k ∈ pend1 ++ pend2 -> (k < n)%nat) as Hpend'.
  { destruct Hlay as [_ [Hnd Hpend] _ _ _ _]. split.
    - apply NoDup_app in Hnd as (H1 & H2 & H3). apply NoDup_cons in H3 as [_ H3].
      apply NoDup_app. split; [done|]. split; [|done].
      intros x Hx Hx2. apply (H2 x Hx). by right.
    - intros k Hk. apply Hpend. apply elem_of_app in Hk as [?|?];
        apply elem_of_app; [by left|right; by right]. }
  unfold worker_fill, expected_worker. cbn [w_ref w_bitmap].
  destruct (Nat.eqb_spec (i mod 9) 0) as [E9|E9].
  - (* the worker opened a group: nothing to fill *)
    exists s. split; [done|].
    destruct Hlay as [Hn [Hnd Hpend] Hbmps (cnt & hi & Hrefs & Hhi) Hfirst Hcnt].
    assert (forall k, pending (pend1 ++ pend2) k = pending (pend1 ++ i :: pend2) k)
      as Hsame.
    { intros k. destruct (decide (k = i)) as [->|Hne].
      - by rewrite !pending_opener.
      - by apply pending_remove. }
    split; [done|done| | |done|done].
    + rewrite Hbmps. apply map_ext. intros k. unfold expected_node.
      by rewrite Hsame.
    + exists cnt, hi. split; [done|]. intros k Hk Hp. apply Hhi; [done|].
      by rewrite <- Hsame.
  - (* the worker fills its placeholder *)
    destruct (layout_fill_content vs s n _ i Hwl Hlay Hin E9 Hnest)
      as (cnt & hi & x & Hrefs & Hhi & Hx & Hrun).
    rewrite <- Eimg, Hrun. cbn [mbind outcome_bind]. eexists. split; [reflexivity|].
    destruct Hlay as [Hn [Hnd Hpend] Hbmps _ Hfirst Hcnt].
    pose proof (Hpend i Hin) as Hi.
    split; cbn [bmp_heap ref_heap first_ref head_bitmap_cnt];
      [exact Hn|exact Hpend'| | |exact Hfirst|exact Hcnt].
    + rewrite Hbmps. apply list_eq. intros k.
      destruct (decide (k < n)%nat) as [Hk|Hk].
      * rewrite (lookup_map_seq _ n k Hk).
        destruct (decide (k = i)) as [->|Hne].
        -- rewrite list_lookup_insert_eq by (by rewrite length_map, length_seq).
           f_equal. unfold set_payload, expected_node.
           cbn [bitmap_csn next_bitmap compressed_bitmap is_compressed].
           rewrite (pending_removed _ _ _ Hnd). reflexivity.
        -- rewrite list_lookup_insert_ne by done.
           rewrite (lookup_map_seq _ n k Hk). f_equal. unfold expected_node.
           by rewrite (pending_remove pend1 i pend2 k Hne).
      * rewrite !lookup_ge_None_2; [done|..];
          rewrite ?length_insert, length_map, length_seq; lia.
    + exists (fun j => if (j =? i / 9)%nat then wrap_int (cnt (i / 9)%nat + 1)
                       else cnt j),
             (fun j => if (j =? i / 9)%nat then Z.max (hi (i / 9)%nat) x else hi j).
      split.
      * rewrite Hrefs. apply list_eq. intros j.
        destruct (decide (j < (n + 8) / 9)%nat) as [Hj|Hj].
        -- rewrite (lookup_map_seq _ _ j Hj).
           destruct (decide (j = i / 9)%nat) as [->|Hne].
           ++ rewrite list_lookup_insert_eq by (by rewrite length_map, length_seq).
              unfold set_cnt_range, expected_ref.
              cbn [bitmap_cnt csn_range next_ref first_compressed_bitmap
                   complete_bitmap].
              by rewrite Nat.eqb_refl.
           ++ rewrite list_lookup_insert_ne by done.
              rewrite (lookup_map_seq _ _ j Hj). unfold expected_ref.
              by destruct (Nat.eqb_spec j (i / 9)).
        -- rewrite !lookup_ge_None_2; [done|..];
             rewrite ?length_insert, length_map, length_seq; lia.
      * intros k Hk Hp. cbn beta. destruct (decide (k = i)) as [->|Hne].
        -- rewrite Nat.eqb_refl. lia.
        -- rewrite (pending_remove pend1 i pend2 k Hne) in Hp.
           pose proof (Hhi k Hk Hp) as Hle.
           destruct (Nat.eqb_spec (k / 9) (i / 9)) as [E|_]; [rewrite E in Hle|]; lia.
Qed.

(** ** The insert workers: every finished version reads back *)

Lemma layout_init vs : layout vs init 0 [].
Proof.
  split; cbn; [lia|split; [constructor|by intros i ?%elem_of_nil]|done| |done|done].
  exists (fun _ => 0), (fun _ => 0). split; [done|]. intros i Hi. lia.
Qed.

Lemma grows_nested vs i :
  workload_ok vs -> workload_grows vs -> (i + 1 < length vs)%nat ->
  forall p,
    p ∈ diff_positions (ver_img vs i) (ver_img vs (9 * (i / 9))) ->
    p ∈ diff_positions (ver_img vs (i + 1)) (ver_img vs (9 * (i / 9))).
Proof.
  intros Hwl Hg Hi p.
  destruct (lookup_lt_is_Some_2 vs i ltac:(lia)) as [v Hv].
  destruct (lookup_lt_is_Some_2 vs (i + 1) Hi) as [v' Hv'].
  destruct (lookup_lt_is_Some_2 vs (9 * (i / 9)) ltac:(dlia)) as [vR HvR].
  rewrite (ver_img_lookup _ _ _ Hv), (ver_img_lookup _ _ _ Hv'),
    (ver_img_lookup _ _ _ HvR).
  apply diff_nested.
  - apply (Hg (9 * (i / 9))%nat i); [dlia|done..].
  - apply (Hg i (i + 1)%nat); [lia|done..].
Qed.

Lemma driver_layout vs s pos ws :
  workload_ok vs -> workload_grows vs -> driver vs s pos ws ->
  layout vs s pos (map local_pos ws)
  /\ Forall (fun w => w = expected_worker (local_pos w)) ws.
Proof.
  intros Hwl Hg Hd. induction Hd as
    [|s pos ws v s' ref bitmap Hd [IHl IHw] Hv Hrun
     |s pos ws1 w ws2 v s' Hd [IHl IHw] Hv Hrun].
  - split; [apply layout_init|constructor].
  - destruct (layout_reserve vs s pos _ v Hwl IHl Hv) as (s'' & Hrun' & Hlay).
    rewrite Hrun in Hrun'. injection Hrun' as -> -> ->.
    rewrite map_app. cbn [map local_pos]. split; [done|].
    apply Forall_app. split; [done|]. by constructor.
  - rewrite map_app in IHl. cbn [map] in IHl.
    apply Forall_app in IHw as [IH1 IH2]. apply Forall_cons in IH2 as [Hw IH2].
    pose proof (lay_n _ _ _ _ IHl) as Hn.
    destruct (layout_fill vs s pos _ (local_pos w) _ v Hwl IHl Hv) as (s'' & Hrun' & Hlay).
    { intros Hi _ _. apply grows_nested; [done|done|lia]. }
    rewrite Hw in Hrun. cbn [local_pos] in Hrun.
    rewrite Hrun in Hrun'. injection Hrun' as ->.
    rewrite map_app. split; [done|]. by apply Forall_app.
Qed.

(** The same for one worker alone; no version needs to keep the bits of
    another. *)
Lemma insert_one_layout vs s n v :
  workload_ok vs -> layout vs s n [] -> vs !! n = Some v ->
  exists s', insert_one s v = Ret s' /\ layout vs s' (S n) [].
Proof.
  intros Hwl Hlay Hv.
  destruct (layout_reserve vs s n [] v Hwl Hlay Hv) as (s1 & Hrun1 & Hlay1).
  cbn [app] in Hlay1.
  destruct (layout_fill vs s1 (S n) [] n [] v Hwl Hlay1 Hv) as (s2 & Hrun2 & Hlay2).
  { intros Hi. lia. }
  exists s2. unfold insert_one. rewrite Hrun1. cbn [mbind outcome_bind].
  split; [exact Hrun2|exact Hlay2].
Qed.

Lemma insert_all_layout vs rest :
  workload_ok vs ->
  forall s n, layout vs s n [] -> drop n vs = rest ->
    exists s', insert_all s rest = Ret s' /\ layout vs s' (length vs) [].
Proof.
  intros Hwl. induction rest as [|v rest IH]; intros s n Hlay Hdrop.
  - exists s. split; [done|].
    assert (n = length vs) as <-; [|done].
    pose proof (lay_n _ _ _ _ Hlay). apply drop_nil_inv in Hdrop. lia.
  - assert (vs !! n = Some v) as Hv.
    { rewrite <- (Nat.add_0_r n), <- lookup_drop, Hdrop. done. }
    destruct (insert_one_layout vs s n v Hwl Hlay Hv) as (s1 & Hrun & Hlay1).
    destruct (IH s1 (S n) Hlay1) as (s' & Hrun' & Hlay').
    { rewrite (drop_S _ _ _ Hv) in Hdrop. by injection Hdrop. }
    exists s'. cbn [insert_all]. rewrite Hrun. cbn [mbind outcome_bind]. done.
Qed.

(** X17: one insert worker alone (the benchmark with a single insert
    thread).  For versions with increasing CSNs whose bitmaps differ
    pairwise in fewer than 468 bits, inserting them one after the other,
    [insert_null] then [insert_bitmap_content] when a handle came back,
    never faults, and afterwards [get_bitmap] returns true and exactly the
    inserted bitmap for the CSN of every version. *)
Theorem X17_single_worker_reads_back (versions : list InputBitmap.t) :
  workload_ok versions ->
  exists s,
    insert_all init versions = Ret s
    /\ forall v out,
         v ∈ versions -> length out = BITMAP_SIZE ->
         get_bitmap s (InputBitmap.bitmap_csn v) out
         = Ret (true, InputBitmap.input_bitmap v).
Proof.
  intros Hwl.
  destruct (insert_all_layout versions versions Hwl init 0%nat
              (layout_init versions) eq_refl) as (s & Hrun & Hlay).
  exists s. split; [exact Hrun|].
  intros v out Hv Ho. apply list_elem_of_lookup in Hv as [i Hi].
  rewrite <- (ver_csn_lookup _ _ _ Hi), <- (ver_img_lookup _ _ _ Hi).
  eapply layout_read; [exact Hwl|exact Hlay|by eapply lookup_lt_Some|done|exact Ho].
Qed.

(** X18: the insert workers under any interleaving.  For versions with
    increasing CSNs, each keeping the bits of the ones before it and any
    two differing in fewer than 468 bits, in every state the workers
    reach: for every version whose worker is through with both parts,
    [get_bitmap] returns true and exactly the inserted bitmap, whatever
    the other workers have done or left pending. *)
Theorem X18_finished_versions_read_back (versions : list InputBitmap.t)
    (s : BitmapController) (pos : nat) (ws : list worker) :
  workload_ok versions -> workload_grows versions ->
  driver versions s pos ws ->
  forall i v out,
    versions !! i = Some v -> (i < pos)%nat -> i ∉ map local_pos ws ->
    length out = BITMAP_SIZE ->
    get_bitmap s (InputBitmap.bitmap_csn v) out
    = Ret (true, InputBitmap.input_bitmap v).
Proof.
  intros Hwl Hg Hd i v out Hi Hpos Hfin Ho.
  destruct (driver_layout _ _ _ _ Hwl Hg Hd) as [Hlay _].
  rewrite <- (ver_csn_lookup _ _ _ Hi), <- (ver_img_lookup _ _ _ Hi).
  eapply layout_read; [exact Hwl|exact Hlay|exact Hpos| |exact Ho].
  unfold pending. by rewrite bool_decide_eq_false_2.
Qed.

(** X19: under the same conditions no worker ever faults or gets stuck:
    in every state the workers reach, [insert_null] for the next version
    returns, and so does the second part of every worker that is between
    its two parts. *)
Theorem X19_workers_never_fault (versions : list InputBitmap.t)
    (s : BitmapController) (pos : nat) (ws : list worker) :
  workload_ok versions -> workload_grows versions ->
  driver versions s pos ws ->
  (forall v, versions !! pos = Some v ->
     exists s' ref bitmap, worker_reserve s v = Ret (s', ref, bitmap))
  /\ (forall w, w ∈ ws ->
        exists v s', versions !! local_pos w = Some v
                     /\ worker_fill s (w_ref w) (w_bitmap w) v = Ret s').
Proof.
  intros Hwl Hg Hd.
  destruct (driver_layout _ _ _ _ Hwl Hg Hd) as [Hlay Hws].
  pose proof (lay_n _ _ _ _ Hlay) as Hn.
  split.
  - intros v Hv.
    destruct (layout_reserve _ _ _ _ v Hwl Hlay Hv) as (s' & Hrun & _). eauto.
  - intros w Hw. apply list_elem_of_split in Hw as (ws1 & ws2 & ->).
    rewrite map_app in Hlay. cbn [map] in Hlay.
    apply Forall_app in Hws as [_ Hws]. apply Forall_cons in Hws as [Hw _].
    assert (local_pos w < pos)%nat as Hlt.
    { apply (proj2 (lay_pend _ _ _ _ Hlay)). apply elem_of_app. right. by left. }
    destruct (lookup_lt_is_Some_2 versions (local_pos w) ltac:(lia)) as [v Hv].
    destruct (layout_fill _ _ _ _ _ _ v Hwl Hlay Hv) as (s' & Hrun & _).
    { intros Hi _ _. apply grows_nested; [done|done|lia]. }
    exists v, s'. split; [done|]. rewrite Hw. exact Hrun.
Qed.


(** * The benchmark driver *)

(** ** RandomSet sets bits and nothing else *)

Lemma rd_insert_ne (l : list Z) i j x : i <> j -> rd (<[i := x]> l) j = rd l j.
Proof.
  intros Hne. unfold rd. rewrite !nth_lookup. by rewrite list_lookup_insert_ne.
Qed.

Lemma byte_lor_range a b : 0 <= a < 256 -> 0 <= b < 256 -> 0 <= Z.lor a b < 256.
Proof.
  intros Ha Hb. assert (0 <= Z.lor a b) as H0 by (apply Z.lor_nonneg; lia).
  split; [done|].
  destruct (Z.eq_dec (Z.lor a b) 0) as [->|Hne]; [lia|].
  apply (Z.log2_lt_pow2 _ 8); [lia|].
  rewrite Z.log2_lor by lia.
  assert (forall x, 0 <= x < 256 -> Z.log2 x < 8) as Hlog.
  { intros x Hx. destruct (Z.eq_dec x 0) as [->|Hx0]; [done|].
    apply Z.log2_lt_pow2; lia. }
  pose proof (Hlog a Ha). pose proof (Hlog b Hb). lia.
Qed.

Lemma bitset_vector_pow k : (k < 8)%nat -> rd bitset_vector k = 2 ^ Z.of_nat k.
Proof. intros Hk. do 8 (destruct k as [|k]; [reflexivity|]). lia. Qed.

(** [bitmap[pos] | bitset_vector[k]] sets bit [k] of the byte. *)
Lemma set_byte_bit x k :
  0 <= x < 256 -> (k < 8)%nat ->
  0 <= wrap8 (Z.lor x (rd bitset_vector k)) < 256
  /\ (forall m, 0 <= m ->
        Z.testbit (wrap8 (Z.lor x (rd bitset_vector k))) m
        = Z.testbit x m || (m =? Z.of_nat k))
  /\ (wrap8 (Z.lor x (rd bitset_vector k)) = x <-> Z.testbit x (Z.of_nat k) = true).
Proof.
  intros Hx Hk. rewrite (bitset_vector_pow k Hk).
  assert (0 <= 2 ^ Z.of_nat k < 256) as Hp.
  { split; [lia|]. apply (Z.pow_lt_mono_r 2 _ 8); lia. }
  pose proof (byte_lor_range x _ Hx Hp) as Hr.
  unfold wrap8. rewrite Z.mod_small by lia.
  assert (forall m, 0 <= m ->
            Z.testbit (Z.lor x (2 ^ Z.of_nat k)) m = Z.testbit x m || (m =? Z.of_nat k))
    as Hbits.
  { intros m Hm. rewrite Z.lor_spec, Z.pow2_bits_eqb by lia.
    f_equal. apply Z.eqb_sym. }
  split; [done|]. split; [done|]. split.
  - intros E. rewrite <- E, Hbits, Z.eqb_refl by lia. apply orb_true_r.
  - intros Ht. apply Z.bits_inj'. intros m Hm. rewrite Hbits by done.
    destruct (Z.eqb_spec m (Z.of_nat k)) as [->|_]; [by rewrite Ht|apply orb_false_r].
Qed.

Lemma bit_at_insert (b : list Z) pos r q :
  (pos < length b)%nat ->
  bit_at (<[pos := r]> b) q
  = if (q / 8 =? pos)%nat then Z.testbit r (7 - Z.of_nat (q mod 8)) else bit_at b q.
Proof.
  intros Hp. unfold bit_at. destruct (Nat.eqb_spec (q / 8) pos) as [->|Hne].
  - by rewrite rd_insert.
  - by rewrite rd_insert_ne.
Qed.

(** The bit position that byte [pos], mask [bitset_vector[k]] stands
    for. *)
Lemma bit_at_set (b : list Z) pos k q :
  (pos < length b)%nat -> (k < 8)%nat -> 0 <= rd b pos < 256 ->
  bit_at (<[pos := wrap8 (Z.lor (rd b pos) (rd bitset_vector k))]> b) q
  = bit_at b q || (q =? 8 * pos + (7 - k))%nat.
Proof.
  intros Hp Hk Hx. rewrite bit_at_insert by done.
  destruct (set_byte_bit _ k Hx Hk) as (_ & Hbits & _).
  destruct (Nat.eqb_spec (q / 8) pos) as [E|E].
  - rewrite Hbits by dlia. unfold bit_at. rewrite E. f_equal.
    destruct (Nat.eqb_spec q (8 * pos + (7 - k))) as [->|Hne].
    + apply Z.eqb_eq. dlia.
    + apply Z.eqb_neq. dlia.
  - destruct (Nat.eqb_spec q (8 * pos + (7 - k))) as [->|Hne]; [dlia|].
    by rewrite orb_false_r.
Qed.

Lemma filter_flip (P Q : nat -> bool) (l : list nat) p :
  NoDup l -> p ∈ l -> P p = false -> Q p = true ->
  (forall q, q <> p -> Q q = P q) ->
  length (List.filter Q l) = S (length (List.filter P l)).
Proof.
  intros Hnd Hin HP HQ Hsame. induction Hnd as [|x l Hx Hnd IH]; [by apply elem_of_nil in Hin|].
  cbn [List.filter]. apply elem_of_cons in Hin as [<-|Hin].
  - rewrite HP, HQ. cbn [length]. f_equal. f_equal.
    apply filter_ext_in'. intros q Hq. apply Hsame. intros ->. done.
  - assert (x <> p) as Hne by (intros ->; done).
    rewrite (Hsame x Hne). destruct (P x); cbn [length]; by rewrite IH.
Qed.

Lemma is_bitmap_insert b pos r :
  is_bitmap b = true -> 0 <= r < 256 -> is_bitmap (<[pos := r]> b) = true.
Proof.
  intros Hb Hr. apply is_bitmap_intro.
  - rewrite length_insert. by apply is_bitmap_length.
  - apply is_bitmap_Forall in Hb. by apply Forall_insert.
Qed.

Section RandomSet.
Variable gen : generator.
Hypothesis Hgen : draws_in_range gen.

(** One successful pass sets one bit that was clear. *)
Lemma RandomSet_try_sets tries k bitmap bitmap' k' :
  is_bitmap bitmap = true ->
  RandomSet_try gen tries k bitmap = Some (bitmap', k') ->
  exists p, (p < 8 * BITMAP_SIZE)%nat
    /\ bit_at bitmap p = false
    /\ (forall q, bit_at bitmap' q = bit_at bitmap q || (q =? p)%nat)
    /\ is_bitmap bitmap' = true.
Proof using Hgen.
  intros Hb. revert k. induction tries as [|tries IH]; intros k H; [discriminate|].
  cbn [RandomSet_try] in H. destruct (gen k) as [pos bit] eqn:Eg.
  destruct (Hgen k) as [Hpos Hbit]. rewrite Eg in Hpos, Hbit. cbn [fst snd] in *.
  destruct (is_bitmap_inv _ Hb) as [Hl Hrange].
  destruct (set_byte_bit _ bit (Hrange pos) Hbit) as (Hr & _ & Hsame).
  destruct (Z.eqb_spec (wrap8 (Z.lor (rd bitmap pos) (rd bitset_vector bit)))
                       (rd bitmap pos)) as [E|E]; cbn [negb] in H.
  - by eapply IH.
  - injection H as <- <-. exists (8 * pos + (7 - bit))%nat.
    split; [lia|]. split.
    + unfold bit_at. replace ((8 * pos + (7 - bit)) / 8)%nat with pos by dlia.
      replace (7 - Z.of_nat ((8 * pos + (7 - bit)) mod 8)) with (Z.of_nat bit) by dlia.
      destruct (Z.testbit (rd bitmap pos) (Z.of_nat bit)) eqn:Et; [|done].
      exfalso. by apply E, Hsame.
    + split; [|by apply is_bitmap_insert].
      intros q. apply bit_at_set; [lia|done|apply Hrange].
Qed.

Lemma RandomSet_spec num k original bitmap bitmap' k' :
  is_bitmap original = true -> is_bitmap bitmap = true ->
  bits_subset original bitmap ->
  RandomSet gen num k bitmap = Some (bitmap', k') ->
  is_bitmap bitmap' = true
  /\ bits_subset original bitmap'
  /\ bits_subset bitmap bitmap'
  /\ length (diff_positions bitmap' original)
     = (length (diff_positions bitmap original) + num)%nat.
Proof using Hgen.
  intros Ho. revert k bitmap. induction num as [|num IH]; intros k bitmap Hb Hsub H.
  - injection H as <- <-. split; [done|]. split; [done|]. split; [by intros p|]. lia.
  - cbn [RandomSet] in H.
    destruct (RandomSet_try gen 200 k bitmap) as [[b1 k1]|] eqn:Et; [|discriminate].
    destruct (RandomSet_try_sets _ _ _ _ _ Hb Et) as (p & Hp & Hclear & Hbits & Hb1).
    assert (bits_subset bitmap b1) as Hsub1.
    { intros q Hq. by rewrite Hbits, Hq. }
    assert (bits_subset original b1) as Hsub2 by (intros q Hq; by apply Hsub1, Hsub).
    destruct (IH k1 b1 Hb1 Hsub2 H) as (Hb' & Hs' & Hs1 & Hlen).
    split; [done|]. split; [done|]. split; [intros q Hq; by apply Hs1, Hsub1|].
    rewrite Hlen. unfold diff_positions at 1.
    rewrite (filter_flip (fun q => xorb (bit_at bitmap q) (bit_at original q)) _ _ p).
    + unfold diff_positions. lia.
    + apply NoDup_ListNoDup, seq_NoDup.
    + apply list_elem_of_In, in_seq. lia.
    + rewrite Hclear. destruct (bit_at original p) eqn:E; [|done].
      apply Hsub in E. congruence.
    + rewrite Hbits, Hclear, Nat.eqb_refl. cbn.
      destruct (bit_at original p) eqn:E; [|done].
      apply Hsub in E. congruence.
    + intros q Hq. rewrite Hbits.
      destruct (Nat.eqb_spec q p); [done|]. by rewrite orb_false_r.
Qed.

End RandomSet.

(** X13: [RandomSet(bitmap, num)], when it does not throw, only sets
    bits: the result is a bitmap that keeps every set bit of the input
    and differs from it in exactly [num] bits. *)
Theorem X13_RandomSet_sets_bits (gen : generator) (num k : nat)
    (bitmap bitmap' : list Z) (k' : nat) :
  draws_in_range gen -> is_bitmap bitmap = true ->
  RandomSet gen num k bitmap = Some (bitmap', k') ->
  is_bitmap bitmap' = true
  /\ bits_subset bitmap bitmap'
  /\ length (diff_positions bitmap' bitmap) = num.
Proof.
  intros Hgen Hb H.
  destruct (RandomSet_spec gen Hgen num k bitmap bitmap bitmap' k' Hb Hb
              (fun p Hp => Hp) H) as (H1 & H2 & _ & H3).
  split; [done|]. split; [done|]. by rewrite H3, diff_positions_same.
Qed.

(** ** The list of active TSNs *)

Lemma erase_random_ok tsn_draw j : forall k l,
  (forall t, (t < j)%nat -> (tsn_draw (k + t)%nat < length l - t)%nat) ->
  exists l', erase_random tsn_draw j k l = Ret (l', (k + j)%nat)
             /\ length l' = (length l - j)%nat.
Proof.
  induction j as [|j IH]; intros k l H.
  - exists l. cbn [erase_random]. rewrite Nat.add_0_r, Nat.sub_0_r. done.
  - cbn [erase_random]. pose proof (H 0%nat ltac:(lia)) as H0.
    rewrite Nat.add_0_r, Nat.sub_0_r in H0.
    rewrite (proj2 (Nat.ltb_lt _ _) H0).
    destruct (IH (S k) (delete (tsn_draw k) l)) as (l' & Hl' & Hlen).
    + intros t Ht. rewrite length_delete by (by apply lookup_lt_is_Some_2).
      pose proof (H (S t) ltac:(lia)) as Ht'.
      replace (k + S t)%nat with (S k + t)%nat in Ht' by lia. lia.
    + exists l'. rewrite Hl'. split; [f_equal; f_equal; lia|].
      rewrite Hlen, length_delete by (by apply lookup_lt_is_Some_2). lia.
Qed.

Lemma erase_random_fault tsn_draw j : forall k l,
  (exists t, (t < j)%nat /\ (length l - t <= tsn_draw (k + t)%nat)%nat) ->
  erase_random tsn_draw j k l = Fault OutOfBounds.
Proof.
  induction j as [|j IH]; intros k l (t & Ht & Hd); [lia|].
  cbn [erase_random].
  destruct (Nat.ltb_spec (tsn_draw k) (length l)) as [Hlt|Hge]; [|done].
  apply IH. destruct t as [|t].
  - rewrite Nat.add_0_r, Nat.sub_0_r in Hd. lia.
  - exists t. split; [lia|].
    rewrite length_delete by (by apply lookup_lt_is_Some_2).
    replace (S k + t)%nat with (k + S t)%nat by lia. lia.
Qed.

(** X25: [Curr_TSN_List::insert_new_tsn] on a list that has reached
    [max_size].  It erases [delete_size] entries at positions drawn in
    [0, max_size - 1] and puts the new TSN in front, leaving
    [max_size - delete_size + 1] entries, provided draw [t] falls inside
    the list, which has shrunk to [max_size - t] entries by then; a draw
    at or past that end is an [erase] out of bounds. *)
Theorem X25_insert_new_tsn_full (tsn_draw : nat -> nat) (k : nat)
    (tsn_list : list Z) (new_tsn : Z) :
  length tsn_list = max_size ->
  ((forall t, (t < delete_size)%nat -> (tsn_draw (k + t)%nat < max_size - t)%nat) ->
   exists l', insert_new_tsn tsn_draw k tsn_list new_tsn
              = Ret (new_tsn :: l', (k + delete_size)%nat)
              /\ length l' = (max_size - delete_size)%nat)
  /\ ((exists t, (t < delete_size)%nat /\ (max_size - t <= tsn_draw (k + t)%nat)%nat) ->
      insert_new_tsn tsn_draw k tsn_list new_tsn = Fault OutOfBounds).
Proof.
  intros Hl. unfold insert_new_tsn. rewrite Hl, Nat.leb_refl. split.
  - intros H. destruct (erase_random_ok tsn_draw delete_size k tsn_list)
      as (l' & -> & Hlen); [by rewrite Hl|].
    exists l'. split; [done|]. by rewrite Hlen, Hl.
  - intros H. rewrite erase_random_fault; [done|]. by rewrite Hl.
Qed.

(** ** The run with one insert and one query thread *)

Lemma insert_new_tsn_short tsn_draw k tsn_list new_tsn :
  (length tsn_list < max_size)%nat ->
  insert_new_tsn tsn_draw k tsn_list new_tsn = Ret (new_tsn :: tsn_list, k).
Proof.
  intros Hl. unfold insert_new_tsn.
  by destruct (Nat.leb_spec max_size (length tsn_list)); [lia|].
Qed.

Lemma at_pos_cons_old v l i :
  (i < length l)%nat -> at_pos (v :: l) i = at_pos l i.
Proof.
  intros Hi. unfold at_pos. rewrite reverse_cons.
  apply lookup_app_l. by rewrite length_reverse.
Qed.

Lemma at_pos_cons_new v l : at_pos (v :: l) (length l) = Some v.
Proof.
  unfold at_pos. rewrite reverse_cons. rewrite <- (length_reverse l).
  by apply list_lookup_middle.
Qed.

Lemma at_pos_lt l i v : at_pos l i = Some v -> (i < length l)%nat.
Proof.
  unfold at_pos. intros H%lookup_lt_Some. by rewrite length_reverse in H.
Qed.

Lemma at_pos_cons_inv v l i x :
  at_pos (v :: l) i = Some x ->
  ((i < length l)%nat /\ at_pos l i = Some x) \/ (i = length l /\ x = v).
Proof.
  intros H. pose proof (at_pos_lt _ _ _ H) as Hi. cbn [length] in Hi.
  destruct (decide (i = length l)) as [->|Hne].
  - right. rewrite at_pos_cons_new in H. by injection H as <-.
  - left. rewrite at_pos_cons_old in H by lia. split; [lia|done].
Qed.

Lemma at_pos_elem l v : v ∈ l -> exists i, at_pos l i = Some v.
Proof. intros Hv. by apply list_elem_of_lookup, elem_of_reverse. Qed.

Lemma diff_positions_sym B R : diff_positions B R = diff_positions R B.
Proof.
  unfold diff_positions. apply List.filter_ext. intros p. apply xorb_comm.
Qed.

Lemma prepared_start :
  prepared 0 {| bitmap_list := []; tsn_list := []; now_csn := 0; first_flag := true;
                gen_next := 0; tsn_next := 0 |}.
Proof.
  split; cbn [bitmap_list tsn_list now_csn first_flag]; done.
Qed.

(** A version that extends every version of the list goes in front. *)
Lemma prepared_push n m img k kt :
  prepared n m -> is_bitmap img = true ->
  (forall i vi, at_pos (bitmap_list m) i = Some vi ->
     bits_subset (InputBitmap.input_bitmap vi) img
     /\ length (diff_positions img (InputBitmap.input_bitmap vi)) = (n - i)%nat) ->
  prepared (S n) {| bitmap_list := InputBitmap.mk (Z.of_nat n) img :: bitmap_list m;
                    tsn_list := Z.of_nat n :: tsn_list m;
                    now_csn := Z.of_nat n + 1;
                    first_flag := false; gen_next := k; tsn_next := kt |}.
Proof.
  intros [Hlen Hcsn Htsn Hnow Hflag Himg Hgrow] Hb Hnew.
  split; cbn [bitmap_list tsn_list now_csn first_flag].
  - cbn [length]. by rewrite Hlen.
  - intros i v [[Hi H]|[-> ->]]%at_pos_cons_inv.
    + by apply Hcsn.
    + cbn [InputBitmap.bitmap_csn]. by rewrite Hlen.
  - cbn [map InputBitmap.bitmap_csn]. by rewrite Htsn.
  - lia.
  - done.
  - intros i v [[Hi H]|[-> ->]]%at_pos_cons_inv; [by eapply Himg|exact Hb].
  - intros i j vi vj Hij [[Hi H]|[-> ->]]%at_pos_cons_inv
      [[Hj H']|[-> ->]]%at_pos_cons_inv.
    + by eapply Hgrow.
    + rewrite Hlen. cbn [InputBitmap.input_bitmap]. by apply Hnew.
    + lia.
    + rewrite diff_positions_same. split; [by intros p|]. cbn [length]. lia.
Qed.

Section Prepare.
Variable gen : generator.
Variable tsn_draw : nat -> nat.
Hypothesis Hgen : draws_in_range gen.

Lemma main_make_version_prepared n m :
  prepared n m -> (n < max_size)%nat ->
  main_make_version gen tsn_draw m = Throws
  \/ exists m', main_make_version gen tsn_draw m = Returns m' /\ prepared (S n) m'.
Proof using Hgen.
  intros Hp Hn. pose proof Hp as [Hlen Hcsn Htsn Hnow Hflag Himg Hgrow].
  assert (n < 120)%nat as Hn' by exact Hn.
  unfold main_make_version.
  rewrite insert_new_tsn_short
    by (rewrite Htsn, length_map, Hlen; exact Hn).
  rewrite Hflag, Hnow. cbn [lift].
  rewrite wrap_int_small by lia.
  destruct (Nat.eqb_spec n 0) as [->|Hn0].
  - (* the first version *)
    right. cbn [mbind ending_bind]. eexists. split; [reflexivity|].
    apply (prepared_push 0 m bitmap_zero _ _ Hp); [apply bitmaps_ok|].
    intros i vi Hi%at_pos_lt. rewrite Hlen in Hi. lia.
  - (* a copy of the newest version with one more bit *)
    destruct (bitmap_list m) as [|front rest] eqn:El; [cbn [length] in Hlen; lia|].
    cbn [length] in Hlen.
    assert (at_pos (front :: rest) (n - 1) = Some front) as Hfront.
    { replace (n - 1)%nat with (length rest) by lia. apply at_pos_cons_new. }
    pose proof (Himg _ _ Hfront) as Hbf.
    destruct (is_bitmap_inv _ Hbf) as [Hlf _].
    rewrite memcpy_all by (exact Hlf || apply repeat_length).
    destruct (RandomSet gen haimin_distence (gen_next m)
                (InputBitmap.input_bitmap front)) as [[b' k']|] eqn:ER;
      [right|left; reflexivity].
    cbn [mbind ending_bind]. eexists. split; [reflexivity|].
    rewrite <- El. apply (prepared_push n m b' _ _ Hp).
    + by destruct (RandomSet_spec gen Hgen _ _ _ _ _ _ Hbf Hbf (fun p Hp => Hp) ER).
    + rewrite El. intros i vi Hi.
      pose proof (at_pos_lt _ _ _ Hi) as Hlt. cbn [length] in Hlt.
      destruct (Hgrow i (n - 1)%nat vi front ltac:(lia) Hi Hfront) as [Hsub Hd].
      destruct (RandomSet_spec gen Hgen _ _ _ _ _ _ (Himg _ _ Hi) Hbf Hsub ER)
        as (_ & Hs & _ & Hl).
      split; [exact Hs|]. rewrite Hl, Hd. unfold haimin_distence. lia.
Qed.

Lemma main_prepare_prepared passes : forall n m,
  prepared n m -> (n + passes <= max_size)%nat ->
  main_prepare gen tsn_draw passes m = Throws
  \/ exists m', main_prepare gen tsn_draw passes m = Returns m'
                /\ prepared (n + passes) m'.
Proof using Hgen.
  induction passes as [|passes IH]; intros n m Hp Hn.
  - right. exists m. split; [reflexivity|]. by rewrite Nat.add_0_r.
  - cbn [main_prepare].
    destruct (main_make_version_prepared n m Hp ltac:(lia)) as [->|(m' & -> & Hp')];
      [by left|].
    cbn [mbind ending_bind].
    replace (n + S passes)%nat with (S n + passes)%nat by lia.
    apply IH; [exact Hp'|lia].
Qed.

End Prepare.

(** The versions [main] makes are a workload of the kind the insert
    workers keep readable. *)
Lemma prepared_workload n m :
  prepared n m -> (n <= 468)%nat -> workload_ok (reverse (bitmap_list m)).
Proof.
  intros [Hlen Hcsn Htsn Hnow Hflag Himg Hgrow] Hn.
  assert (forall i v, at_pos (bitmap_list m) i = Some v -> (i < n)%nat) as Hlt.
  { intros i v H%at_pos_lt. by rewrite <- Hlen. }
  split.
  - intros v [i Hi]%list_elem_of_lookup. unfold is_int.
    rewrite (Hcsn _ _ Hi). pose proof (Hlt _ _ Hi).
    apply andb_true_intro. split; apply Z.leb_le; lia.
  - intros v [i Hi]%list_elem_of_lookup. by eapply Himg.
  - intros i i' v v' Hii Hi Hi'. rewrite (Hcsn _ _ Hi), (Hcsn _ _ Hi'). lia.
  - intros v v' [i Hi]%list_elem_of_lookup [j Hj]%list_elem_of_lookup.
    pose proof (Hlt _ _ Hi). pose proof (Hlt _ _ Hj).
    destruct (Nat.le_gt_cases i j) as [Hij|Hij].
    + rewrite diff_positions_sym.
      destruct (Hgrow _ _ _ _ Hij Hi Hj) as [_ ->]. lia.
    + destruct (Hgrow j i v' v ltac:(lia) Hj Hi) as [_ ->]. lia.
Qed.

Lemma insert_rows_all l rows : forall pos s,
  (pos + rows <= length l)%nat ->
  insert_rows insert_one l rows pos s
  = insert_all s (take rows (drop pos (reverse l))).
Proof.
  induction rows as [|rows IH]; intros pos s Hlen; [done|].
  cbn [insert_rows]. unfold at_pos.
  destruct (reverse l !! pos) as [v|] eqn:Ev.
  - rewrite (drop_S _ _ _ Ev). cbn [take insert_all].
    destruct (insert_one s v) as [s'| |]; cbn [mbind outcome_bind]; [|done..].
    apply IH. lia.
  - apply lookup_ge_None in Ev. rewrite length_reverse in Ev. lia.
Qed.

Lemma main_insert_all l :
  length l = max_insert -> main_insert l = insert_all init (reverse l).
Proof.
  intros Hlen. unfold main_insert, at_pos.
  assert (length (reverse l) = 20%nat) as Hr by (by rewrite length_reverse).
  destruct (reverse l) as [|v vs] eqn:El; [discriminate|].
  cbn [lookup list_lookup insert_all].
  destruct (insert_one init v) as [s'| |]; cbn [mbind outcome_bind]; [|done..].
  rewrite insert_rows_all by (rewrite Hlen; unfold max_insert; lia).
  rewrite El. change (drop 1 (v :: vs)) with vs. rewrite take_ge; [done|].
  cbn [length] in Hr. unfold max_insert. lia.
Qed.

Lemma query_rows_read {C} (get : C -> Z -> list Z -> outcome (bool * list Z)) s l :
  (forall v, v ∈ l ->
     get s (InputBitmap.bitmap_csn v) (repeat 0 BITMAP_SIZE)
     = Ret (true, InputBitmap.input_bitmap v)) ->
  query_rows get s (map InputBitmap.bitmap_csn l)
  = Ret (map InputBitmap.input_bitmap l).
Proof.
  induction l as [|v l IH]; intros H; [done|].
  cbn [map query_rows]. rewrite (H v) by apply list_elem_of_here.
  cbn [mbind outcome_bind]. rewrite IH; [done|].
  intros v' Hv'. apply H. by apply list_elem_of_further.
Qed.

Lemma memcmp_same a n : memcmp_differs a a n = false.
Proof. unfold memcmp_differs. by rewrite bool_decide_eq_true_2. Qed.

Lemma check_rows_over bitmap_list l :
  (forall v, v ∈ l ->
     List.find (fun b => InputBitmap.bitmap_csn b =? InputBitmap.bitmap_csn v)
               bitmap_list = Some v) ->
  check_rows bitmap_list (map InputBitmap.bitmap_csn l)
             (map InputBitmap.input_bitmap l)
  = Returns (repeat ReadOver (length l)).
Proof.
  induction l as [|v l IH]; intros H; [done|].
  cbn [map check_rows]. rewrite (H v) by apply list_elem_of_here.
  rewrite memcmp_same, IH; [done|].
  intros v' Hv'. apply H. by apply list_elem_of_further.
Qed.

(** [find] by CSN gives the version itself: the CSNs differ. *)
Lemma prepared_find n m v :
  prepared n m -> v ∈ bitmap_list m ->
  List.find (fun b => InputBitmap.bitmap_csn b =? InputBitmap.bitmap_csn v)
            (bitmap_list m) = Some v.
Proof.
  intros [Hlen Hcsn Htsn Hnow Hflag Himg Hgrow] Hv.
  destruct (List.find _ (bitmap_list m)) as [x|] eqn:Ef.
  - apply List.find_some in Ef as [Hx Heq].
    apply list_elem_of_In, at_pos_elem in Hx as [i Hi].
    apply at_pos_elem in Hv as [j Hj].
    apply Z.eqb_eq in Heq. rewrite (Hcsn _ _ Hi), (Hcsn _ _ Hj) in Heq.
    assert (i = j) as -> by lia. congruence.
  - apply list_elem_of_In in Hv.
    pose proof (List.find_none _ _ Ef v Hv) as Hne. cbn beta in Hne.
    by rewrite Z.eqb_refl in Hne.
Qed.

(** X20: [main] run with one insert thread and one query thread
    ([./main 1 1]) reports no read error: unless [RandomSet] throws while
    the versions are made, all [max_insert] versions are inserted, every
    query returns and the check loop writes "Read Over" for each of
    them; no call into the controller faults or runs out of steps. *)
Theorem X20_single_thread_run_reads_over (gen : generator) (tsn_draw : nat -> nat) :
  draws_in_range gen ->
  main_single gen tsn_draw = Returns (repeat ReadOver max_insert)
  \/ main_prepare gen tsn_draw max_insert
       {| bitmap_list := []; tsn_list := []; now_csn := 0; first_flag := true;
          gen_next := 0; tsn_next := 0 |} = Throws.
Proof.
  intros Hgen. unfold main_single.
  destruct (main_prepare_prepared gen tsn_draw Hgen max_insert 0%nat _ prepared_start)
    as [->|(m & -> & Hp)]; [unfold max_size; lia|by right|left].
  cbn [mbind ending_bind]. cbn [Nat.add] in Hp.
  pose proof (prepared_workload _ _ Hp ltac:(unfold max_insert; lia)) as Hwl.
  rewrite main_insert_all by apply Hp.
  destruct (insert_all_layout (reverse (bitmap_list m)) (reverse (bitmap_list m))
              Hwl init 0%nat (layout_init _) eq_refl) as (s & -> & Hlay).
  cbn [lift mbind ending_bind]. unfold Test_bitmap_controller.
  rewrite (prep_tsn _ _ Hp).
  rewrite query_rows_read.
  - cbn [lift mbind ending_bind]. rewrite check_rows_over.
    + by rewrite (prep_len _ _ Hp).
    + intros v Hv. by eapply prepared_find.
  - intros v [i Hi]%at_pos_elem. unfold at_pos in Hi.
    rewrite <- (ver_csn_lookup _ _ _ Hi), <- (ver_img_lookup _ _ _ Hi).
    eapply layout_read; [exact Hwl|exact Hlay|by eapply lookup_lt_Some|done|].
    apply repeat_length.
Qed.

(** ** The baseline controller *)

Lemma Original_layout_init vs : OriginalHexaDB.layout vs OriginalHexaDB.init 0 [].
Proof.
  split; cbn; [lia|split; [constructor|by intros i ?%elem_of_nil]|done|done].
Qed.

Lemma Original_layout_length vs s n pend :
  OriginalHexaDB.layout vs s n pend -> length (OriginalHexaDB.heap s) = n.
Proof. intros [_ _ Hh _]. by rewrite Hh, length_map, length_seq. Qed.

Lemma Original_layout_lookup vs s n pend i :
  OriginalHexaDB.layout vs s n pend -> (i < n)%nat ->
  OriginalHexaDB.heap s !! i = Some (OriginalHexaDB.expected_node vs pend i).
Proof. intros [_ _ Hh _] Hi. rewrite Hh. by apply lookup_map_seq. Qed.

(** The first part of a worker: node [n] for version [n], pending. *)
Lemma Original_layout_reserve vs s n pend v :
  OriginalHexaDB.layout vs s n pend -> vs !! n = Some v ->
  OriginalHexaDB.layout vs
    (fst (OriginalHexaDB.insert_null s (InputBitmap.bitmap_csn v))) (S n) (pend ++ [n])
  /\ snd (OriginalHexaDB.insert_null s (InputBitmap.bitmap_csn v)) = Some n.
Proof.
  intros Hlay Hv. pose proof (Original_layout_length _ _ _ _ Hlay) as Hlen.
  destruct Hlay as [Hn [Hnd Hpend] Hh Hf].
  unfold OriginalHexaDB.insert_null. cbn [fst snd]. rewrite Hlen.
  split; [|done]. split; cbn [OriginalHexaDB.heap OriginalHexaDB.first_bitmap].
  - apply lookup_lt_Some in Hv. lia.
  - split.
    + apply NoDup_app. split; [done|]. split; [|apply NoDup_singleton].
      intros i Hi ->%list_elem_of_singleton. apply Hpend in Hi. lia.
    + intros i [Hi| ->%list_elem_of_singleton]%elem_of_app; [apply Hpend in Hi|]; lia.
  - rewrite seq_S, map_app, Hh. cbn [Nat.add map]. f_equal.
    + apply map_ext_in. intros i [_ Hi]%in_seq. cbn [Nat.add] in Hi.
      unfold OriginalHexaDB.expected_node.
      rewrite (bool_decide_ext (i ∈ pend) (i ∈ pend ++ [n])); [done|].
      rewrite elem_of_app, list_elem_of_singleton.
      split; [by left|]. intros [H|H]; [done|lia].
    + unfold OriginalHexaDB.expected_node. f_equal. f_equal.
      * exact Hf.
      * symmetry. by apply ver_csn_lookup.
      * rewrite bool_decide_eq_true_2; [done|].
        apply elem_of_app. right. by apply list_elem_of_singleton.
  - cbn [Nat.eqb]. f_equal. lia.
Qed.

(** The second part of a worker: its node gets the bitmap of its
    version. *)
Lemma Original_layout_fill vs s n p1 i p2 v :
  OriginalHexaDB.layout vs s n (p1 ++ i :: p2) -> vs !! i = Some v ->
  length (InputBitmap.input_bitmap v) = BITMAP_SIZE ->
  exists s',
    OriginalHexaDB.insert_bitmap_content s (InputBitmap.input_bitmap v) (Some i) = Ret s'
    /\ OriginalHexaDB.layout vs s' n (p1 ++ p2).
Proof.
  intros Hlay Hv Hl.
  assert (i ∈ p1 ++ i :: p2) as Hin.
  { apply elem_of_app. right. apply list_elem_of_here. }
  assert (i < n)%nat as Hi by (by apply Hlay).
  pose proof (Original_layout_lookup _ _ _ _ _ Hlay Hi) as Hnd.
  destruct Hlay as [Hn [Hnd' Hpend] Hh Hf].
  assert (i ∉ p1 ++ p2) as Hout.
  { apply NoDup_app in Hnd' as (_ & H12 & H2). apply NoDup_cons in H2 as [H2 _].
    intros [H|H]%elem_of_app; [|done]. apply (H12 i H). apply list_elem_of_here. }
  unfold OriginalHexaDB.insert_bitmap_content, deref. rewrite Hnd.
  cbn [mbind outcome_bind]. rewrite Hl, Nat.leb_refl.
  eexists. split; [reflexivity|].
  split; cbn [OriginalHexaDB.heap OriginalHexaDB.first_bitmap]; [done| |
    |done].
  - split.
    + apply NoDup_app in Hnd' as (H1 & H12 & H2). apply NoDup_cons in H2 as [_ H2].
      apply NoDup_app. split; [done|]. split; [|done].
      intros k Hk Hk'. apply (H12 k Hk). by apply list_elem_of_further.
    + intros k Hk. apply Hpend. apply elem_of_app in Hk as [Hk|Hk];
        apply elem_of_app; [by left|right; by apply list_elem_of_further].
  - rewrite Hh. apply list_eq. intros k.
    destruct (decide (k = i)) as [->|Hne].
    + rewrite list_lookup_insert_eq by (by rewrite length_map, length_seq).
      rewrite lookup_map_seq by done.
      unfold OriginalHexaDB.expected_node.
      cbn [OriginalHexaDB.next_bitmap OriginalHexaDB.bitmap_csn
           OriginalHexaDB.bitmap_content].
      rewrite (bool_decide_eq_true_2 _ Hin), (bool_decide_eq_false_2 _ Hout).
      rewrite memcpy_all by (exact Hl || apply repeat_length).
      by rewrite (ver_img_lookup _ _ _ Hv).
    + rewrite list_lookup_insert_ne by done.
      destruct (Nat.lt_ge_cases k n) as [Hk|Hk].
      * rewrite !lookup_map_seq by done. f_equal.
        unfold OriginalHexaDB.expected_node.
        rewrite (bool_decide_ext (k ∈ p1 ++ i :: p2) (k ∈ p1 ++ p2)); [done|].
        rewrite !elem_of_app, elem_of_cons.
        split; [intros [H|[H|H]]; [by left|done|by right]
               |intros [H|H]; [by left|right; by right]].
      * by rewrite !lookup_map_seq_ge.
Qed.

(** Every state the workers reach has this layout, and every worker
    between its two parts holds its own node. *)
Lemma Original_driver_layout vs s pos ws :
  (forall v, v ∈ vs -> length (InputBitmap.input_bitmap v) = BITMAP_SIZE) ->
  OriginalHexaDB.driver vs s pos ws ->
  OriginalHexaDB.layout vs s pos (map OriginalHexaDB.local_pos ws)
  /\ Forall (fun w => OriginalHexaDB.w_bitmap w = Some (OriginalHexaDB.local_pos w)) ws.
Proof.
  intros Hvs Hd. induction Hd as [|s pos ws v Hd [IH IHw] Hv
                                  |s pos ws1 w ws2 v s' Hd [IH IHw] Hv Hfill].
  - split; [apply Original_layout_init|constructor].
  - destruct (Original_layout_reserve _ _ _ _ _ IH Hv) as [Hlay Hb].
    rewrite map_app. split; [exact Hlay|].
    apply Forall_app. split; [exact IHw|]. constructor; [|constructor]. exact Hb.
  - rewrite map_app in IH. cbn [map] in IH.
    apply Forall_app in IHw as [Hw1 Hw2]. apply Forall_cons in Hw2 as [Hw Hw2].
    destruct (Original_layout_fill _ _ _ _ _ _ _ IH Hv
                (Hvs _ (list_elem_of_lookup_2 _ _ _ Hv))) as (s1 & Hs1 & Hlay).
    rewrite Hw in Hfill. rewrite Hs1 in Hfill. injection Hfill as <-.
    rewrite map_app. split; [exact Hlay|]. apply Forall_app. by split.
Qed.

(** The loop of [get_bitmap] from node [j] stops at node [i] when the
    nodes between are newer than [require_csn]. *)
Lemma Original_find_visible vs s n pend require_csn i :
  OriginalHexaDB.layout vs s n pend ->
  ver_csn vs i <= require_csn ->
  forall fuel j,
    (i <= j < n)%nat -> (j - i < fuel)%nat ->
    (forall k, (i < k <= j)%nat -> require_csn < ver_csn vs k) ->
    OriginalHexaDB.find_visible fuel (OriginalHexaDB.heap s) (Some j) require_csn
    = Ret (Some i).
Proof.
  intros Hlay Hi. induction fuel as [|fuel IH]; intros j Hj Hf Hnew; [lia|].
  cbn [OriginalHexaDB.find_visible].
  rewrite (Original_layout_lookup _ _ _ _ _ Hlay) by lia.
  cbn [OriginalHexaDB.expected_node OriginalHexaDB.bitmap_csn OriginalHexaDB.next_bitmap].
  destruct (decide (j = i)) as [->|Hne].
  - by rewrite (proj2 (Z.leb_le _ _) Hi).
  - pose proof (Hnew j ltac:(lia)) as Hgt.
    rewrite (proj2 (Z.leb_gt _ _) Hgt).
    destruct (Nat.eqb_spec j 0) as [->|Hj0]; [lia|].
    apply IH; [lia|lia|]. intros k Hk. apply Hnew. lia.
Qed.

(** It reaches [nullptr] when every node is newer. *)
Lemma Original_find_none vs s n pend require_csn :
  OriginalHexaDB.layout vs s n pend ->
  (forall k, (k < n)%nat -> require_csn < ver_csn vs k) ->
  forall fuel j,
    (j < n)%nat -> (j < fuel)%nat ->
    OriginalHexaDB.find_visible fuel (OriginalHexaDB.heap s) (Some j) require_csn
    = Ret None.
Proof.
  intros Hlay Hnew. induction fuel as [|fuel IH]; intros j Hj Hf; [lia|].
  cbn [OriginalHexaDB.find_visible].
  rewrite (Original_layout_lookup _ _ _ _ _ Hlay) by lia.
  cbn [OriginalHexaDB.expected_node OriginalHexaDB.bitmap_csn OriginalHexaDB.next_bitmap].
  rewrite (proj2 (Z.leb_gt _ _) (Hnew j Hj)).
  destruct (Nat.eqb_spec j 0) as [->|Hj0]; [by destruct fuel|].
  apply IH; lia.
Qed.

(** What a read returns in a state with this layout. *)
Lemma Original_layout_read vs s n pend require_csn i out :
  OriginalHexaDB.layout vs s n pend ->
  (forall k, (k < n)%nat -> length (ver_img vs k) = BITMAP_SIZE) ->
  (i < n)%nat -> ver_csn vs i <= require_csn ->
  (forall k, (i < k < n)%nat -> require_csn < ver_csn vs k) ->
  length out = BITMAP_SIZE ->
  OriginalHexaDB.get_bitmap s require_csn out
  = Ret (true, if bool_decide (i ∈ pend) then repeat 0 BITMAP_SIZE else ver_img vs i).
Proof.
  intros Hlay Himg Hi Hle Hnew Ho. unfold OriginalHexaDB.get_bitmap.
  rewrite (Original_layout_length _ _ _ _ Hlay).
  rewrite (OriginalHexaDB.lay_first _ _ _ _ Hlay).
  destruct (Nat.eqb_spec n 0) as [->|Hn]; [lia|].
  rewrite (Original_find_visible vs s n pend require_csn i Hlay Hle)
    by (lia || (intros k Hk; apply Hnew; lia)).
  cbn [mbind outcome_bind]. unfold deref.
  rewrite (Original_layout_lookup _ _ _ _ _ Hlay Hi).
  cbn [mbind outcome_bind]. rewrite Ho, Nat.leb_refl.
  cbn [OriginalHexaDB.expected_node OriginalHexaDB.bitmap_content].
  rewrite memcpy_all; [done|done|].
  destruct (bool_decide (i ∈ pend)); [apply repeat_length|by apply Himg].
Qed.

Lemma ver_csn_gt vs k pos require_csn :
  (forall v', vs !! k = Some v' -> (k < pos)%nat ->
              require_csn < InputBitmap.bitmap_csn v') ->
  (k < pos)%nat -> (pos <= length vs)%nat -> require_csn < ver_csn vs k.
Proof.
  intros H Hk Hpos. destruct (lookup_lt_is_Some_2 vs k ltac:(lia)) as [v' Hv'].
  rewrite (ver_csn_lookup _ _ _ Hv'). by apply H.
Qed.

Lemma ver_img_length vs k :
  (forall v, v ∈ vs -> length (InputBitmap.input_bitmap v) = BITMAP_SIZE) ->
  (k < length vs)%nat -> length (ver_img vs k) = BITMAP_SIZE.
Proof.
  intros H Hk. destruct (lookup_lt_is_Some_2 vs k Hk) as [v Hv].
  rewrite (ver_img_lookup _ _ _ Hv). apply H. by eapply list_elem_of_lookup_2.
Qed.

(** X21: the baseline [get_bitmap] is a snapshot read.  In every state
    the insert workers reach, under any interleaving, a read with
    [require_csn] returns [true] and the content of the most recently
    reserved version whose CSN is not greater than [require_csn]: the
    bitmap of that version if its worker has copied it, the all-zero
    bitmap of the placeholder if not. *)
Theorem X21_original_snapshot_read (versions : list InputBitmap.t)
    (s : OriginalHexaDB.BitmapController) (pos : nat)
    (ws : list OriginalHexaDB.worker) (i : nat) (v : InputBitmap.t)
    (require_csn : Z) (out : list Z) :
  (forall v, v ∈ versions -> length (InputBitmap.input_bitmap v) = BITMAP_SIZE) ->
  OriginalHexaDB.driver versions s pos ws ->
  versions !! i = Some v -> (i < pos)%nat ->
  InputBitmap.bitmap_csn v <= require_csn ->
  (forall k v', (i < k < pos)%nat -> versions !! k = Some v' ->
                require_csn < InputBitmap.bitmap_csn v') ->
  length out = BITMAP_SIZE ->
  OriginalHexaDB.get_bitmap s require_csn out
  = Ret (true, if bool_decide (i ∈ map OriginalHexaDB.local_pos ws)
               then repeat 0 BITMAP_SIZE else InputBitmap.input_bitmap v).
Proof.
  intros Hvs Hd Hv Hi Hle Hnew Ho.
  destruct (Original_driver_layout _ _ _ _ Hvs Hd) as [Hlay _].
  pose proof (OriginalHexaDB.lay_n _ _ _ _ Hlay) as Hn.
  rewrite <- (ver_img_lookup _ _ _ Hv).
  apply (Original_layout_read versions s pos _ require_csn i out Hlay).
  - intros k Hk. apply ver_img_length; [exact Hvs|lia].
  - exact Hi.
  - by rewrite (ver_csn_lookup _ _ _ Hv).
  - intros k Hk. apply (ver_csn_gt versions k pos); [|lia|exact Hn].
    intros v' Hv' _. by apply (Hnew k v').
  - exact Ho.
Qed.

(** X22: the baseline [get_bitmap] returns [false] and leaves the
    buffer as it was when every version reserved so far has a CSN
    greater than [require_csn] (in particular on the empty chain). *)
Theorem X22_original_nothing_visible (versions : list InputBitmap.t)
    (s : OriginalHexaDB.BitmapController) (pos : nat)
    (ws : list OriginalHexaDB.worker) (require_csn : Z) (out : list Z) :
  (forall v, v ∈ versions -> length (InputBitmap.input_bitmap v) = BITMAP_SIZE) ->
  OriginalHexaDB.driver versions s pos ws ->
  (forall k v', (k < pos)%nat -> versions !! k = Some v' ->
                require_csn < InputBitmap.bitmap_csn v') ->
  OriginalHexaDB.get_bitmap s require_csn out = Ret (false, out).
Proof.
  intros Hvs Hd Hnew.
  destruct (Original_driver_layout _ _ _ _ Hvs Hd) as [Hlay _].
  pose proof (OriginalHexaDB.lay_n _ _ _ _ Hlay) as Hn.
  unfold OriginalHexaDB.get_bitmap.
  rewrite (Original_layout_length _ _ _ _ Hlay).
  rewrite (OriginalHexaDB.lay_first _ _ _ _ Hlay).
  destruct (Nat.eqb_spec pos 0) as [->|Hpos]; [done|].
  rewrite (Original_find_none versions s pos _ require_csn Hlay); [done| |lia|lia].
  intros k Hk. apply (ver_csn_gt versions k pos); [|lia|exact Hn].
  intros v' Hv' _. by apply (Hnew k v').
Qed.

(** X23: the baseline insert workers never fault.  In every state they
    reach, under any interleaving, the [insert_bitmap_content] call of
    every worker that holds a placeholder returns: the node that
    [insert_null] handed out is allocated and belongs to the version of
    the worker. *)
Theorem X23_original_workers_never_fault (versions : list InputBitmap.t)
    (s : OriginalHexaDB.BitmapController) (pos : nat)
    (ws : list OriginalHexaDB.worker) (w : OriginalHexaDB.worker) :
  (forall v, v ∈ versions -> length (InputBitmap.input_bitmap v) = BITMAP_SIZE) ->
  OriginalHexaDB.driver versions s pos ws ->
  w ∈ ws ->
  exists v s',
    versions !! OriginalHexaDB.local_pos w = Some v
    /\ OriginalHexaDB.insert_bitmap_content s (InputBitmap.input_bitmap v)
         (OriginalHexaDB.w_bitmap w) = Ret s'.
Proof.
  intros Hvs Hd Hw.
  destruct (Original_driver_layout _ _ _ _ Hvs Hd) as [Hlay Hws].
  apply list_elem_of_split in Hw as (ws1 & ws2 & ->).
  apply Forall_app in Hws as [_ Hws]. apply Forall_cons in Hws as [Hb _].
  rewrite map_app in Hlay. cbn [map] in Hlay.
  assert (OriginalHexaDB.local_pos w < length versions)%nat as Hlt.
  { pose proof (OriginalHexaDB.lay_n _ _ _ _ Hlay).
    assert (OriginalHexaDB.local_pos w < pos)%nat; [|lia].
    apply (proj2 (OriginalHexaDB.lay_pend _ _ _ _ Hlay)).
    apply elem_of_app. right. apply list_elem_of_here. }
  destruct (lookup_lt_is_Some_2 _ _ Hlt) as [v Hv].
  destruct (Original_layout_fill _ _ _ _ _ _ _ Hlay Hv
              (Hvs _ (list_elem_of_lookup_2 _ _ _ Hv))) as (s' & Hs' & _).
  exists v, s'. split; [exact Hv|]. by rewrite Hb.
Qed.

(** ** The same run with the baseline controller *)




(** * The further properties on examples *)

Lemma diff_count_fast B R :
  length B = BITMAP_SIZE -> length R = BITMAP_SIZE ->
  Z.of_nat (length (diff_positions B R))
  = fold_idx (fun _ t c => count_byte t c) 0 (zip_with Z.lxor B R) 0.
Proof. intros HB HR. by rewrite <- count_bits_spec, count_bits_fast. Qed.

Lemma bits_10_20_ok : is_bitmap bitmap_bits_10_20 = true.
Proof. vm_compute; reflexivity. Qed.

Lemma example_lengths :
  length bitmap_zero = BITMAP_SIZE /\ length bitmap_ff = BITMAP_SIZE
  /\ length bitmap_bit10 = BITMAP_SIZE /\ length bitmap_bit20 = BITMAP_SIZE
  /\ length bitmap_bits_10_20 = BITMAP_SIZE.
Proof.
  split_and!; apply is_bitmap_length; (apply bitmaps_ok || apply bits_10_20_ok).
Qed.

Lemma compress_bit20 : compress_bitmap bitmap_bit20 bitmap_zero = ([1; 20], true).
Proof.
  rewrite compress_bitmap_fast by apply example_lengths.
  vm_cast_no_check (eq_refl ([1; 20], true)).
Qed.

Lemma diff_bit10_zero :
  Z.of_nat (length (diff_positions bitmap_bit10 bitmap_zero)) = 1.
Proof.
  rewrite diff_count_fast by apply example_lengths.
  vm_cast_no_check (eq_refl 1).
Qed.

Lemma diff_zero_ff :
  Z.of_nat (length (diff_positions bitmap_zero bitmap_ff)) = 60000.
Proof.
  rewrite diff_count_fast by apply example_lengths.
  vm_cast_no_check (eq_refl 60000).
Qed.

(** The versions of [versions_grow] differ pairwise in two bits at most. *)
Lemma versions_grow_sparse v v' :
  v ∈ versions_grow -> v' ∈ versions_grow ->
  Z.of_nat (length (diff_positions (InputBitmap.input_bitmap v)
                                   (InputBitmap.input_bitmap v'))) < 468.
Proof.
  unfold versions_grow. rewrite !elem_of_cons, !elem_of_nil.
  intros [->|[->|[->|[]]]] [->|[->|[->|[]]]]; cbn [InputBitmap.input_bitmap];
    rewrite diff_count_fast by apply example_lengths;
    vm_compute; reflexivity.
Qed.

Lemma bit_at_zero p : bit_at bitmap_zero p = false.
Proof.
  unfold bit_at, bitmap_zero, rd. rewrite nth_repeat. apply Z.bits_0.
Qed.

Lemma bit_at_bit10 p : bit_at bitmap_bit10 p = true -> p = 10%nat.
Proof.
  unfold bit_at, bitmap_bit10. destruct (decide (p / 8 = 1)%nat) as [E|E].
  - rewrite E, rd_insert by (rewrite (proj1 example_lengths); unfold BITMAP_SIZE; lia).
    assert (p mod 8 < 8)%nat as Hm by (apply Nat.mod_upper_bound; lia).
    pose proof (Nat.div_mod_eq p 8) as Hp. rewrite E in Hp.
    destruct (p mod 8)%nat as [|[|[|[|[|[|[|[|m]]]]]]]] eqn:Em;
      cbn; try discriminate; intros _; lia.
  - rewrite rd_insert_ne by (intros ?; by apply E).
    fold (bit_at bitmap_zero p). by rewrite bit_at_zero.
Qed.

Lemma versions_grow_subset :
  bits_subset bitmap_bit10 bitmap_bits_10_20.
Proof. intros p ->%bit_at_bit10. vm_compute; reflexivity. Qed.

Lemma versions_grow_ok : workload_ok versions_grow.
Proof.
  split.
  - unfold versions_grow. intros v. rewrite !elem_of_cons, elem_of_nil.
    by intros [->|[->|[->|[]]]].
  - unfold versions_grow. intros v. rewrite !elem_of_cons, elem_of_nil.
    intros [->|[->|[->|[]]]]; cbn [InputBitmap.input_bitmap];
      (apply bitmaps_ok || apply bits_10_20_ok).
  - intros i i' v v' Hlt Hv Hv'.
    destruct i as [|[|[|i]]], i' as [|[|[|i']]]; try lia;
      try discriminate Hv; try discriminate Hv';
      injection Hv as <-; injection Hv' as <-; cbn; lia.
  - apply versions_grow_sparse.
Qed.

Lemma versions_grow_grows : workload_grows versions_grow.
Proof.
  intros i i' v v' Hle Hv Hv'.
  destruct i as [|[|[|i]]], i' as [|[|[|i']]]; try lia;
    try discriminate Hv; try discriminate Hv';
    injection Hv as <-; injection Hv' as <-; cbn [InputBitmap.input_bitmap];
    try (intros p Hp; exact Hp);
    try (intros p Hp; by rewrite bit_at_zero in Hp).
  apply versions_grow_subset.
Qed.

(** The workers on [versions_grow]: version 0, then the placeholders of
    versions 1 and 2, then the content of version 2 before that of
    version 1. *)

Lemma reserve_0 :
  worker_reserve init (InputBitmap.mk 0 bitmap_zero) = Ret (st_one, None, None).
Proof. vm_cast_no_check (eq_refl (Ret (st_one, @None nat, @None nat))). Qed.

Lemma reserve_1 :
  worker_reserve st_one (InputBitmap.mk 1 bitmap_bit10)
  = Ret (st_one_pending, Some 0%nat, Some 1%nat).
Proof. vm_cast_no_check (eq_refl (Ret (st_one_pending, Some 0%nat, Some 1%nat))). Qed.

Lemma reserve_2 :
  worker_reserve st_one_pending (InputBitmap.mk 2 bitmap_bits_10_20)
  = Ret (st_two_pending, Some 0%nat, Some 2%nat).
Proof. vm_cast_no_check (eq_refl (Ret (st_two_pending, Some 0%nat, Some 2%nat))). Qed.

Lemma fill_2 :
  worker_fill st_two_pending (Some 0%nat) (Some 2%nat)
              (InputBitmap.mk 2 bitmap_bits_10_20)
  = Ret st_grow_newer.
Proof.
  unfold worker_fill. cbn [InputBitmap.input_bitmap].
  rewrite (insert_bitmap_content_run st_two_pending 0 2 (group_zero 1 0 2)
             (placeholder_node 2 1) bitmap_bits_10_20 [2; 10; 20] true);
    [ vm_cast_no_check (eq_refl (Ret st_grow_newer))
    | reflexivity | reflexivity | apply bits_10_20_ok | apply bitmaps_ok
    | vm_cast_no_check (eq_refl ([2; 10; 20], true)) ].
Qed.

Lemma fill_1 :
  worker_fill st_grow_newer (Some 0%nat) (Some 1%nat) (InputBitmap.mk 1 bitmap_bit10)
  = Ret st_both.
Proof.
  unfold worker_fill. cbn [InputBitmap.input_bitmap].
  rewrite (insert_bitmap_content_run st_grow_newer 0 1 (group_zero 2 2 2)
             (placeholder_node 1 0) bitmap_bit10 [1; 10] true);
    [ vm_cast_no_check (eq_refl (Ret st_both))
    | reflexivity | reflexivity | apply bitmaps_ok | apply bitmaps_ok
    | vm_cast_no_check (eq_refl ([1; 10], true)) ].
Qed.

Lemma driver_two_pending :
  driver versions_grow st_two_pending 3
         [ mkWorker 1 (Some 0%nat) (Some 1%nat); mkWorker 2 (Some 0%nat) (Some 2%nat) ].
Proof.
  apply (driver_reserve versions_grow st_one_pending 2
           [mkWorker 1 (Some 0%nat) (Some 1%nat)]
           (InputBitmap.mk 2 bitmap_bits_10_20) st_two_pending (Some 0%nat) (Some 2%nat));
    [|reflexivity|exact reserve_2].
  apply (driver_reserve versions_grow st_one 1 []
           (InputBitmap.mk 1 bitmap_bit10) st_one_pending (Some 0%nat) (Some 1%nat));
    [|reflexivity|exact reserve_1].
  apply (driver_fill versions_grow st_one 1 [] (mkWorker 0 None None) []
           (InputBitmap.mk 0 bitmap_zero)); [|reflexivity|reflexivity].
  apply (driver_reserve versions_grow init 0 []
           (InputBitmap.mk 0 bitmap_zero) st_one None None);
    [|reflexivity|exact reserve_0].
  apply driver_start.
Qed.

Lemma driver_both : driver versions_grow st_both 3 [].
Proof.
  apply (driver_fill versions_grow st_grow_newer 3 [] (mkWorker 1 (Some 0%nat) (Some 1%nat)) []
           (InputBitmap.mk 1 bitmap_bit10)); [|reflexivity|exact fill_1].
  apply (driver_fill versions_grow st_two_pending 3
           [mkWorker 1 (Some 0%nat) (Some 1%nat)] (mkWorker 2 (Some 0%nat) (Some 2%nat)) []
           (InputBitmap.mk 2 bitmap_bits_10_20)); [|reflexivity|exact fill_2].
  exact driver_two_pending.
Qed.

Lemma compress_bits_10_20 :
  compress_bitmap bitmap_bits_10_20 bitmap_zero = ([2; 10; 20], true).
Proof.
  rewrite compress_bitmap_fast by apply example_lengths.
  vm_cast_no_check (eq_refl ([2; 10; 20], true)).
Qed.

Lemma driver_grow_newer :
  driver versions_grow st_grow_newer 3 [ mkWorker 1 (Some 0%nat) (Some 1%nat) ].
Proof.
  apply (driver_fill versions_grow st_two_pending 3
           [mkWorker 1 (Some 0%nat) (Some 1%nat)] (mkWorker 2 (Some 0%nat) (Some 2%nat)) []
           (InputBitmap.mk 2 bitmap_bits_10_20)); [|reflexivity|exact fill_2].
  exact driver_two_pending.
Qed.

Lemma insert_null_three :
  insert_null st_two_pending 3 bitmap_zero None None
  = Ret (st_three_pending, Some 0%nat, Some 3%nat, true).
Proof.
  vm_cast_no_check (eq_refl (Ret (st_three_pending, Some 0%nat, Some 3%nat, true))).
Qed.

Lemma get_both_1 : get_bitmap st_both 1 bitmap_zero = Ret (true, bitmap_bit10).
Proof. exact (proj1 (proj2 (proj2 reconstruction_fails_propagation))). Qed.

Lemma st_both_no_7 b nd : bmp_heap st_both !! b = Some nd -> bitmap_csn nd <> 7.
Proof.
  destruct b as [|[|[|b]]]; cbn; intros [= <-] || intros [=]; cbn; lia.
Qed.

Lemma X1_roundtrip_sparse_witness :
  Z.of_nat (length (diff_positions bitmap_bit10 bitmap_zero)) < 468
  /\ snd (compress_bitmap bitmap_bit10 bitmap_zero) = true
  /\ decompress_bitmap bitmap_ff bitmap_zero
       (fst (compress_bitmap bitmap_bit10 bitmap_zero)) true = bitmap_bit10.
Proof.
  assert (Z.of_nat (length (diff_positions bitmap_bit10 bitmap_zero)) < 468) as H
    by (rewrite diff_bit10_zero; lia).
  split; [exact H|].
  apply (X1_roundtrip_sparse bitmap_ff bitmap_bit10 bitmap_zero);
    [apply example_lengths | apply bitmaps_ok | apply bitmaps_ok | exact H].
Defined.

Lemma X2_decode_dense_witness :
  468 <= Z.of_nat (length (diff_positions bitmap_zero bitmap_ff))
  /\ snd (compress_bitmap bitmap_zero bitmap_ff) = false
  /\ decompress_bitmap bitmap_zero bitmap_ff (fst (compress_bitmap bitmap_zero bitmap_ff))
       false = xor_function bitmap_ff bitmap_zero
  /\ (decompress_bitmap bitmap_zero bitmap_ff (fst (compress_bitmap bitmap_zero bitmap_ff))
        false = bitmap_zero <-> bitmap_ff = bitmap_zero).
Proof.
  assert (468 <= Z.of_nat (length (diff_positions bitmap_zero bitmap_ff))) as H
    by (rewrite diff_zero_ff; lia).
  split; [exact H|].
  apply (X2_decode_dense bitmap_zero bitmap_zero bitmap_ff);
    [apply example_lengths | apply bitmaps_ok | apply bitmaps_ok | exact H].
Defined.

Lemma X3_payload_size_witness :
  length (fst (compress_bitmap bitmap_bit10 bitmap_zero))
    = (if snd (compress_bitmap bitmap_bit10 bitmap_zero)
       then S (length (diff_positions bitmap_bit10 bitmap_zero)) else 3750%nat)
  /\ (length (fst (compress_bitmap bitmap_bit10 bitmap_zero)) <= 3750)%nat
  /\ (snd (compress_bitmap bitmap_bit10 bitmap_zero) = true ->
      (length (fst (compress_bitmap bitmap_bit10 bitmap_zero)) <= 468)%nat)
  /\ Forall (fun x => 0 <= x < 65536) (fst (compress_bitmap bitmap_bit10 bitmap_zero)).
Proof.
  apply (X3_payload_size bitmap_bit10 bitmap_zero); apply bitmaps_ok.
Defined.

Lemma X4_decode_in_bounds_witness :
  decompress_in_bounds bitmap_ff bitmap_zero
    (fst (compress_bitmap bitmap_bit10 bitmap_zero))
    (snd (compress_bitmap bitmap_bit10 bitmap_zero)) = true.
Proof.
  apply (X4_decode_in_bounds bitmap_ff bitmap_bit10 bitmap_zero);
    [rewrite (proj1 (proj2 example_lengths)); apply le_n
    | apply bitmaps_ok | apply bitmaps_ok].
Defined.

Lemma X5_xor_function_algebra_witness :
  is_bitmap (xor_function bitmap_bit10 bitmap_ff) = true
  /\ xor_function bitmap_bit10 bitmap_ff = xor_function bitmap_ff bitmap_bit10
  /\ xor_function (xor_function bitmap_bit10 bitmap_ff) bitmap_ff = bitmap_bit10
  /\ xor_function bitmap_bit10 bitmap_bit10 = bitmap_zero.
Proof.
  apply (X5_xor_function_algebra bitmap_bit10 bitmap_ff); apply bitmaps_ok.
Defined.

Lemma X6_empty_delta_witness :
  compress_bitmap bitmap_ff bitmap_ff = ([0], true)
  /\ decompress_bitmap bitmap_zero bitmap_ff [0] true = bitmap_ff.
Proof.
  apply (X6_empty_delta bitmap_zero bitmap_ff);
    [apply example_lengths | apply bitmaps_ok].
Defined.

Lemma X7_sparse_output_wellformed_witness :
  sparse_payload (fst (compress_bitmap bitmap_bit10 bitmap_zero)) = true
  /\ union_in_bounds (fst (compress_bitmap bitmap_bit10 bitmap_zero))
                     (fst (compress_bitmap bitmap_bit20 bitmap_zero)) = true.
Proof.
  apply (X7_sparse_output_wellformed bitmap_bit10 bitmap_zero bitmap_bit20 bitmap_zero);
    [ apply bitmaps_ok | apply bitmaps_ok
    | exact (f_equal snd compress_bit10) | exact (f_equal snd compress_bit20) ].
Defined.

Lemma X8_union_algebra_witness :
  fst (union_sorted_array [2; 1; 5] [0]) = [2; 1; 5]
  /\ fst (union_sorted_array [0] [2; 1; 5]) = [2; 1; 5]
  /\ fst (union_sorted_array [2; 1; 5] [2; 1; 5]) = [2; 1; 5]
  /\ fst (union_sorted_array [2; 1; 5] [2; 3; 5]) = fst (union_sorted_array [2; 3; 5] [2; 1; 5])
  /\ fst (union_sorted_array (fst (union_sorted_array [2; 1; 5] [2; 3; 5])) [1; 7])
     = fst (union_sorted_array [2; 1; 5] (fst (union_sorted_array [2; 3; 5] [1; 7]))).
Proof.
  apply (X8_union_algebra [2; 1; 5] [2; 3; 5] [1; 7]); reflexivity.
Defined.

Lemma X9_union_nested_witness :
  bits_subset bitmap_bit10 bitmap_bits_10_20
  /\ union_sorted_array (fst (compress_bitmap bitmap_bits_10_20 bitmap_zero))
                        (fst (compress_bitmap bitmap_bit10 bitmap_zero))
     = (fst (compress_bitmap bitmap_bits_10_20 bitmap_zero),
        fst (compress_bitmap bitmap_bit10 bitmap_zero)).
Proof.
  split; [exact versions_grow_subset|].
  apply (X9_union_nested bitmap_bit10 bitmap_bits_10_20 bitmap_zero);
    [ apply bitmaps_ok | exact bits_10_20_ok
    | exact (f_equal snd compress_bit10) | exact (f_equal snd compress_bits_10_20) | ].
  intros p. apply diff_nested; [|exact versions_grow_subset].
  intros q Hq. by rewrite bit_at_zero in Hq.
Defined.

Lemma X10_chains_acyclic_witness :
  (forall g r, ref_heap st_both !! g = Some r ->
     NoDup (group_chain st_both r)
     /\ (forall a, a ∈ group_chain st_both r -> is_Some (bmp_heap st_both !! a))
     /\ exists b0 nd0, last (group_chain st_both r) = Some b0
                       /\ bmp_heap st_both !! b0 = Some nd0 /\ next_bitmap nd0 = None)
  /\ (forall csn out, get_bitmap st_both csn out <> Timeout)
  /\ (forall c, run_call st_both c <> Timeout).
Proof. exact (X10_chains_acyclic st_both reachable_both). Defined.

Lemma X11_get_bitmap_true_witness :
  get_bitmap st_both 1 bitmap_zero = Ret (true, bitmap_bit10)
  /\ exists g r front b back nd w,
       ref_heap st_both !! g = Some r
       /\ fst (csn_range r) <= 1 <= snd (csn_range r)
       /\ group_chain st_both r = front ++ b :: back
       /\ (forall a nda, a ∈ front -> bmp_heap st_both !! a = Some nda ->
             bitmap_csn nda <> 1)
       /\ bmp_heap st_both !! b = Some nd /\ bitmap_csn nd = 1
       /\ compressed_bitmap nd = Some w
       /\ bitmap_bit10 = decompress_bitmap bitmap_zero (complete_bitmap r) w
                           (is_compressed nd).
Proof.
  split; [exact get_both_1|].
  exact (X11_get_bitmap_true st_both 1 bitmap_zero bitmap_bit10 get_both_1).
Defined.

Lemma X12_get_bitmap_absent_witness :
  reachable st_both /\ get_bitmap st_both 7 bitmap_ff = Ret (false, bitmap_ff).
Proof.
  split; [exact reachable_both|].
  exact (X12_get_bitmap_absent st_both 7 bitmap_ff reachable_both st_both_no_7).
Defined.

Lemma X14_insert_null_effect_witness :
  reachable st_two_pending
  /\ exists s' ref' bitmap' nd,
    insert_null st_two_pending 3 bitmap_zero None None = Ret (s', ref', bitmap', true)
    /\ bmp_heap s' = bmp_heap st_two_pending ++ [nd]
    /\ bitmap_csn nd = 3
    /\ (if head_bitmap_cnt st_two_pending =? MAX_COMPRESS_NUM then
          ref' = None /\ bitmap' = None
          /\ head_bitmap_cnt s' = 1
          /\ first_ref s' = Some (length (ref_heap st_two_pending))
          /\ ref_heap s' = ref_heap st_two_pending ++
               [{| bitmap_cnt := 1; csn_range := (3, 3);
                   next_ref := first_ref st_two_pending;
                   first_compressed_bitmap := Some (length (bmp_heap st_two_pending));
                   complete_bitmap := bitmap_zero |}]
          /\ next_bitmap nd = None
          /\ compressed_bitmap nd = Some [0] /\ is_compressed nd = true
        else
          exists g r,
            first_ref st_two_pending = Some g /\ ref_heap st_two_pending !! g = Some r
            /\ ref' = Some g /\ bitmap' = Some (length (bmp_heap st_two_pending))
            /\ head_bitmap_cnt s' = head_bitmap_cnt st_two_pending + 1
            /\ first_ref s' = first_ref st_two_pending
            /\ ref_heap s' = <[g := set_first r (Some (length (bmp_heap st_two_pending)))]>
                               (ref_heap st_two_pending)
            /\ next_bitmap nd = first_compressed_bitmap r
            /\ compressed_bitmap nd = None).
Proof.
  split; [exact reachable_two_pending|].
  apply (X14_insert_null_effect st_two_pending 3 bitmap_zero None None
           reachable_two_pending).
  apply bitmaps_ok.
Defined.

Lemma X15_insert_null_keeps_older_reads_witness :
  insert_null st_two_pending 3 bitmap_zero None None
    = Ret (st_three_pending, Some 0%nat, Some 3%nat, true)
  /\ get_bitmap st_three_pending 0 bitmap_ff = get_bitmap st_two_pending 0 bitmap_ff.
Proof.
  split; [exact insert_null_three|].
  apply (X15_insert_null_keeps_older_reads st_two_pending 3 bitmap_zero None None
           st_three_pending (Some 0%nat) (Some 3%nat) true 0 bitmap_ff
           reachable_two_pending insert_null_three).
  lia.
Defined.


Lemma X17_single_worker_reads_back_witness :
  workload_ok versions_grow
  /\ exists s,
       insert_all init versions_grow = Ret s
       /\ forall v out,
            v ∈ versions_grow -> length out = BITMAP_SIZE ->
            get_bitmap s (InputBitmap.bitmap_csn v) out
            = Ret (true, InputBitmap.input_bitmap v).
Proof.
  split; [exact versions_grow_ok|].
  exact (X17_single_worker_reads_back versions_grow versions_grow_ok).
Defined.

Lemma X18_finished_versions_read_back_witness :
  driver versions_grow st_grow_newer 3 [ mkWorker 1 (Some 0%nat) (Some 1%nat) ]
  /\ get_bitmap st_grow_newer 2 bitmap_ff = Ret (true, bitmap_bits_10_20).
Proof.
  split; [exact driver_grow_newer|].
  apply (X18_finished_versions_read_back versions_grow st_grow_newer 3
           [ mkWorker 1 (Some 0%nat) (Some 1%nat) ]
           versions_grow_ok versions_grow_grows driver_grow_newer
           2%nat (InputBitmap.mk 2 bitmap_bits_10_20) bitmap_ff).
  - reflexivity.
  - lia.
  - cbn. intros [?|[]%elem_of_nil]%elem_of_cons. lia.
  - apply example_lengths.
Defined.

Lemma X19_workers_never_fault_witness :
  driver versions_grow st_two_pending 3
         [ mkWorker 1 (Some 0%nat) (Some 1%nat); mkWorker 2 (Some 0%nat) (Some 2%nat) ]
  /\ (forall v, versions_grow !! 3%nat = Some v ->
        exists s' ref bitmap, worker_reserve st_two_pending v = Ret (s', ref, bitmap))
  /\ (forall w, w ∈ [ mkWorker 1 (Some 0%nat) (Some 1%nat);
                      mkWorker 2 (Some 0%nat) (Some 2%nat) ] ->
        exists v s', versions_grow !! local_pos w = Some v
                     /\ worker_fill st_two_pending (w_ref w) (w_bitmap w) v = Ret s').
Proof.
  split; [exact driver_two_pending|].
  exact (X19_workers_never_fault versions_grow st_two_pending 3 _
           versions_grow_ok versions_grow_grows driver_two_pending).
Defined.

(** ** The version generator and the baseline on examples *)

Lemma gen_walk_in_range : draws_in_range gen_walk.
Proof.
  intros k. unfold gen_walk. cbn [fst snd]. split; [|lia].
  unfold BITMAP_SIZE. lia.
Qed.

Lemma RandomSet_walk_first :
  RandomSet gen_walk 1 0 bitmap_zero = Some (<[0%nat := 1]> bitmap_zero, 1%nat).
Proof. reflexivity. Qed.

Lemma X13_RandomSet_sets_bits_witness :
  is_bitmap (<[0%nat := 1]> bitmap_zero) = true
  /\ bits_subset bitmap_zero (<[0%nat := 1]> bitmap_zero)
  /\ length (diff_positions (<[0%nat := 1]> bitmap_zero) bitmap_zero) = 1%nat.
Proof.
  exact (X13_RandomSet_sets_bits gen_walk 1 0 bitmap_zero (<[0%nat := 1]> bitmap_zero) 1
           gen_walk_in_range (proj1 bitmaps_ok) RandomSet_walk_first).
Defined.

Lemma X20_single_thread_run_reads_over_witness :
  draws_in_range gen_walk
  /\ (main_single gen_walk (fun _ => 0%nat) = Returns (repeat ReadOver max_insert)
      \/ main_prepare gen_walk (fun _ => 0%nat) max_insert
           {| bitmap_list := []; tsn_list := []; now_csn := 0; first_flag := true;
              gen_next := 0; tsn_next := 0 |} = Throws).
Proof.
  split; [exact gen_walk_in_range|].
  exact (X20_single_thread_run_reads_over gen_walk (fun _ => 0%nat) gen_walk_in_range).
Defined.


Lemma versions_grow_lengths v :
  v ∈ versions_grow -> length (InputBitmap.input_bitmap v) = BITMAP_SIZE.
Proof.
  intros Hv. apply is_bitmap_length. by apply (wl_bitmap _ versions_grow_ok).
Qed.

Lemma Original_insert_bitmap_content_eval s b nd img :
  OriginalHexaDB.heap s !! b = Some nd ->
  length img = BITMAP_SIZE ->
  length (OriginalHexaDB.bitmap_content nd) = BITMAP_SIZE ->
  OriginalHexaDB.insert_bitmap_content s img (Some b)
  = Ret {| OriginalHexaDB.heap :=
             <[b := OriginalHexaDB.mkOneBitmap (OriginalHexaDB.next_bitmap nd)
                      (OriginalHexaDB.bitmap_csn nd) img]> (OriginalHexaDB.heap s);
           OriginalHexaDB.first_bitmap := OriginalHexaDB.first_bitmap s |}.
Proof.
  intros Hnd Hl Hc. unfold OriginalHexaDB.insert_bitmap_content, deref.
  rewrite Hnd. cbn [mbind outcome_bind]. rewrite Hl, Nat.leb_refl.
  by rewrite memcpy_all.
Qed.

Lemma original_driver_pending :
  OriginalHexaDB.driver versions_grow original_st_pending 3
    [ OriginalHexaDB.mkWorker 2 (Some 2%nat) ].
Proof.
  apply (OriginalHexaDB.driver_reserve versions_grow
           {| OriginalHexaDB.heap :=
                [ OriginalHexaDB.mkOneBitmap None 0 bitmap_zero;
                  OriginalHexaDB.mkOneBitmap (Some 0%nat) 1 bitmap_bit10 ];
              OriginalHexaDB.first_bitmap := Some 1%nat |}
           2 [] (InputBitmap.mk 2 bitmap_bits_10_20)); [|reflexivity].
  apply (OriginalHexaDB.driver_fill versions_grow
           {| OriginalHexaDB.heap :=
                [ OriginalHexaDB.mkOneBitmap None 0 bitmap_zero;
                  OriginalHexaDB.mkOneBitmap (Some 0%nat) 1 bitmap_zero ];
              OriginalHexaDB.first_bitmap := Some 1%nat |}
           2 [] (OriginalHexaDB.mkWorker 1 (Some 1%nat)) []
           (InputBitmap.mk 1 bitmap_bit10)); [|reflexivity|].
  2: { cbn [OriginalHexaDB.w_bitmap InputBitmap.input_bitmap].
       match goal with
       | |- OriginalHexaDB.insert_bitmap_content ?s _ _ = _ =>
           rewrite (Original_insert_bitmap_content_eval s 1
                      (OriginalHexaDB.mkOneBitmap (Some 0%nat) 1 bitmap_zero) _ eq_refl)
             by apply example_lengths
       end. reflexivity. }
  apply (OriginalHexaDB.driver_reserve versions_grow
           {| OriginalHexaDB.heap := [ OriginalHexaDB.mkOneBitmap None 0 bitmap_zero ];
              OriginalHexaDB.first_bitmap := Some 0%nat |}
           1 [] (InputBitmap.mk 1 bitmap_bit10)); [|reflexivity].
  apply (OriginalHexaDB.driver_fill versions_grow
           {| OriginalHexaDB.heap := [ OriginalHexaDB.mkOneBitmap None 0 bitmap_zero ];
              OriginalHexaDB.first_bitmap := Some 0%nat |}
           1 [] (OriginalHexaDB.mkWorker 0 (Some 0%nat)) []
           (InputBitmap.mk 0 bitmap_zero)); [|reflexivity|].
  2: { cbn [OriginalHexaDB.w_bitmap InputBitmap.input_bitmap].
       match goal with
       | |- OriginalHexaDB.insert_bitmap_content ?s _ _ = _ =>
           rewrite (Original_insert_bitmap_content_eval s 0
                      (OriginalHexaDB.mkOneBitmap None 0 bitmap_zero) _ eq_refl)
             by apply example_lengths
       end. reflexivity. }
  apply (OriginalHexaDB.driver_reserve versions_grow OriginalHexaDB.init
           0 [] (InputBitmap.mk 0 bitmap_zero)); [|reflexivity].
  apply OriginalHexaDB.driver_start.
Qed.

Lemma versions_grow_after_1 k v' :
  (1 < k < 3)%nat -> versions_grow !! k = Some v' -> 1 < InputBitmap.bitmap_csn v'.
Proof.
  intros Hk Hv'. assert (k = 2%nat) as -> by lia. injection Hv' as <-.
  cbn [InputBitmap.bitmap_csn]. lia.
Qed.

Lemma versions_grow_csn_nonneg k v' :
  (k < 3)%nat -> versions_grow !! k = Some v' -> -1 < InputBitmap.bitmap_csn v'.
Proof.
  intros Hk Hv'. destruct k as [|[|[|k]]]; [| | |lia];
    injection Hv' as <-; cbn [InputBitmap.bitmap_csn]; lia.
Qed.

Lemma X21_original_snapshot_read_witness :
  OriginalHexaDB.driver versions_grow original_st_pending 3
    [ OriginalHexaDB.mkWorker 2 (Some 2%nat) ]
  /\ OriginalHexaDB.get_bitmap original_st_pending 1 bitmap_ff = Ret (true, bitmap_bit10)
  /\ OriginalHexaDB.get_bitmap original_st_pending 5 bitmap_ff = Ret (true, bitmap_zero).
Proof.
  split; [exact original_driver_pending|]. split.
  - apply (X21_original_snapshot_read versions_grow original_st_pending 3
             [ OriginalHexaDB.mkWorker 2 (Some 2%nat) ] 1
             (InputBitmap.mk 1 bitmap_bit10) 1 bitmap_ff
             versions_grow_lengths original_driver_pending eq_refl).
    + lia.
    + cbn [InputBitmap.bitmap_csn]. lia.
    + exact versions_grow_after_1.
    + apply example_lengths.
  - apply (X21_original_snapshot_read versions_grow original_st_pending 3
             [ OriginalHexaDB.mkWorker 2 (Some 2%nat) ] 2
             (InputBitmap.mk 2 bitmap_bits_10_20) 5 bitmap_ff
             versions_grow_lengths original_driver_pending eq_refl).
    + lia.
    + cbn [InputBitmap.bitmap_csn]. lia.
    + intros k v' Hk. lia.
    + apply example_lengths.
Defined.

Lemma X22_original_nothing_visible_witness :
  OriginalHexaDB.driver versions_grow original_st_pending 3
    [ OriginalHexaDB.mkWorker 2 (Some 2%nat) ]
  /\ OriginalHexaDB.get_bitmap original_st_pending (-1) bitmap_ff = Ret (false, bitmap_ff).
Proof.
  split; [exact original_driver_pending|].
  exact (X22_original_nothing_visible versions_grow original_st_pending 3
           [ OriginalHexaDB.mkWorker 2 (Some 2%nat) ] (-1) bitmap_ff
           versions_grow_lengths original_driver_pending versions_grow_csn_nonneg).
Defined.

Lemma X23_original_workers_never_fault_witness :
  OriginalHexaDB.driver versions_grow original_st_pending 3
    [ OriginalHexaDB.mkWorker 2 (Some 2%nat) ]
  /\ exists v s',
       versions_grow !! 2%nat = Some v
       /\ OriginalHexaDB.insert_bitmap_content original_st_pending
            (InputBitmap.input_bitmap v) (Some 2%nat) = Ret s'.
Proof.
  split; [exact original_driver_pending|].
  apply (X23_original_workers_never_fault versions_grow original_st_pending 3
           [ OriginalHexaDB.mkWorker 2 (Some 2%nat) ]
           (OriginalHexaDB.mkWorker 2 (Some 2%nat))
           versions_grow_lengths original_driver_pending).
  apply list_elem_of_here.
Defined.

Lemma draws_front_in_list (k t : nat) :
  (t < delete_size)%nat -> ((fun _ : nat => 0%nat) (k + t)%nat < max_size - t)%nat.
Proof. unfold delete_size, max_size, max_insert. cbn beta. lia. Qed.

Lemma draw_past_end :
  exists t, (t < delete_size)%nat
            /\ (max_size - t <= (fun _ : nat => 119%nat) (0 + t)%nat)%nat.
Proof. exists 1%nat. unfold delete_size, max_size, max_insert. cbn beta. lia. Qed.

Lemma X25_insert_new_tsn_full_witness :
  (exists l', insert_new_tsn (fun _ => 0%nat) 0 (repeat 0 max_size) 7
              = Ret (7 :: l', (0 + delete_size)%nat)
              /\ length l' = (max_size - delete_size)%nat)
  /\ insert_new_tsn (fun _ => 119%nat) 0 (repeat 0 max_size) 7 = Fault OutOfBounds.
Proof.
  split.
  - apply (proj1 (X25_insert_new_tsn_full (fun _ => 0%nat) 0 (repeat 0 max_size) 7
                    (repeat_length _ _))).
    exact (draws_front_in_list 0).
  - apply (proj2 (X25_insert_new_tsn_full (fun _ => 119%nat) 0 (repeat 0 max_size) 7
                    (repeat_length _ _))).
    exact draw_past_end.
Defined.
